(** * A cached object layer over the file system: [asyncFs] and [syncFs]

    Shallow embedding of the path resolver ([parseAsyncFsArgs], [fsPath]),
    the retrying operation ([attemptFileOperation]), the TTL cache
    ([cacheOrGenerate]), the object caches ([AsyncFsObj.fromCache], [fromFs])
    and the node operations of both variants, followed by the properties
    established about them. *)

From Stdlib Require Import ZArith Ascii String.
From stdpp Require Import gmap strings list pretty.

Set Warnings "-register-all".
Local Open Scope Z_scope.

(** ** JavaScript string methods used by the sources *)

Module Str.

(** [s.replace(/c/g, d)] for a single character [c]. *)
Fixpoint replace_char (c d : ascii) (s : string) : string :=
  match s with
  | EmptyString => EmptyString
  | String a r =>
      String (if Ascii.eqb a c then d else a) (replace_char c d r)
  end.

(** [s.replace(/c/g, "")]. *)
Fixpoint remove_char (c : ascii) (s : string) : string :=
  match s with
  | EmptyString => EmptyString
  | String a r =>
      if Ascii.eqb a c then remove_char c r else String a (remove_char c r)
  end.

(** [s.replace(/\/\/+/g, "/")]: every run of two or more slashes becomes
    one slash; [after_slash] tells that the previous character kept was a
    slash. *)
Fixpoint collapse_from (after_slash : bool) (s : string) : string :=
  match s with
  | EmptyString => EmptyString
  | String a r =>
      if Ascii.eqb a "/"
      then (if after_slash then collapse_from true r
            else String a (collapse_from true r))
      else String a (collapse_from false r)
  end.

Definition collapse_slashes (s : string) : string := collapse_from false s.

Definition startsWith (s pre : string) : bool := String.prefix pre s.

Definition endsWith (s suf : string) : bool :=
  String.prefix (String.rev suf) (String.rev s).

(** [s.substring(n)] *)
Fixpoint substring_from (n : nat) (s : string) : string :=
  match n, s with
  | O, _ => s
  | S _, EmptyString => EmptyString
  | S n', String _ r => substring_from n' r
  end.

(** [s.substring(0, n)] *)
Fixpoint substring_to (n : nat) (s : string) : string :=
  match n, s with
  | O, _ => EmptyString
  | S _, EmptyString => EmptyString
  | S n', String a r => String a (substring_to n' r)
  end.

(** [s.split(c)] for a single-character separator. *)
Fixpoint split (c : ascii) (s : string) : list string :=
  match s with
  | EmptyString => [EmptyString]
  | String a r =>
      if Ascii.eqb a c then EmptyString :: split c r
      else match split c r with
           | h :: t => String a h :: t
           | [] => [String a EmptyString]
           end
  end.

(** [l.join(sep)] *)
Fixpoint join (sep : string) (l : list string) : string :=
  match l with
  | [] => EmptyString
  | [x] => x
  | x :: t => x +:+ sep +:+ join sep t
  end.

(** [s.includes(sub)] *)
Fixpoint includes (s sub : string) : bool :=
  String.prefix sub s ||
  match s with
  | EmptyString => false
  | String _ r => includes r sub
  end.

Fixpoint trimStart (s : string) : string :=
  match s with
  | EmptyString => EmptyString
  | String a r => if Ascii.is_space a then trimStart r else s
  end.

(** [s.trim()] *)
Definition trim (s : string) : string :=
  String.rev (trimStart (String.rev (trimStart s))).

Definition is_empty (s : string) : bool :=
  match s with EmptyString => true | _ => false end.

Definition upper (a : ascii) : ascii :=
  let n := nat_of_ascii a in
  if (Nat.leb 97 n && Nat.leb n 122)%bool then ascii_of_nat (n - 32) else a.

(** [s.toUpperCase()] on ASCII text. *)
Fixpoint toUpperCase (s : string) : string :=
  match s with
  | EmptyString => EmptyString
  | String a r => String (upper a) (toUpperCase r)
  end.

(** [s.replace(c, "")] with a string pattern: the first occurrence only. *)
Fixpoint remove_first (c : ascii) (s : string) : string :=
  match s with
  | EmptyString => EmptyString
  | String a r => if Ascii.eqb a c then r else String a (remove_first c r)
  end.

Definition lower (a : ascii) : ascii :=
  let n := nat_of_ascii a in
  if (Nat.leb 65 n && Nat.leb n 90)%bool then ascii_of_nat (n + 32) else a.

(** [s.toLowerCase()] on ASCII text. *)
Fixpoint toLowerCase (s : string) : string :=
  match s with
  | EmptyString => EmptyString
  | String a r => String (lower a) (toLowerCase r)
  end.

(** [s.lastIndexOf(c)] for a single character; [None] stands for [-1]. *)
Fixpoint lastIndexOf (c : ascii) (s : string) : option nat :=
  match s with
  | EmptyString => None
  | String a r =>
      match lastIndexOf c r with
      | Some i => Some (S i)
      | None => if Ascii.eqb a c then Some O else None
      end
  end.

End Str.

(** ** The POSIX flavour of [node:path]

    [path.resolve] and [path.dirname] belong to the runtime, not to the
    repository; they are written here after the runtime's POSIX
    implementation, for one path argument, with the working directory
    passed explicitly. *)

Module NodePath.

(** [normalizeString]: the segments kept so far are held in reverse. *)
Fixpoint normalize_segments (allowAboveRoot : bool)
    (kept : list string) (segs : list string) : list string :=
  match segs with
  | [] => kept
  | seg :: rest =>
      if Str.is_empty seg || String.eqb seg "." then
        normalize_segments allowAboveRoot kept rest
      else if String.eqb seg ".." then
        match kept with
        | last :: kept' =>
            if String.eqb last ".." then
              normalize_segments allowAboveRoot
                (if allowAboveRoot then ".." :: kept else kept) rest
            else normalize_segments allowAboveRoot kept' rest
        | [] =>
            normalize_segments allowAboveRoot
              (if allowAboveRoot then [".."] else []) rest
        end
      else normalize_segments allowAboveRoot (seg :: kept) rest
  end.

Definition normalizeString (p : string) (allowAboveRoot : bool) : string :=
  Str.join "/" (rev (normalize_segments allowAboveRoot [] (Str.split "/" p))).

(** [path.resolve(p)] with [process.cwd() = cwd]. *)
Definition resolve (cwd p : string) : string :=
  let '(resolvedPath, resolvedAbsolute) :=
    if Str.is_empty p then (EmptyString, false)
    else (p +:+ "/", Str.startsWith p "/") in
  let '(resolvedPath, resolvedAbsolute) :=
    if resolvedAbsolute then (resolvedPath, true)
    else if Str.is_empty cwd then (resolvedPath, false)
    else (cwd +:+ "/" +:+ resolvedPath, Str.startsWith cwd "/") in
  let normalized := normalizeString resolvedPath (negb resolvedAbsolute) in
  if resolvedAbsolute then "/" +:+ normalized
  else if Str.is_empty normalized then "." else normalized.

(** The scan of [path.dirname]: going from the last character down to
    index 1, the first slash met after a non-slash character ends the
    directory part. [chars] is the path reversed and without its first
    character; [i] is the index of the head of [chars]. *)
Fixpoint dirname_end (chars : list ascii) (i : nat) (matchedSlash : bool)
    : option nat :=
  match chars with
  | [] => None
  | a :: r =>
      if Ascii.eqb a "/" then
        if matchedSlash then dirname_end r (pred i) true else Some i
      else dirname_end r (pred i) false
  end.

Definition dirname (p : string) : string :=
  match p with
  | EmptyString => "."
  | String a0 tail =>
      let hasRoot := Ascii.eqb a0 "/" in
      match dirname_end (rev (list_ascii_of_string tail))
              (String.length tail) true with
      | None => if hasRoot then "/" else "."
      | Some e =>
          if hasRoot && Nat.eqb e 1 then "//" else Str.substring_to e p
      end
  end.

End NodePath.

(** ** JavaScript values handed to the path resolver *)

Module Js.

(** Numbers are integers or [NaN]; arrays and objects carry the address
    that [===] compares. *)
Inductive number : Type :=
| NaN
| Num (z : Z).

Inductive value : Type :=
| Undefined
| Null
| Bool (b : bool)
| Number (n : number)
| Str (s : string)
| Arr (addr : nat) (items : list value)
| Obj (addr : nat) (props : list (string * value)).

(** [String(n)] for [NaN] and for the integers that print digit by digit,
    those below [1e21] in magnitude. *)
Definition number_toString (n : number) : string :=
  match n with
  | NaN => "NaN"
  | Num z => pretty z
  end.

(** [JSON.stringify(b)] for a [Buffer]: the text of its [toJSON()], that
    is [{"type":"Buffer","data":[...]}] with the bytes in decimal. *)
Definition stringify_buffer (b : list Byte.byte) : string :=
  let q := String (ascii_of_nat 34) EmptyString in
  "{" +:+ q +:+ "type" +:+ q +:+ ":" +:+ q +:+ "Buffer" +:+ q
  +:+ "," +:+ q +:+ "data" +:+ q +:+ ":["
  +:+ Str.join "," (map (fun x => pretty (Byte.to_N x)) b) +:+ "]}".

(** [a === b] *)
Definition strict_eq (a b : value) : bool :=
  match a, b with
  | Undefined, Undefined => true
  | Null, Null => true
  | Bool x, Bool y => Bool.eqb x y
  | Number (Num x), Number (Num y) => Z.eqb x y
  | Str x, Str y => String.eqb x y
  | Arr x _, Arr y _ => Nat.eqb x y
  | Obj x _, Obj y _ => Nat.eqb x y
  | _, _ => false
  end.

(** [arr[n]] for a number [n]: [undefined] outside the array. *)
Definition index (items : list value) (n : number) : value :=
  match n with
  | Num z => if z <? 0 then Undefined else nth (Z.to_nat z) items Undefined
  | NaN => Undefined
  end.

(** [a[k]] on an object's own properties. *)
Fixpoint get (props : list (string * value)) (k : string) : value :=
  match props with
  | [] => Undefined
  | (k', v) :: rest => if String.eqb k' k then v else get rest k
  end.

(** Number of constructors of a value: the work the resolver's loop has
    left for it. *)
Fixpoint weight (v : value) : nat :=
  match v with
  | Arr _ items => S (list_sum (map weight items))
  | _ => 1%nat
  end.

Definition weights (vs : list value) : nat := list_sum (map weight vs).

End Js.

(** ** PathResolver: [parseAsyncFsArgs] *)

Record Problem := { problem_i : nat; problem_arg : Js.value }.

Record ParsedArgs := {
  parsed_path : string;
  parsed_parts : list string;
  parsed_problems : list Problem
}.

(** The keys an object argument is searched for, in this order. *)
Definition path_keys : list string :=
  ["name"; "path"; "filePath"; "filepath"; "file_path";
   "fullPath"; "fullpath"; "full_path"].

(** [keys.find((k) => typeof a[k] === "string" && a[k].length)], giving
    [a[key]]. *)
Fixpoint find_path_key (props : list (string * Js.value)) (keys : list string)
    : option string :=
  match keys with
  | [] => None
  | k :: rest =>
      match Js.get props k with
      | Js.Str s => if Str.is_empty s then find_path_key props rest else Some s
      | _ => find_path_key props rest
      end
  end.

(** The choice of [relevant]: a call shaped as a [map] callback keeps only
    its first argument. *)
Definition relevant_args (args : list Js.value) : list Js.value :=
  match args with
  | [a0; Js.Number n; Js.Arr _ items] =>
      if Js.strict_eq (Js.index items n) a0 then [a0] else args
  | _ => args
  end.

(** The loop over [relevant], which grows while it is walked: [i] is the
    index of the head of [pending] in [relevant]. *)
Fixpoint parse_loop (fuel : nat) (i : nat) (pending : list Js.value)
    (parts : list string) (problems : list Problem)
    : option (list string * list Problem) :=
  match pending with
  | [] => Some (parts, problems)
  | a :: rest =>
      match fuel with
      | O => None
      | S fuel' =>
          let next := parse_loop fuel' (S i) in
          match a with
          | Js.Undefined | Js.Null => next rest parts problems
          | Js.Str s =>
              if Nat.eqb (length parts) 0 && Str.is_empty s
              then next rest (parts ++ ["."]) problems
              else next rest (parts ++ [s]) problems
          | Js.Number n => next rest (parts ++ [Js.number_toString n]) problems
          | Js.Bool _ =>
              next rest parts (problems ++ [{| problem_i := i; problem_arg := a |}])
          | Js.Arr _ items => next (rest ++ items) parts problems
          | Js.Obj _ props =>
              match
                (if Nat.eqb (length props) 0 then None
                 else find_path_key props path_keys)
              with
              | Some s => next rest (parts ++ [s]) problems
              | None =>
                  next rest parts
                    (problems ++ [{| problem_i := i; problem_arg := a |}])
              end
          end
      end
  end.

(** The normalisation of the joined parts, up to the trailing-slash trim. *)
Definition clean_joined (parts : list string) : string :=
  let p := Str.remove_char "?"
             (Str.collapse_slashes
                (Str.replace_char "\" "/" (Str.join "/" parts))) in
  if Str.endsWith p "/" then Str.substring_to (String.length p - 1) p else p.

(** Resolution against the working directory and the re-expression that
    follows it. *)
Definition canonical (cwd : string) (joined : string) : string :=
  let p := Str.replace_char "\" "/" (NodePath.resolve cwd joined) in
  let prefix := Str.replace_char "\" "/" cwd in
  if Str.startsWith prefix (p +:+ "/")
  then "." +:+ Str.substring_from (String.length prefix) p
  else p.

(** One unit of fuel per constructor of the arguments is all the loop
    uses ([parse_loop_terminates] below), so the default is never taken. *)
Definition parseAsyncFsArgs (cwd : string) (args : list Js.value) : ParsedArgs :=
  let relevant := relevant_args args in
  let '(parts, problems) :=
    default ([], []) (parse_loop (Js.weights relevant) 0 relevant [] []) in
  {| parsed_path := canonical cwd (clean_joined parts);
     parsed_parts := parts;
     parsed_problems := problems |}.

(** ** Errors and the retrying operation: [attemptFileOperation] *)

(** A thrown [Error]: its [code] property may be missing. *)
Record Error := { err_code : option string; err_message : string }.

Definition os_error (c : string) : Error :=
  {| err_code := Some c; err_message := c |}.

Definition plain_error (m : string) : Error :=
  {| err_code := None; err_message := m |}.

(** [err.code !== "ENOENT" && err.code !== "EBUSY"] is false. *)
Definition is_transient (e : Error) : bool :=
  match err_code e with
  | Some c => String.eqb c "ENOENT" || String.eqb c "EBUSY"
  | None => false
  end.

(** What an action throws: any value.  [undefined] and [null] have no
    properties, so reading [err.code] off them raises a [TypeError]; every
    other value is stood for by the record of its [code] (a code that is
    no string never equals ["ENOENT"] or ["EBUSY"], like a missing one). *)
Inductive Thrown : Type :=
  | thrown_undefined
  | thrown_null
  | thrown (e : Error).

(** The [TypeError] of [err.code] when [err] is [undefined] or [null]. *)
Definition no_code : Error :=
  plain_error "TypeError: Cannot read properties (reading 'code')".

Record Attempt (A : Type) := { data : A; error : option Error }.
Arguments data {A} _.
Arguments error {A} _.

Section Retry.
Context {W A : Type}.

(** What the world does during the wait of [100 + 100 * Math.random()]
    milliseconds that follows a failed attempt. *)
Variable pause : W → W.

(** The loop [for (let i = 0; i < 2; i++)], [n] being the number of
    rounds that remain; [func] runs in the world and either returns or
    throws.  The result is [inl] of the object returned, or [inr] of the
    error that leaves the function from inside its [catch] block. *)
Fixpoint attempt_loop (n : nat) (fallback : A) (error : option Error)
    (func : W → (A + Thrown) * W) (w : W) : (Attempt A + Error) * W :=
  match n with
  | O => (inl {| data := fallback; error := error |}, w)
  | S n' =>
      match func w with
      | (inl result, w1) => (inl {| data := result; error := None |}, w1)
      | (inr (thrown err), w1) =>
          if is_transient err
          then attempt_loop n' fallback (Some err) func (pause w1)
          else (inl {| data := fallback; error := Some err |}, w1)
      | (inr _, w1) => (inr no_code, w1)
      end
  end.

Definition attemptFileOperation (fallback : A)
    (func : W → (A + Thrown) * W) (w : W) : (Attempt A + Error) * W :=
  attempt_loop 2 fallback None func w.

End Retry.

(** An action that throws [Error] objects only, as every promise of
    [fs.promises] that rejects does. *)
Definition rejecting {W A : Type} (func : W → (A + Error) * W) (w : W)
    : (A + Thrown) * W :=
  match func w with
  | (inl a, w') => (inl a, w')
  | (inr e, w') => (inr (thrown e), w')
  end.

(** An action instrumented with the number of times it has been invoked. *)
Definition counted {W A : Type} (func : W → A * W) (cw : nat * W)
    : A * (nat * W) :=
  let '(r, w') := func (snd cw) in (r, (S (fst cw), w')).

Definition lift_pause {W : Type} (pause : W → W) (cw : nat * W) : nat * W :=
  (fst cw, pause (snd cw)).

(** ** The operating system underneath

    A flat file system keyed by absolute path, and a schedule of faults:
    each system call takes the next slot of the schedule and fails with the
    code found there, if any. *)

Inductive fsentry : Type :=
| EFile (content : list Byte.byte)
| EDir
| EOther.

Inductive fkind : Type := KFile | KDir | KOther.

Record Stats := { st_kind : fkind; st_size : Z }.

Definition isFile (s : Stats) : bool :=
  match st_kind s with KFile => true | _ => false end.

Definition isDirectory (s : Stats) : bool :=
  match st_kind s with KDir => true | _ => false end.

Record os := {
  os_cwd : string;
  os_files : gmap string fsentry;
  os_faults : list (option string)
}.

Module Os.

Definition set_files (o : os) (files : gmap string fsentry) : os :=
  {| os_cwd := os_cwd o; os_files := files; os_faults := os_faults o |}.

Definition set_faults (o : os) (faults : list (option string)) : os :=
  {| os_cwd := os_cwd o; os_files := os_files o; os_faults := faults |}.

(** A system call: the scheduled fault, or the call's own effect. *)
Definition syscall {A : Type} (body : os → (A + Error) * os) (o : os)
    : (A + Error) * os :=
  match os_faults o with
  | Some c :: rest => (inr (os_error c), set_faults o rest)
  | None :: rest => body (set_faults o rest)
  | [] => body o
  end.

(** The key of a path: the path resolved against the working directory,
    its dot segments taken lexically. The empty path, which the system
    refuses, is not told apart from the working directory; the properties
    that would depend on either leave such paths out. *)
Definition key (o : os) (p : string) : string := NodePath.resolve (os_cwd o) p.

(** The root directory always exists. *)
Definition entry (o : os) (k : string) : option fsentry :=
  if String.eqb k "/" then Some EDir else os_files o !! k.

Definition stats_of (e : fsentry) : Stats :=
  match e with
  | EFile content => {| st_kind := KFile; st_size := Z.of_nat (length content) |}
  | EDir => {| st_kind := KDir; st_size := 0 |}
  | EOther => {| st_kind := KOther; st_size := 0 |}
  end.

(** The absolute path [k] and its ancestors below the root, outermost
    first. *)
Definition ancestry (k : string) : list string :=
  let segs := filter (fun s => s ≠ EmptyString) (Str.split "/" k) in
  map (fun n => "/" +:+ Str.join "/" (take n segs)) (seq 1 (length segs)).

(** The code of a lookup that finds no entry: the directories of [dirs],
    outermost first, are gone through; the first that is missing gives
    [ENOENT], the first that is no directory gives [ENOTDIR]. *)
Fixpoint lookup_code (o : os) (dirs : list string) : string :=
  match dirs with
  | [] => "ENOENT"
  | d :: rest =>
      match entry o d with
      | Some EDir => lookup_code o rest
      | Some _ => "ENOTDIR"
      | None => "ENOENT"
      end
  end.

(** The error of a lookup of the key [k] when no entry is found there. *)
Definition missing (o : os) (k : string) : Error :=
  os_error (lookup_code o (removelast (ancestry k))).

Definition stat (p : string) : os → (Stats + Error) * os :=
  syscall (fun o =>
    match entry o (key o p) with
    | Some e => (inl (stats_of e), o)
    | None => (inr (missing o (key o p)), o)
    end).

Definition readFile (p : string) : os → (list Byte.byte + Error) * os :=
  syscall (fun o =>
    match entry o (key o p) with
    | Some (EFile content) => (inl content, o)
    | Some EDir => (inr (os_error "EISDIR"), o)
    | Some EOther => (inr (os_error "EINVAL"), o)
    | None => (inr (missing o (key o p)), o)
    end).

(** The name of the entry [k] when it lies directly in the directory
    [dir]. *)
Definition child_name (dir k : string) : option string :=
  let pre := if String.eqb dir "/" then "/" else dir +:+ "/" in
  if Str.startsWith k pre then
    let name := Str.substring_from (String.length pre) k in
    if Str.is_empty name || Str.includes name "/" then None else Some name
  else None.

Definition names_in (o : os) (dir : string) : list string :=
  omap (fun kv => child_name dir (fst kv)) (map_to_list (os_files o)).

Definition readdir (p : string) : os → (list string + Error) * os :=
  syscall (fun o =>
    match entry o (key o p) with
    | Some EDir => (inl (names_in o (key o p)), o)
    | Some _ => (inr (os_error "ENOTDIR"), o)
    | None => (inr (missing o (key o p)), o)
    end).

(** What stands in the way of creating or opening the entry [k]: its
    directory must exist. *)
Definition parent_fault (o : os) (k : string) : option Error :=
  match entry o (NodePath.dirname k) with
  | Some EDir => None
  | Some _ => Some (os_error "ENOTDIR")
  | None => Some (missing o (NodePath.dirname k))
  end.

Definition writeFile (p : string) (value : list Byte.byte)
    : os → (unit + Error) * os :=
  syscall (fun o =>
    let k := key o p in
    match entry o k with
    | Some EDir => (inr (os_error "EISDIR"), o)
    | Some EOther => (inr (os_error "EINVAL"), o)
    | Some (EFile _) => (inl tt, set_files o (<[k := EFile value]> (os_files o)))
    | None =>
        match parent_fault o k with
        | Some e => (inr e, o)
        | None => (inl tt, set_files o (<[k := EFile value]> (os_files o)))
        end
    end).

Definition appendFile (p : string) (value : list Byte.byte)
    : os → (unit + Error) * os :=
  syscall (fun o =>
    let k := key o p in
    match entry o k with
    | Some EDir => (inr (os_error "EISDIR"), o)
    | Some EOther => (inr (os_error "EINVAL"), o)
    | Some (EFile old) =>
        (inl tt, set_files o (<[k := EFile (old ++ value)]> (os_files o)))
    | None =>
        match parent_fault o k with
        | Some e => (inr e, o)
        | None => (inl tt, set_files o (<[k := EFile value]> (os_files o)))
        end
    end).

(** [mkdir(p)] without options. *)
Definition mkdir (p : string) : os → (unit + Error) * os :=
  syscall (fun o =>
    let k := key o p in
    match entry o k with
    | Some _ => (inr (os_error "EEXIST"), o)
    | None =>
        match parent_fault o k with
        | Some e => (inr e, o)
        | None => (inl tt, set_files o (<[k := EDir]> (os_files o)))
        end
    end).

(** [mkdir(p, {recursive: true})]: the directories of [dirs], outermost
    first, are created where they are missing. *)
Fixpoint make_dirs (dirs : list string) (files : gmap string fsentry)
    : gmap string fsentry + Error :=
  match dirs with
  | [] => inl files
  | d :: rest =>
      match (if String.eqb d "/" then Some EDir else files !! d) with
      | Some EDir => make_dirs rest files
      | Some _ =>
          inr (os_error (match rest with [] => "EEXIST" | _ => "ENOTDIR" end))
      | None => make_dirs rest (<[d := EDir]> files)
      end
  end.

Definition mkdir_recursive (p : string) : os → (unit + Error) * os :=
  syscall (fun o =>
    match make_dirs (ancestry (key o p)) (os_files o) with
    | inl files => (inl tt, set_files o files)
    | inr e => (inr e, o)
    end).

End Os.

(** ** Computations that may throw *)

Inductive outcome (A : Type) : Type :=
| Return (a : A)
| Throw (e : Error).
Arguments Return {A} _.
Arguments Throw {A} _.

Definition M (S A : Type) : Type := S → outcome A * S.

Definition ret {S A : Type} (a : A) : M S A := fun s => (Return a, s).

Definition throw {S A : Type} (e : Error) : M S A := fun s => (Throw e, s).

Definition bind {S A B : Type} (m : M S A) (k : A → M S B) : M S B :=
  fun s =>
    match m s with
    | (Return a, s') => k a s'
    | (Throw e, s') => (Throw e, s')
    end.

Notation "'let*' x ':=' m 'in' k" := (bind m (fun x => k))
  (at level 10, x pattern, m at level 100, k at level 200).

(** A loop over a list, left to right, stopping at the first throw. *)
Fixpoint mapM {S A B : Type} (f : A → M S B) (l : list A) : M S (list B) :=
  match l with
  | [] => ret []
  | x :: rest =>
      let* y := f x in
      let* ys := mapM f rest in
      ret (y :: ys)
  end.

Fixpoint filterM {S A : Type} (f : A → M S bool) (l : list A) : M S (list A) :=
  match l with
  | [] => ret []
  | x :: rest =>
      let* keep := f x in
      let* kept := filterM f rest in
      ret (if keep then x :: kept else kept)
  end.

(** ** Operation mode *)

Inductive Operation : Type := normal | strict | forgiving.

(** [const operation = "normal"] *)
Definition operation : Operation := normal.

(** The asynchronous handler comes in two editions: the typed one
    (src/unnamed/part_000) tests [operation === "strict"], the plain one
    (src/unnamed/part_001) tests [operation] itself, a non-empty string. *)
Inductive Edition : Type := Typed | Plain.

Definition strict_test (ed : Edition) : bool :=
  match ed with
  | Typed => match operation with strict => true | _ => false end
  | Plain => true
  end.

Definition is_forgiving : bool :=
  match operation with forgiving => true | _ => false end.

(** ** Plain objects used as records keyed by path

    [instanceCacheRecord] and [cache] are created as [{}]: a key they do not
    own is looked up on [Object.prototype]. *)

Definition object_prototype_keys : list string :=
  ["constructor"; "__defineGetter__"; "__defineSetter__"; "hasOwnProperty";
   "__lookupGetter__"; "__lookupSetter__"; "isPrototypeOf";
   "propertyIsEnumerable"; "toString"; "valueOf"; "__proto__";
   "toLocaleString"].

Definition inherited (k : string) : bool :=
  bool_decide (k ∈ object_prototype_keys).

(** What a lookup-or-create in such a record gives: the node stored at an
    address, or the truthy member inherited under that key. *)
Inductive hit : Type :=
| Node (l : nat)
| Inherited (k : string).

Global Instance hit_eq_dec : EqDecision hit.
Proof. solve_decision. Defined.

(** ** The asynchronous variant *)

Inductive ftype : Type := t_file | t_folder | t_unknown.

Record AsyncFsObj := {
  _path : string;
  cachedStat : option Stats;
  _parent : option hit
}.

Record world := {
  sys : os;
  heap : list AsyncFsObj;
  instanceCacheRecord : gmap string nat
}.

(** What the system calls resolve to. *)
Inductive osval : Type :=
| VNull
| VUndefined
| VStats (s : Stats)
| VNames (names : list string)
| VBuffer (b : list Byte.byte).

(** The members of [fs.promises] and the arguments passed after the path. *)
Inductive method : Type :=
| m_stat | m_readdir | m_readFile | m_writeFile | m_appendFile | m_mkdir.

Inductive extra : Type :=
| NoArgs
| WithBuffer (b : list Byte.byte)
| WithRecursive.

Definition as_val {A : Type} (f : A → osval) (r : (A + Error) * os)
    : (osval + Error) * os :=
  match r with
  | (inl a, o) => (inl (f a), o)
  | (inr e, o) => (inr e, o)
  end.

(** [fs.promises[name](path, ...args)]. [readFile] takes its second
    argument as options: a buffer there sets none of them. *)
Definition fs_promises (m : method) (p : string) (args : extra)
    : os → (osval + Error) * os :=
  fun o =>
    match m, args with
    | m_stat, _ => as_val VStats (Os.stat p o)
    | m_readdir, _ => as_val VNames (Os.readdir p o)
    | m_readFile, _ => as_val VBuffer (Os.readFile p o)
    | m_writeFile, WithBuffer b => as_val (fun _ => VUndefined) (Os.writeFile p b o)
    | m_writeFile, _ => (inr (plain_error "ERR_INVALID_ARG_TYPE"), o)
    | m_appendFile, WithBuffer b => as_val (fun _ => VUndefined) (Os.appendFile p b o)
    | m_appendFile, _ => (inr (plain_error "ERR_INVALID_ARG_TYPE"), o)
    | m_mkdir, WithRecursive => as_val (fun _ => VUndefined) (Os.mkdir_recursive p o)
    | m_mkdir, _ => as_val (fun _ => VUndefined) (Os.mkdir p o)
    end.

Inductive read_result : Type :=
| r_undefined
| r_null
| r_data (b : list Byte.byte).

(** [typeof data === "string" ? Buffer.from(data, "utf-8") : data] on ASCII
    text. *)
Definition to_buffer (d : string + list Byte.byte) : list Byte.byte :=
  match d with
  | inl s => list_byte_of_string s
  | inr b => b
  end.

Module AsyncFsObj.

Definition set_sys (w : world) (o : os) : world :=
  {| sys := o; heap := heap w; instanceCacheRecord := instanceCacheRecord w |}.

Definition set_heap (w : world) (h : list AsyncFsObj) : world :=
  {| sys := sys w; heap := h; instanceCacheRecord := instanceCacheRecord w |}.

(** [new AsyncFsObj(path)] *)
Definition constructor (p : string) : AsyncFsObj :=
  {| _path := p; cachedStat := None; _parent := None |}.

(** [this.instanceCacheRecord[path] ||
     (this.instanceCacheRecord[path] = new AsyncFsObj(path))] *)
Definition fromCache (p : string) (w : world) : hit * world :=
  match instanceCacheRecord w !! p with
  | Some l => (Node l, w)
  | None =>
      if inherited p then (Inherited p, w)
      else
        (Node (length (heap w)),
         {| sys := sys w;
            heap := heap w ++ [constructor p];
            instanceCacheRecord :=
              <[p := length (heap w)]> (instanceCacheRecord w) |})
  end.

Definition fromCacheM (p : string) : M world hit :=
  fun w => let '(h, w') := fromCache p w in (Return h, w').

(** The object behind [this]. *)
Definition self (this : nat) : M world AsyncFsObj :=
  fun w =>
    match heap w !! this with
    | Some n => (Return n, w)
    | None => (Throw (plain_error "dangling reference"), w)
    end.

(** A method called on the result of a lookup: an inherited member has
    none of the node's methods. *)
Definition on_node {A : Type} (h : hit) (k : nat → M world A) : M world A :=
  match h with
  | Node l => k l
  | Inherited _ => throw (plain_error "TypeError: not a function")
  end.

(** [method.bind(fs.promises, this._path)]; the bound function is kept in
    [_methods], which changes nothing that can be observed. *)
Definition getBoundMethod (this : nat) (m : method)
    : M world (extra → os → (osval + Error) * os) :=
  let* n := self this in
  ret (fs_promises m (_path n)).

(** [await attemptFileOperation(fallback, func, ...args)]: nothing else
    touches the file system while the operation waits. *)
Definition attempt (fallback : osval) (func : os → (osval + Error) * os)
    : M world (Attempt osval) :=
  fun w =>
    match attemptFileOperation (fun o => o) fallback (rejecting func) (sys w) with
    | (inl r, o) => (Return r, set_sys w o)
    | (inr e, o) => (Throw e, set_sys w o)
    end.

Definition set_cachedStat (this : nat) (s : Stats) : M world unit :=
  let* n := self this in
  fun w =>
    (Return tt,
     set_heap w (<[this := {| _path := _path n; cachedStat := Some s;
                              _parent := _parent n |}]> (heap w))).

Definition set_parent (this : nat) (p : hit) : M world unit :=
  let* n := self this in
  fun w =>
    (Return tt,
     set_heap w (<[this := {| _path := _path n; cachedStat := cachedStat n;
                              _parent := Some p |}]> (heap w))).

Definition stat (this : nat) : M world (option Stats) :=
  let* func := getBoundMethod this m_stat in
  let* r := attempt VNull (func NoArgs) in
  match error r, data r with
  | None, VStats s =>
      let* _ := set_cachedStat this s in
      ret (Some s)
  | _, _ => ret None
  end.

Definition type (this : nat) : M world ftype :=
  let* s := stat this in
  ret (match s with
       | Some s =>
           if isFile s then t_file
           else if isDirectory s then t_folder else t_unknown
       | None => t_unknown
       end).

(** [true], [false] or [undefined] *)
Definition file (this : nat) : M world (option bool) :=
  let* t := type this in
  ret (match t with
       | t_file => Some true | t_folder => Some false | t_unknown => None
       end).

Definition folder (this : nat) : M world (option bool) :=
  let* t := type this in
  ret (match t with
       | t_folder => Some true | t_file => Some false | t_unknown => None
       end).

Definition exists_ (this : nat) : M world bool :=
  let* s := stat this in
  ret (bool_decide (is_Some s)).

Definition parts (n : AsyncFsObj) : list string := Str.split "/" (_path n).

(** [get name()] *)
Definition name (n : AsyncFsObj) : string :=
  default EmptyString (last (Str.split "/" (_path n))).

(** [get ext()] *)
Definition ext (n : AsyncFsObj) : string :=
  match Str.lastIndexOf "." (name n) with
  | None => EmptyString
  | Some i => Str.substring_from (S i) (name n)
  end.

Section Edition.

Variable ed : Edition.

(** [get parent()] *)
Definition parent (this : nat) : M world hit :=
  let* n := self this in
  match _parent n with
  | Some p => ret p
  | None =>
      let bare := Str.remove_first ":" (Str.toUpperCase (_path n)) in
      if String.eqb (_path n) "/" || String.eqb bare "C/" || String.eqb bare "D/"
      then throw (plain_error "Unsupported parent")
      else
        let* p :=
          (fun w =>
             let ps := parts n in
             let parent :=
               if Nat.leb (length ps) 2
               then Str.split "/"
                      (Str.replace_char "\" "/"
                         (NodePath.dirname
                            (NodePath.resolve (os_cwd (sys w)) (_path n))))
               else take (length ps - 1) ps in
             fromCacheM (Str.join "/" parent) w) in
        let* _ := set_parent this p in
        ret p
  end.

(** [mkdir()] without a name: the node creates itself. *)
Definition mkdir_self (this : nat) : M world hit :=
  let* t := type this in
  match t with
  | t_folder => ret (Node this)
  | t_file =>
      throw (plain_error "Cannot create folder on an existing file")
  | t_unknown =>
      let* func := getBoundMethod this m_mkdir in
      let* r := attempt VNull (func WithRecursive) in
      match error r with
      | Some e => if strict_test ed then throw e else ret (Node this)
      | None => ret (Node this)
      end
  end.

(** [mkdir(name)] *)
Definition mkdir (this : nat) (name : option string) : M world hit :=
  match name with
  | None => mkdir_self this
  | Some name =>
      if Str.is_empty name then mkdir_self this
      else
        let* t := type this in
        if Str.includes name "/" || Str.includes name "\" then
          throw (plain_error "Cannot create child folder with name")
        else
          match t with
          | t_file =>
              throw (plain_error "Cannot create folder inside an existing file")
          | _ =>
              let* n := self this in
              let* target := fromCacheM (_path n +:+ "/" +:+ name) in
              let* targetType := on_node target type in
              match targetType with
              | t_file =>
                  throw (plain_error "Cannot create folder on an existing file inside")
              | t_folder => ret target
              | t_unknown => on_node target mkdir_self
              end
          end
  end.

(** [children(filter)]; [filter] gives the truth value of its awaited
    verdict. *)
Definition children (this : nat) (filter : option (hit → M world bool))
    : M world (list hit) :=
  let* t := type this in
  match t with
  | t_folder =>
      let* func := getBoundMethod this m_readdir in
      let* r := attempt (VNames []) (func NoArgs) in
      match error r, data r with
      | None, VNames (name :: names) =>
          let* list :=
            mapM (fun name w =>
                    fromCacheM
                      (parsed_path
                         (parseAsyncFsArgs (os_cwd (sys w)) [Js.Str name])) w)
                 (name :: names) in
          match filter with
          | None => ret list
          | Some f => filterM f list
          end
      | _, _ => ret []
      end
  | _ =>
      if strict_test ed
      then throw (plain_error "Cannot get children of non-folder")
      else ret []
  end.

Definition truthy (b : option bool) : bool :=
  match b with Some true => true | _ => false end.

Definition files (this : nat) : M world (list hit) :=
  children this
    (Some (fun f => let* v := on_node f file in ret (truthy v))).

Definition folders (this : nat) : M world (list hit) :=
  children this
    (Some (fun f => let* v := on_node f folder in ret (truthy v))).

Definition siblings (this : nat) : M world (list hit) :=
  let* p := parent this in
  let* ptype := on_node p type in
  match ptype with
  | t_folder =>
      let* p' := parent this in
      let* list := on_node p' (fun l => children l None) in
      let* t := type this in
      let* _ :=
        (match t with
         | t_unknown => ret tt
         | _ =>
             if bool_decide (Node this ∈ list) then ret tt
             else if strict_test ed
             then throw (plain_error
                    "Something went wrong finding itself on parent children")
             else ret tt
         end) in
      ret (filter (fun f => f ≠ Node this) list)
  | _ =>
      if strict_test ed
      then throw (plain_error "Cannot get children of non-folder")
      else ret []
  end.

Definition data (this : nat) : M world read_result :=
  let* f := file this in
  if negb (truthy f) then
    if strict_test ed
    then throw (plain_error "Cannot get data of non-file")
    else ret r_undefined
  else
    let* func := getBoundMethod this m_readFile in
    let* r := attempt VNull (func NoArgs) in
    match error r with
    | Some e => if strict_test ed then throw e else ret r_null
    | None =>
        match data r with
        | VBuffer b =>
            match ed with
            | Typed => ret (r_data b)
            | Plain => ret r_null
            end
        | _ => ret r_null
        end
    end.

(** [write(data, overwrite = false)] *)
Definition write (this : nat) (data : string + list Byte.byte)
    (overwrite : bool) : M world bool :=
  let buffer := to_buffer data in
  let* _ :=
    (if negb overwrite then
       let* f := file this in
       if negb (truthy f)
       then throw (plain_error "Write target already exists (overwrite disabled)")
       else ret tt
     else ret tt) in
  let* _ :=
    (if strict_test ed then
       let* f := folder this in
       if truthy f then throw (plain_error "Cannot write on folder") else ret tt
     else ret tt) in
  let* func := getBoundMethod this m_readFile in
  let* r := attempt VNull (func (WithBuffer buffer)) in
  match error r with
  | Some e => if strict_test ed then throw e else ret false
  | None => ret true
  end.

(** [append(data, mustExist = false)] *)
Definition append (this : nat) (data : string + list Byte.byte)
    (mustExist : bool) : M world bool :=
  let buffer := to_buffer data in
  let* _ :=
    (if mustExist then
       let* f := file this in
       if negb (truthy f)
       then throw (plain_error "Append file target does not exist")
       else ret tt
     else ret tt) in
  let* _ :=
    (if strict_test ed then
       let* f := folder this in
       if truthy f then throw (plain_error "Cannot write on non-file") else ret tt
     else ret tt) in
  let* func := getBoundMethod this m_readFile in
  let* r := attempt VNull (func (WithBuffer buffer)) in
  match error r with
  | Some e => if strict_test ed then throw e else ret false
  | None => ret true
  end.

(** [overwrite(data)]: the typed edition asks whether the target exists,
    the plain one whether it is a file. *)
Definition overwrite (this : nat) (data : string + list Byte.byte)
    : M world bool :=
  let* present :=
    (match ed with
     | Typed => exists_ this
     | Plain => let* f := file this in ret (truthy f)
     end) in
  if present then write this data true
  else throw (plain_error "Rewrite target does not exist").

Definition nested (this : nat) (sufix : string) : M world hit :=
  let* n := self this in
  fromCacheM (_path n +:+ "/" +:+ sufix).

(** [inside(name)]: [None] stands for [null]. *)
Definition inside (this : nat) (name : string) : M world (option hit) :=
  let* t := type this in
  match t with
  | t_file =>
      if strict_test ed
      then throw (plain_error "Cannot target child inside existing file")
      else ret None
  | _ =>
      let* n := self this in
      let* h := fromCacheM (_path n +:+ "/" +:+ name) in
      ret (Some h)
  end.

(** [asyncFs(...args)] *)
Definition asyncFs (args : list Js.value) : M world hit :=
  fun w =>
    let r := parseAsyncFsArgs (os_cwd (sys w)) args in
    match parsed_problems r with
    | _ :: _ =>
        if is_forgiving then fromCacheM (parsed_path r) w
        else (Throw (plain_error "Invalid arguments"), w)
    | [] => fromCacheM (parsed_path r) w
    end.

End Edition.

End AsyncFsObj.

(** ** TTLCache: [cacheOrGenerate] *)

Module Ttl.

(** What an entry holds: the value generated, or the error caught. *)
Inductive payload (A : Type) : Type :=
| p_value (a : A)
| p_error (e : Error).
Arguments p_value {A} _.
Arguments p_error {A} _.

(** [{ data, time }]; [time] is [None] when the property is not a number. *)
Record CacheEntry (A : Type) := {
  data : payload A;
  time : option Js.number
}.
Arguments data {A} _.
Arguments time {A} _.

(** The first argument of [cacheOrGenerate]: a falsy value ([undefined],
    [null]), an [Error] object, or an entry. *)
Inductive cachedObj (A : Type) : Type :=
| c_absent
| c_error (e : Error)
| c_entry (e : CacheEntry A).
Arguments c_absent {A}.
Arguments c_error {A} _.
Arguments c_entry {A} _.

(** How a call of [generate] ends: with a value, with a promise, or by
    throwing. *)
Inductive generated (A : Type) : Type :=
| g_value (a : A)
| g_promise
| g_throw (e : Error).
Arguments g_value {A} _.
Arguments g_promise {A}.
Arguments g_throw {A} _.

Definition falsy_number (n : Js.number) : bool :=
  match n with
  | Js.NaN => true
  | Js.Num z => Z.eqb z 0
  end.

(** The third argument of [cacheOrGenerate]: left out or [undefined], a
    number, or any other value. *)
Inductive age_arg : Type :=
| age_omitted
| age_number (n : Js.number)
| age_other.

(** The default parameter [maxCacheAge = 100] takes the place of an
    argument that is left out or [undefined], and of no other; [None] is a
    value that is not a number. *)
Definition defaulted (a : age_arg) : option Js.number :=
  match a with
  | age_omitted => Some (Js.Num 100)
  | age_number n => Some n
  | age_other => None
  end.

(** [typeof maxCacheAge !== "number" || isNaN(maxCacheAge) ||
     maxCacheAge < 0]; [None] is a value that is not a number. *)
Definition bad_age (maxCacheAge : option Js.number) : bool :=
  match maxCacheAge with
  | None => true
  | Some Js.NaN => true
  | Some (Js.Num m) => m <? 0
  end.

Section CacheOrGenerate.
Context {S A : Type}.

(** The [try { generate() } catch] block, stamped with [now]. *)
Definition regenerate (now : Z) (generate : S → generated A * S) (s : S)
    : CacheEntry A * S :=
  let '(g, s') := generate s in
  ({| data :=
        match g with
        | g_value a => p_value a
        | g_promise => p_error (plain_error "Unmplemented generate response")
        | g_throw e => p_error e
        end;
      time := Some (Js.Num now) |}, s').

(** [now] is the value of [new Date().getTime()]. *)
Definition cacheOrGenerate (now : Z) (cached : cachedObj A)
    (generate : S → generated A * S) (maxCacheAge : age_arg)
    (s : S) : CacheEntry A * S :=
  let maxCacheAge := defaulted maxCacheAge in
  let cachedTime :=
    match cached with
    | c_entry e => match time e with Some t => t | None => Js.Num 0 end
    | _ => Js.Num 0
    end in
  match cached with
  | c_absent | c_error _ => regenerate now generate s
  | c_entry e =>
      if falsy_number cachedTime || bad_age maxCacheAge
      then regenerate now generate s
      else
        match cachedTime, maxCacheAge with
        | Js.Num t, Some (Js.Num m) =>
            let expires := t + m in
            if now <? expires
            then ({| data := data e; time := Some cachedTime |}, s)
            else regenerate now generate s
        | _, _ => regenerate now generate s
        end
  end.

End CacheOrGenerate.

End Ttl.

(** ** The synchronous variant *)

Record FsObj := {
  path : string;
  hidden_stat : option (Ttl.CacheEntry Stats);
  hidden_data : option (Ttl.CacheEntry (list Byte.byte));
  hidden_children : option (Ttl.CacheEntry (list hit))
}.

(** [clock] is what [new Date().getTime()] reads. *)
Record sworld := {
  s_sys : os;
  clock : Z;
  objs : list FsObj;
  cache : gmap string nat
}.

(** The result of [writeToFsObj]. *)
Record Written := { size : Js.number; buffer : list Byte.byte }.

Module SyncFs.

Import Ttl.

Definition set_sys (w : sworld) (o : os) : sworld :=
  {| s_sys := o; clock := clock w; objs := objs w; cache := cache w |}.

Definition set_objs (w : sworld) (l : list FsObj) : sworld :=
  {| s_sys := s_sys w; clock := clock w; objs := l; cache := cache w |}.

(** A synchronous system call: a failure is thrown. *)
Definition sys_call {A : Type} (f : os → (A + Error) * os) : M sworld A :=
  fun w =>
    match f (s_sys w) with
    | (inl a, o) => (Return a, set_sys w o)
    | (inr e, o) => (Throw e, set_sys w o)
    end.

(** A system call made inside a generator. *)
Definition generating {A : Type} (f : os → (A + Error) * os) (w : sworld)
    : generated A * sworld :=
  match f (s_sys w) with
  | (inl a, o) => (g_value a, set_sys w o)
  | (inr e, o) => (g_throw e, set_sys w o)
  end.

Definition as_cached {A : Type} (e : option (CacheEntry A)) : cachedObj A :=
  match e with
  | Some e => c_entry e
  | None => c_absent
  end.

(** [fsPath(...args)] for string arguments. *)
Definition fsPath (args : list string) : string :=
  let p := Str.remove_char "?"
             (Str.collapse_slashes
                (Str.replace_char "\" "/"
                   (Str.join "/" (map Str.trim args)))) in
  let p := if Str.endsWith p "/"
           then Str.substring_to (String.length p - 1) p else p in
  if bool_decide (p ∈ ["."; "./"; "./."]) then "."
  else
    let p := if Str.startsWith p "//" then Str.substring_from 1 p else p in
    if Str.startsWith p "./" then Str.substring_from 2 p else p.

(** The checks of [createFsObj(p)] and the object it builds, all of its
    cached attributes unset. *)
Definition createFsObj (p : string) : FsObj + Error :=
  if Str.is_empty p then inr (plain_error "Invalid parameter")
  else if Str.includes p "/undefined" || Str.includes p "/null"
          || Str.includes p "/NaN" || Str.includes p "undefined/"
          || Str.includes p "null/" || Str.includes p "NaN/"
  then inr (plain_error "Detected malformed path")
  else
    let obj := {| path := fsPath [p]; hidden_stat := None;
                  hidden_data := None; hidden_children := None |} in
    if Str.is_empty (path obj) then inr (plain_error "Invalid fs object result")
    else inl obj.

Definition quote : string := String (ascii_of_nat 34) EmptyString.

(** [fromFs(...args)] for string arguments (a call shaped as a [map]
    callback has a number in second place). *)
Definition fromFs (args : list string) : M sworld hit :=
  let p := fsPath args in
  if Str.is_empty p || Str.is_empty (Str.trim p) || Str.includes p quote
     || Str.includes p "<" || Str.includes p ">" || Str.includes p "*"
  then throw (plain_error "Invalid path")
  else fun w =>
    match cache w !! p with
    | Some l => (Return (Node l), w)
    | None =>
        if inherited p then (Return (Inherited p), w)
        else
          match createFsObj p with
          | inr e => (Throw e, w)
          | inl obj =>
              (Return (Node (length (objs w))),
               {| s_sys := s_sys w; clock := clock w;
                  objs := objs w ++ [obj];
                  cache := <[p := length (objs w)]> (cache w) |})
          end
    end.

Definition self (this : nat) : M sworld FsObj :=
  fun w =>
    match objs w !! this with
    | Some n => (Return n, w)
    | None => (Throw (plain_error "dangling reference"), w)
    end.

Definition update (this : nat) (f : FsObj → FsObj) : M sworld unit :=
  let* n := self this in
  fun w => (Return tt, set_objs w (<[this := f n]> (objs w))).

Definition set_hidden_stat (v : option (CacheEntry Stats)) (n : FsObj) : FsObj :=
  {| path := path n; hidden_stat := v; hidden_data := hidden_data n;
     hidden_children := hidden_children n |}.

Definition set_hidden_data (v : option (CacheEntry (list Byte.byte)))
    (n : FsObj) : FsObj :=
  {| path := path n; hidden_stat := hidden_stat n; hidden_data := v;
     hidden_children := hidden_children n |}.

Definition set_hidden_children (v : option (CacheEntry (list hit)))
    (n : FsObj) : FsObj :=
  {| path := path n; hidden_stat := hidden_stat n;
     hidden_data := hidden_data n; hidden_children := v |}.

(** [_hidden = {}] *)
Definition reset_hidden (n : FsObj) : FsObj :=
  {| path := path n; hidden_stat := None; hidden_data := None;
     hidden_children := None |}.

Definition is_enoent (e : Error) : bool :=
  match err_code e with
  | Some c => String.eqb c "ENOENT"
  | None => false
  end.

Definition type_error {A : Type} : M sworld A :=
  throw (plain_error "TypeError").

(** [getCachedStat(maxAge)]: [None] is [null]; otherwise the stats or the
    error held by the entry. *)
Definition getCachedStat (this : nat) (maxAge : Z)
    : M sworld (option (payload Stats)) :=
  let* n := self this in
  let* entry :=
    (fun w =>
       let '(entry, w') :=
         cacheOrGenerate (clock w) (as_cached (hidden_stat n))
           (generating (Os.stat (path n))) (age_number (Js.Num maxAge)) w in
       (Return entry, w')) in
  match data entry with
  | p_error e =>
      if is_enoent e then ret None
      else
        let* _ := update this (set_hidden_stat (Some entry)) in
        ret (Some (p_error e))
  | p_value s =>
      let* _ := update this (set_hidden_stat (Some entry)) in
      ret (Some (p_value s))
  end.

(** The [type] getter. *)
Definition type (this : nat) : M sworld ftype :=
  let* s := getCachedStat this 100 in
  ret (match s with
       | Some (p_value s) => if isFile s then t_file else t_folder
       | _ => t_unknown
       end).

(** The [size] getter: [None] is [undefined]. *)
Definition size_of (this : nat) : M sworld (option Z) :=
  let* s := getCachedStat this 100 in
  match s with
  | None => type_error
  | Some (p_value s) => ret (Some (st_size s))
  | Some (p_error _) => ret None
  end.

(** The [stat] getter. *)
Definition stat (this : nat) : M sworld (option (payload Stats)) :=
  getCachedStat this 33.

(** The [parent] getter. *)
Definition parent (this : nat) : M sworld hit :=
  let* n := self this in
  let l := Str.split "/" (path n) in
  let joined := Str.join "/" (take (length l - 1) l) in
  fromFs [if Str.is_empty joined then "/" else joined].

(** [h.type] on the result of a lookup: [None] is [undefined]. *)
Definition type_of (h : hit) : M sworld (option ftype) :=
  match h with
  | Node l => let* t := type l in ret (Some t)
  | Inherited _ => ret None
  end.

Definition on_node {A : Type} (h : hit) (k : nat → M sworld A) : M sworld A :=
  match h with
  | Node l => k l
  | Inherited _ => type_error
  end.

(** [fs.mkdirSync(h.path)] *)
Definition mkdirSync_at (h : hit) : M sworld unit :=
  match h with
  | Node l => let* n := self l in sys_call (Os.mkdir (path n))
  | Inherited _ => type_error
  end.

Definition parent_type (this : nat) : M sworld (option ftype) :=
  let* p := parent this in type_of p.

Definition grandparent (this : nat) : M sworld hit :=
  let* p := parent this in on_node p parent.

Definition add_size (a : option Z) (n : nat) : Js.number :=
  match a with
  | Some z => Js.Num (z + Z.of_nat n)
  | None => Js.NaN
  end.

(** What [value] is turned into before it is written. A string goes
    through [Buffer.from(value)] (ASCII text). A buffer is an object that
    is no array, no [Error] and no [Date]: it goes the way of the literal
    values, through [Buffer.from(JSON.stringify(value))]. *)
Definition written_value (value : string + list Byte.byte) : list Byte.byte :=
  match value with
  | inl s => list_byte_of_string s
  | inr b => list_byte_of_string (Js.stringify_buffer b)
  end.

(** [writeToFsObj(obj, isAppend, value, overwrite)] for a string or a
    buffer as [value]. *)
Definition writeToFsObj (this : nat) (isAppend : bool)
    (value : string + list Byte.byte) (overwrite : bool) : M sworld Written :=
  let value := written_value value in
  let* _ := type this in
  let* pt := parent_type this in
  let* _ :=
    (match pt with
     | Some t_unknown =>
         let* gp := grandparent this in
         let* gpt := type_of gp in
         let* _ :=
           (match gpt with
            | Some t_unknown =>
                let* gp := grandparent this in mkdirSync_at gp
            | _ => ret tt
            end) in
         let* pt := parent_type this in
         match pt with
         | Some t_unknown => let* gp := grandparent this in mkdirSync_at gp
         | _ => ret tt
         end
     | _ =>
         let* pt := parent_type this in
         match pt with
         | Some t_folder => ret tt
         | _ => throw (plain_error "Invalid file parent type")
         end
     end) in
  let* t := type this in
  let* refused :=
    (match t with
     | t_file =>
         let* sz := size_of this in
         ret (match sz with
              | Some z => (0 <? z) && negb overwrite && negb isAppend
              | None => false
              end)
     | _ => ret false
     end) in
  if refused
  then throw (plain_error "Write target already exists (overwrite disabled)")
  else
    let* n := self this in
    let* _ :=
      (if isAppend then sys_call (Os.appendFile (path n) value)
       else sys_call (Os.writeFile (path n) value)) in
    let* base := (if isAppend then size_of this else ret (Some 0)) in
    ret {| size := add_size base (length value); buffer := value |}.

(** [r?.size] as a condition. *)
Definition has_size (r : Written) : bool := negb (falsy_number (size r)).

(** [s && s.isDirectory()]: an error object has no such method. *)
Definition check_isDirectory (s : option (payload Stats)) : M sworld bool :=
  match s with
  | None => ret false
  | Some (p_value s) => ret (isDirectory s)
  | Some (p_error _) => type_error
  end.

Definition writeFunc (this : nat) (value : string + list Byte.byte)
    (overwrite : bool) : M sworld Written :=
  let* s := getCachedStat this 100 in
  let* _ := check_isDirectory s in
  let* _ := update this (set_hidden_data None) in
  let* r := writeToFsObj this false value overwrite in
  let* _ :=
    (if has_size r then
       let* _ := update this (set_hidden_data None) in
       update this (set_hidden_stat None)
     else ret tt) in
  ret r.

Definition appendFunc (this : nat) (value : string + list Byte.byte)
    (overwrite : bool) : M sworld Written :=
  let* s := getCachedStat this 100 in
  let* r := writeToFsObj this true value overwrite in
  let* _ :=
    (if has_size r then
       let* _ := update this (set_hidden_data None) in
       update this (set_hidden_stat None)
     else ret tt) in
  ret r.

(** [readFunc()]: [None] is [null]; otherwise the buffer or the error held
    by the entry. *)
Definition readFunc (this : nat) : M sworld (option (payload (list Byte.byte))) :=
  let* s := stat this in
  let* dir := check_isDirectory s in
  match s with
  | Some (p_value _) =>
      if dir then throw (plain_error "Invalid fs object target to read method")
      else
        let* n := self this in
        let* entry :=
          (fun w =>
             let '(entry, w') :=
               cacheOrGenerate (clock w) (as_cached (hidden_data n))
                 (generating (Os.readFile (path n))) age_omitted w in
             (Return entry, w')) in
        match data entry with
        | p_error e =>
            if is_enoent e then ret None
            else
              let* _ := update this (set_hidden_data (Some entry)) in
              ret (Some (p_error e))
        | p_value b =>
            let* _ := update this (set_hidden_data (Some entry)) in
            ret (Some (p_value b))
        end
  | _ => throw (plain_error "Invalid fs object target to read method")
  end.

(** [rawPerformList(path, true)]: the names, or the error as a value. *)
Definition rawPerformList (p : string) : M sworld (list string + Error) :=
  fun w =>
    let '(r, o) := Os.readdir p (s_sys w) in (Return r, set_sys w o).

(** A computation used as a generator: what it throws is caught. *)
Definition generating_m {A : Type} (m : M sworld A) (w : sworld)
    : generated A * sworld :=
  match m w with
  | (Return a, w') => (g_value a, w')
  | (Throw e, w') => (g_throw e, w')
  end.

(** The [children] getter: the list of nodes, or the error held by the
    entry. *)
Definition children (this : nat) : M sworld (payload (list hit)) :=
  let* s := stat this in
  match s with
  | Some (p_value s) =>
      if negb (isDirectory s)
      then throw (plain_error "Cannot read children of file")
      else
        let* n := self this in
        let* entry :=
          (fun w =>
             let '(entry, w') :=
               cacheOrGenerate (clock w) (as_cached (hidden_children n))
                 (generating_m
                    (let* r := rawPerformList (path n) in
                     match r with
                     | inl names => mapM (fun p => fromFs [path n; p]) names
                     | inr _ => throw (plain_error "Invalid list result")
                     end))
                 (age_number (Js.Num 100)) w in
             (Return entry, w')) in
        match data entry with
        | p_error e =>
            if is_enoent e then ret (p_value [])
            else
              let* _ := update this (set_hidden_children (Some entry)) in
              ret (p_error e)
        | p_value l =>
            let* _ := update this (set_hidden_children (Some entry)) in
            ret (p_value l)
        end
  | _ => throw (plain_error "Invalid fs object stat type to children method")
  end.

(** [throw new Error(`Create method called on node of type ${obj.type}`)] *)
Definition refuse_create {A : Type} (this : nat) : M sworld A :=
  let* _ := type this in
  throw (plain_error "Create method called on node").

(** [obj.create()] *)
Definition createFunc (this : nat) : M sworld hit :=
  let* t := type this in
  match t with
  | t_folder => ret (Node this)
  | _ =>
      let* t := type this in
      let* n := self this in
      match t with
      | t_unknown =>
          if Str.is_empty (path n) then refuse_create this
          else
            let* _ := sys_call (Os.mkdir (path n)) in
            let* _ := update this reset_hidden in
            ret (Node this)
      | _ => refuse_create this
      end
  end.

(** [obj.mkdir(name)] *)
Definition mkdirFunc (this : nat) (name : string) : M sworld hit :=
  if Str.is_empty name || Str.includes name "/" || Str.includes name "<"
  then throw (plain_error "Mkdir method does receive 1 string argument")
  else
    let* t := type this in
    let* n := self this in
    match t with
    | t_folder =>
        if Str.is_empty (path n) then refuse_create this
        else
          let* _ := sys_call (Os.mkdir (path n +:+ "/" +:+ name)) in
          let* _ := update this (set_hidden_children None) in
          fromFs [path n; name]
    | _ => refuse_create this
    end.

(** The [name] getter: [obj.path.split("/").pop()]. *)
Definition name (n : FsObj) : string :=
  default EmptyString (last (Str.split "/" (path n))).

(** The [extension] getter: [None] is [undefined]. *)
Definition extension (n : FsObj) : option string :=
  last ((fun a => "." +:+ Str.toLowerCase a)
          <$> drop 1 (Str.split "." (name n))).

(** The [ext] getter: [(obj.extension || "").replace(".", "")]. *)
Definition ext (n : FsObj) : string :=
  Str.remove_first "." (default EmptyString (extension n)).


End SyncFs.


(** * Vocabulary of the properties *)

(** ** Relations kept by computations *)

Section Preservation.
Context {S : Type} (R : S → S → Prop).

(** A computation keeps [R] when every run relates the state it starts
    from to the state it ends in, whether it returns or throws. *)
Definition preserves {A : Type} (m : M S A) : Prop := ∀ s, R s (snd (m s)).

End Preservation.

(** ** When the TTL cache generates *)

(** When [cacheOrGenerate] has to call the generator, in words of the
    arguments: the previous entry is missing, is an [Error] object instead
    of an entry, carries no usable time stamp (none, [NaN] or zero), the
    maximal age is given and is no number, is [NaN] or negative, or the
    entry has reached its age, which is 100 when none is given. What the
    entry holds plays no part. *)
Definition must_generate {A : Type} (now : Z) (cached : Ttl.cachedObj A)
    (maxCacheAge : Ttl.age_arg) : bool :=
  let reached (e : Ttl.CacheEntry A) (age : Z) :=
    match Ttl.time e with
    | Some (Js.Num stamp) => (stamp =? 0) || (age <? 0) || (age <=? now - stamp)
    | _ => true
    end in
  match cached, maxCacheAge with
  | Ttl.c_entry e, Ttl.age_number (Js.Num age) => reached e age
  | Ttl.c_entry e, Ttl.age_omitted => reached e 100
  | _, _ => true
  end.

(** What a call of the generator is wrapped into. *)
Definition wrapped {A : Type} (now : Z) (g : Ttl.generated A) : Ttl.CacheEntry A :=
  {| Ttl.data :=
       match g with
       | Ttl.g_value a => Ttl.p_value a
       | Ttl.g_promise => Ttl.p_error (plain_error "Unmplemented generate response")
       | Ttl.g_throw e => Ttl.p_error e
       end;
     Ttl.time := Some (Js.Num now) |}.

(** ** The object cache of the asynchronous variant *)

(** The record and the heap agree: a path is recorded for the one node
    that was built for it. *)
Definition cache_consistent (w : world) : Prop :=
  (∀ p l, instanceCacheRecord w !! p = Some l →
          ∃ n, heap w !! l = Some n ∧ _path n = p) ∧
  (∀ l n, heap w !! l = Some n → instanceCacheRecord w !! _path n = Some l).

(** Nothing recorded is ever dropped or replaced. *)
Definition record_kept (w w' : world) : Prop :=
  ∀ p l, instanceCacheRecord w !! p = Some l →
         instanceCacheRecord w' !! p = Some l.

Definition cache_grows (w w' : world) : Prop :=
  cache_consistent w → cache_consistent w' ∧ record_kept w w'.

(** The file system is left as it was. *)
Definition files_kept (w w' : world) : Prop :=
  os_files (sys w') = os_files (sys w).

(** A system call that reads. *)
Definition reads_only {A : Type} (f : os → (A + Error) * os) : Prop :=
  ∀ o, os_files (snd (f o)) = os_files o.


(** What a process may do with the nodes once it holds them. *)
Inductive call : Type :=
| call_asyncFs (args : list Js.value)
| call_fromCache (p : string)
| call_stat (this : nat)
| call_type (this : nat)
| call_exists (this : nat)
| call_parent (this : nat)
| call_mkdir (this : nat) (name : option string)
| call_siblings (this : nat)
| call_children (this : nat)
| call_files (this : nat)
| call_folders (this : nat)
| call_data (this : nat)
| call_write (this : nat) (data : string + list Byte.byte) (overwrite : bool)
| call_append (this : nat) (data : string + list Byte.byte) (mustExist : bool)
| call_overwrite (this : nat) (data : string + list Byte.byte)
| call_nested (this : nat) (sufix : string)
| call_inside (this : nat) (name : string)
| call_elsewhere (change : os → os).

Definition after {A : Type} (m : M world A) (w : world) : world := snd (m w).

(** The world after a call; [call_elsewhere] is a change made to the file
    system from outside. *)
Definition run_call (ed : Edition) (c : call) (w : world) : world :=
  match c with
  | call_asyncFs args => after (AsyncFsObj.asyncFs args) w
  | call_fromCache p => after (AsyncFsObj.fromCacheM p) w
  | call_stat this => after (AsyncFsObj.stat this) w
  | call_type this => after (AsyncFsObj.type this) w
  | call_exists this => after (AsyncFsObj.exists_ this) w
  | call_parent this => after (AsyncFsObj.parent this) w
  | call_mkdir this name => after (AsyncFsObj.mkdir ed this name) w
  | call_siblings this => after (AsyncFsObj.siblings ed this) w
  | call_children this => after (AsyncFsObj.children ed this None) w
  | call_files this => after (AsyncFsObj.files ed this) w
  | call_folders this => after (AsyncFsObj.folders ed this) w
  | call_data this => after (AsyncFsObj.data ed this) w
  | call_write this data overwrite =>
      after (AsyncFsObj.write ed this data overwrite) w
  | call_append this data mustExist =>
      after (AsyncFsObj.append ed this data mustExist) w
  | call_overwrite this data => after (AsyncFsObj.overwrite ed this data) w
  | call_nested this sufix => after (AsyncFsObj.nested this sufix) w
  | call_inside this name => after (AsyncFsObj.inside ed this name) w
  | call_elsewhere change => AsyncFsObj.set_sys w (change (sys w))
  end.

Definition run_calls (ed : Edition) (calls : list call) (w : world) : world :=
  foldl (fun w c => run_call ed c w) w calls.

(** ** What the operations of the synchronous variant leave in place *)

(** The working directory stays, and no fault appears where none was
    scheduled. *)
Definition os_settled (o o' : os) : Prop :=
  os_cwd o' = os_cwd o ∧ (os_faults o = [] → os_faults o' = []).

(** The clock stands still, every node stays at its address with its path,
    its cached data and its cached children. *)
Definition hidden_kept (w w' : sworld) : Prop :=
  os_settled (s_sys w) (s_sys w') ∧
  clock w' = clock w ∧
  ∀ l n, objs w !! l = Some n →
    ∃ n', objs w' !! l = Some n' ∧ path n' = path n ∧
          hidden_data n' = hidden_data n ∧
          hidden_children n' = hidden_children n.

(** ** The kind of an entry *)

(** The kind the asynchronous [type()] reports, read off the entry. *)
Definition kind_of_entry (e : option fsentry) : ftype :=
  match e with
  | Some (EFile _) => t_file
  | Some EDir => t_folder
  | Some EOther | None => t_unknown
  end.

(** The next system call is not made to fail with one of the two codes
    after which the asynchronous variant tries again. *)
Definition no_transient_fault (o : os) : Prop :=
  match os_faults o with
  | Some c :: _ => c ≠ "ENOENT" ∧ c ≠ "EBUSY"
  | _ => True
  end.

(** The kind both variants report when the next system call is not made to
    fail with a transient code: [unknown] under a fault, and otherwise the
    kind of the entry. *)
Definition kind_seen (o : os) (p : string) : ftype :=
  match os_faults o with
  | Some _ :: _ => t_unknown
  | _ => kind_of_entry (Os.entry o (Os.key o p))
  end.

(** A path without dot segments, which the system and [path.resolve] read
    alike. *)
Definition dot_free (p : string) : bool :=
  forallb (fun s => negb (String.eqb s "." || String.eqb s ".."))
    (Str.split "/" p).

(** ** Worlds to run the operations in *)

Definition example_files : gmap string fsentry :=
  list_to_map
    [("/home", EDir); ("/home/user", EDir);
     ("/home/user/notes.txt", EFile (list_byte_of_string "old"));
     ("/home/user/docs", EDir);
     ("/home/user/docs/notes.txt", EFile (list_byte_of_string "old"));
     ("/tmp", EDir); ("/tmp/d", EDir); ("/tmp/d/a", EFile [])].

Definition example_os : os :=
  {| os_cwd := "/home/user"; os_files := example_files; os_faults := [] |}.

(** A process that has not looked up any node yet. *)
Definition fresh_world (o : os) : world :=
  {| sys := o; heap := []; instanceCacheRecord := ∅ |}.

Definition fresh_sworld (o : os) (now : Z) : sworld :=
  {| s_sys := o; clock := now; objs := []; cache := ∅ |}.

(** [asyncFs(name).write("new", overwrite)] in a fresh process. *)
Definition write_to (ed : Edition) (name : string) (overwrite : bool)
    : outcome bool :=
  fst ((let* f := AsyncFsObj.asyncFs [Js.Str name] in
        AsyncFsObj.on_node f
          (fun this => AsyncFsObj.write ed this (inl "new") overwrite))
         (fresh_world example_os)).

(** [asyncFs(dir).children()] in a fresh process. *)
Definition children_of (ed : Edition) (dir : string)
    : outcome (list hit) * world :=
  (let* d := AsyncFsObj.asyncFs [Js.Str dir] in
   AsyncFsObj.on_node d (fun this => AsyncFsObj.children ed this None))
    (fresh_world example_os).

(** The kind of [asyncFs(name)] and whether the node is found among the
    children of its parent. *)
Definition listed_by_parent (ed : Edition) (name : string)
    : outcome (ftype * bool) :=
  fst ((let* f := AsyncFsObj.asyncFs [Js.Str name] in
        AsyncFsObj.on_node f
          (fun this =>
             let* p := AsyncFsObj.parent this in
             let* list :=
               AsyncFsObj.on_node p
                 (fun l => AsyncFsObj.children ed l None) in
             let* t := AsyncFsObj.type this in
             ret (t, bool_decide (Node this ∈ list))))
         (fresh_world example_os)).

(** [asyncFs(name).siblings()] in a fresh process. *)
Definition siblings_of (ed : Edition) (name : string) : outcome (list hit) :=
  fst ((let* f := AsyncFsObj.asyncFs [Js.Str name] in
        AsyncFsObj.on_node f (AsyncFsObj.siblings ed))
         (fresh_world example_os)).

(** A node of each variant bound to the path [p], nothing cached. *)
Definition sync_node_at (o : os) (now : Z) (p : string) : sworld :=
  {| s_sys := o; clock := now;
     objs := [{| path := p; hidden_stat := None; hidden_data := None;
                 hidden_children := None |}];
     cache := {[ p := 0%nat ]} |}.

Definition async_node_at (o : os) (p : string) : world :=
  {| sys := o; heap := [AsyncFsObj.constructor p];
     instanceCacheRecord := {[ p := 0%nat ]} |}.

(** [fromFs(name).write(value, overwrite)] in a fresh process at time
    [1000]. *)
Definition sync_write (name : string) (value : string) (overwrite : bool)
    : outcome Written * sworld :=
  (let* f := SyncFs.fromFs [name] in
   SyncFs.on_node f (fun this => SyncFs.writeFunc this (inl value) overwrite))
    (fresh_sworld example_os 1000).




(** ** Counting the waits of the retrying operation *)

(** A wait that is counted, and an action that leaves the count alone. *)
Definition waited {W : Type} (pause : W → W) (cw : nat * W) : nat * W :=
  (S (fst cw), pause (snd cw)).

Definition unwatched {W A : Type} (func : W → A * W) (cw : nat * W)
    : A * (nat * W) :=
  let '(r, w') := func (snd cw) in (r, (fst cw, w')).

(** ** Segments of a path *)

Definition contains_char (c : ascii) (s : string) : bool :=
  Str.includes s (String c EmptyString).

(** A segment that names an entry: not empty, neither of the dot
    segments, and free of separators. *)
Definition proper_segment (s : string) : Prop :=
  s ≠ EmptyString ∧ s ≠ "." ∧ s ≠ ".." ∧
  Str.includes s "/" = false ∧ Str.includes s "\" = false.

(** An argument the resolver cannot take a path from: a boolean, or an
    object none of whose path keys holds a non-empty string. *)
Definition unusable (v : Js.value) : Prop :=
  (∃ b, v = Js.Bool b) ∨
  (∃ addr props, v = Js.Obj addr props ∧ find_path_key props path_keys = None).

(** ** What the nodes of the asynchronous variant keep *)

(** Every node stays at its address with its path; a parent it has
    memoized and a stat it holds are not dropped. *)
Definition node_kept (w w' : world) : Prop :=
  ∀ l n, heap w !! l = Some n →
    ∃ n', heap w' !! l = Some n' ∧ _path n' = _path n ∧
          (∀ p, _parent n = Some p → _parent n' = Some p) ∧
          (is_Some (cachedStat n) → is_Some (cachedStat n')).

(** The members of [fs.promises] that only read. *)
Definition reading (m : method) : Prop :=
  m = m_stat ∨ m = m_readdir ∨ m = m_readFile.

(** ** The synchronous variant over time *)

(** The world at a later time, the file system having become [o]. *)
Definition later (δ : Z) (o : os) (w : sworld) : sworld :=
  {| s_sys := o; clock := clock w + δ; objs := objs w; cache := cache w |}.

(** What [getCachedStat] stores and hands back: anything but an [ENOENT]
    error. *)
Definition storable {A : Type} (d : Ttl.payload A) : Prop :=
  match d with
  | Ttl.p_error e => SyncFs.is_enoent e = false
  | Ttl.p_value _ => True
  end.

(** A relation kept by the steps the reads of the synchronous variant are
    made of. *)
Record sync_keeps (R : sworld → sworld → Prop) : Prop := {
  sk_refl : ∀ w, R w w;
  sk_trans : ∀ a b c, R a b → R b c → R a c;
  sk_getCachedStat :
    ∀ this maxAge, preserves R (SyncFs.getCachedStat this maxAge);
  sk_fromFs : ∀ args, preserves R (SyncFs.fromFs args);
  sk_mkdir : ∀ p, preserves R (SyncFs.sys_call (Os.mkdir p))
}.

(** The file system is left as it was, synchronous variant. *)
Definition sync_files_kept (w w' : sworld) : Prop :=
  os_files (s_sys w') = os_files (s_sys w).

(** ** The object cache of the synchronous variant *)

(** Every node stays at its address with its path, and nothing recorded in
    the cache is dropped or replaced. *)
Definition sync_grows (w w' : sworld) : Prop :=
  (∀ l n, objs w !! l = Some n →
          ∃ n', objs w' !! l = Some n' ∧ path n' = path n) ∧
  (∀ p l, cache w !! p = Some l → cache w' !! p = Some l).

(** What a process may do with the nodes of the synchronous variant;
    [do_wait] lets time pass, [do_elsewhere] is a change made to the file
    system from outside. *)
Inductive sync_call : Type :=
| do_fromFs (args : list string)
| do_stat (this : nat)
| do_type (this : nat)
| do_size (this : nat)
| do_parent (this : nat)
| do_read (this : nat)
| do_children (this : nat)
| do_write (this : nat) (value : string + list Byte.byte) (overwrite : bool)
| do_append (this : nat) (value : string + list Byte.byte) (overwrite : bool)
| do_create (this : nat)
| do_mkdir (this : nat) (name : string)
| do_wait (δ : Z)
| do_elsewhere (change : os → os).

Definition run_sync_call (c : sync_call) (w : sworld) : sworld :=
  match c with
  | do_fromFs args => snd (SyncFs.fromFs args w)
  | do_stat this => snd (SyncFs.stat this w)
  | do_type this => snd (SyncFs.type this w)
  | do_size this => snd (SyncFs.size_of this w)
  | do_parent this => snd (SyncFs.parent this w)
  | do_read this => snd (SyncFs.readFunc this w)
  | do_children this => snd (SyncFs.children this w)
  | do_write this value overwrite =>
      snd (SyncFs.writeFunc this value overwrite w)
  | do_append this value overwrite =>
      snd (SyncFs.appendFunc this value overwrite w)
  | do_create this => snd (SyncFs.createFunc this w)
  | do_mkdir this name => snd (SyncFs.mkdirFunc this name w)
  | do_wait δ => later δ (s_sys w) w
  | do_elsewhere change => SyncFs.set_sys w (change (s_sys w))
  end.

Definition run_sync_calls (calls : list sync_call) (w : sworld) : sworld :=
  foldl (fun w c => run_sync_call c w) w calls.

(** ** A target that stays what it is *)

(** No fault is scheduled, the working directory is [cwd], the file system
    holds the entry [e] at the absolute path of [p], and the node [this] is
    bound to [p]. *)
Definition target_is (this : nat) (p cwd : string) (e : fsentry)
    (w : sworld) : Prop :=
  os_faults (s_sys w) = [] ∧ os_cwd (s_sys w) = cwd ∧
  Os.entry (s_sys w) (NodePath.resolve cwd p) = Some e ∧
  ∃ n, objs w !! this = Some n ∧ path n = p.

(** The stat the node [this] holds, if it holds one, is the stat of the
    entry [e]. *)
Definition stat_agrees (this : nat) (e : fsentry) (w : sworld) : Prop :=
  ∀ n entry, objs w !! this = Some n → hidden_stat n = Some entry →
    Ttl.data entry = Ttl.p_value (Os.stats_of e).

Definition target_settled (this : nat) (p cwd : string) (e : fsentry)
    (w : sworld) : Prop :=
  target_is this p cwd e w ∧ stat_agrees this e w.

(** A property of the state that a step does not undo. *)
Definition keeps_state {S : Type} (P : S → Prop) (s s' : S) : Prop :=
  P s → P s'.

(** * Properties *)

(** ** PathResolver *)

Lemma weights_app (xs ys : list Js.value) :
  Js.weights (xs ++ ys) = (Js.weights xs + Js.weights ys)%nat.
Proof.
  unfold Js.weights. rewrite map_app. induction (map Js.weight xs) as [|x l IH];
    simpl; [reflexivity | rewrite IH; lia].
Qed.

Lemma weight_pos (v : Js.value) : (1 ≤ Js.weight v)%nat.
Proof. destruct v; simpl; lia. Qed.

(** The loop of the resolver ends: a unit of fuel per constructor of the
    pending arguments is enough. *)
Lemma parse_loop_terminates (fuel i : nat) (pending : list Js.value)
    (parts : list string) (problems : list Problem) :
  (Js.weights pending ≤ fuel)%nat →
  is_Some (parse_loop fuel i pending parts problems).
Proof.
  revert i pending parts problems.
  induction fuel as [|fuel IH]; intros i pending parts problems Hfuel.
  - destruct pending as [|a rest]; [by eexists |].
    pose proof (weight_pos a). unfold Js.weights in Hfuel. simpl in Hfuel. lia.
  - destruct pending as [|a rest]; [by eexists |].
    assert (Hrest : (Js.weights rest ≤ fuel)%nat).
    { pose proof (weight_pos a). unfold Js.weights in *. simpl in Hfuel. lia. }
    destruct a as [| |b|n|s|addr items|addr props]; cbn [parse_loop];
      try (apply IH; exact Hrest).
    + destruct (_ && _); apply IH; exact Hrest.
    + apply IH. rewrite weights_app. unfold Js.weights in *. simpl in Hfuel.
      fold (Js.weights items). unfold Js.weights. lia.
    + destruct (if Nat.eqb (length props) 0 then None
                else find_path_key props path_keys); apply IH; exact Hrest.
Qed.

(** The resolver's result is the one its loop computes. *)
Lemma parseAsyncFsArgs_loop (cwd : string) (args : list Js.value) :
  ∃ parts problems,
    parse_loop (Js.weights (relevant_args args)) 0 (relevant_args args) [] []
      = Some (parts, problems) ∧
    parseAsyncFsArgs cwd args =
      {| parsed_path := canonical cwd (clean_joined parts);
         parsed_parts := parts;
         parsed_problems := problems |}.
Proof.
  destruct (parse_loop_terminates (Js.weights (relevant_args args)) 0
              (relevant_args args) [] []) as [[parts problems] Hloop]; [lia |].
  exists parts, problems. split; [exact Hloop |].
  unfold parseAsyncFsArgs. rewrite Hloop. reflexivity.
Qed.

Lemma prefix_length (a b : string) :
  String.prefix a b = true → (String.length a ≤ String.length b)%nat.
Proof.
  revert b. induction a as [|c a IH]; intros b H; simpl; [lia |].
  destruct b as [|d b]; simpl in *; [discriminate |].
  destruct (ascii_dec c d); [| discriminate]. apply IH in H. lia.
Qed.

Lemma length_append (a b : string) :
  String.length (a +:+ b) = (String.length a + String.length b)%nat.
Proof. induction a as [|c a IH]; simpl; [reflexivity | by rewrite IH]. Qed.

Lemma substring_from_all (n : nat) (s : string) :
  (String.length s ≤ n)%nat → Str.substring_from n s = EmptyString.
Proof.
  revert n. induction s as [|c s IH]; intros n H.
  - by destruct n.
  - destruct n; simpl in *; [lia | apply IH; lia].
Qed.

(** Whenever the resolver re-expresses a path, what it gives is the bare
    dot: the slice it keeps starts past the end of the resolved path. *)
Lemma canonical_cases (cwd joined : string) :
  canonical cwd joined = "." ∨
  canonical cwd joined = Str.replace_char "\" "/" (NodePath.resolve cwd joined).
Proof.
  unfold canonical.
  destruct (Str.startsWith _ _) eqn:Hpre; [left | by right].
  apply prefix_length in Hpre. rewrite length_append in Hpre. simpl in Hpre.
  rewrite substring_from_all; [reflexivity | lia].
Qed.

(** C5. With the working directory [/home/user], the argument [src]
    resolves to a path under the working directory and is left absolute
    (the working-directory-relative form would be [./src]), while [/home],
    which the working directory lies under, is re-expressed as the bare
    dot: the prefix test of the resolver runs from the working directory to
    the path and not from the path to the working directory. *)
Theorem parseAsyncFsArgs_prefix_test_reversed :
  parsed_path (parseAsyncFsArgs "/home/user" [Js.Str "src"]) = "/home/user/src" ∧
  Str.startsWith "/home/user/src" "/home/user/" = true ∧
  parsed_path (parseAsyncFsArgs "/home/user" [Js.Str "/home"]) = "." ∧
  Str.startsWith "/home" "/home/user/" = false.
Proof.
  split; [vm_compute; reflexivity |].
  split; [vm_compute; reflexivity |].
  split; vm_compute; reflexivity.
Qed.

(** C6. With the working directory [/home/user], the argument [/home]
    resolves to the bare dot, and the bare dot fed back as the only
    argument resolves to [/home/user]: the second pass does not give the
    first pass's string. *)
Theorem parseAsyncFsArgs_second_pass_differs :
  parsed_path (parseAsyncFsArgs "/home/user" [Js.Str "/home"]) = "." ∧
  parsed_path (parseAsyncFsArgs "/home/user" [Js.Str "."]) = "/home/user".
Proof. split; vm_compute; reflexivity. Qed.

(** ** RetryingOperation *)

Lemma is_transient_codes (e : Error) :
  is_transient e =
    bool_decide (err_code e = Some "ENOENT" ∨ err_code e = Some "EBUSY").
Proof.
  unfold is_transient. destruct (err_code e) as [c|].
  - destruct (String.eqb_spec c "ENOENT") as [->|Hn].
    { symmetry. apply bool_decide_eq_true. by left. }
    destruct (String.eqb_spec c "EBUSY") as [->|Hb].
    { symmetry. apply bool_decide_eq_true. by right. }
    symmetry. apply bool_decide_eq_false. intros [H|H]; congruence.
  - symmetry. apply bool_decide_eq_false. intros [H|H]; congruence.
Qed.

(** C4, as stated, fails: an action that throws [undefined] makes the
    operation itself raise, the [TypeError] of reading [err.code], where
    the claim has it return the fallback and the error. *)
Lemma attemptFileOperation_raises_on_undefined :
  attemptFileOperation (lift_pause (fun w : unit => w)) 7%nat
    (counted (fun w : unit => (inr thrown_undefined, w))) (0%nat, tt) =
  (inr no_code, (1%nat, tt)).
Proof. reflexivity. Qed.

(** C4, amended. Whatever the fallback and the action, the retrying
    operation invokes the action once or twice.  A first success gives
    [{data: result}] after one invocation.  A first throw of a value whose
    code is neither [ENOENT] nor [EBUSY] gives the fallback with that value
    as the error after one invocation.  A first throw of a value whose code
    is [ENOENT] or [EBUSY] leads to a second invocation, whose success gives
    [{data: result}] and whose throw gives the fallback with the last value
    as the error.  The operation raises in one case only: when the action
    throws [undefined] or [null], the [TypeError] of reading their [code]
    leaves it. *)
Theorem attemptFileOperation_retry_policy {W A : Type} (pause : W → W)
    (fallback : A) (func : W → (A + Thrown) * W) (w : W) :
  let run :=
    attemptFileOperation (lift_pause pause) fallback (counted func) (0%nat, w) in
  let result := fst run in
  let invocations := fst (snd run) in
  let transient (e : Error) :=
    bool_decide (err_code e = Some "ENOENT" ∨ err_code e = Some "EBUSY") in
  (1 ≤ invocations ≤ 2)%nat ∧
  match func w with
  | (inl v, _) =>
      invocations = 1%nat ∧ result = inl {| data := v; error := None |}
  | (inr (thrown e1), w1) =>
      if transient e1 then
        invocations = 2%nat ∧
        match func (pause w1) with
        | (inl v, _) => result = inl {| data := v; error := None |}
        | (inr (thrown e2), _) =>
            result = inl {| data := fallback; error := Some e2 |}
        | (inr _, _) => result = inr no_code
        end
      else
        invocations = 1%nat ∧
        result = inl {| data := fallback; error := Some e1 |}
  | (inr _, _) => invocations = 1%nat ∧ result = inr no_code
  end.
Proof.
  unfold attemptFileOperation, counted, lift_pause. cbv zeta.
  cbn [attempt_loop fst snd].
  destruct (func w) as [[v|[| |e1]] w1]; cbn [fst snd];
    try (repeat split; lia).
  rewrite <- is_transient_codes.
  destruct (is_transient e1); cbn [fst snd]; [| repeat split; lia].
  destruct (func (pause w1)) as [[v|[| |e2]] w2]; cbn [fst snd];
    try (repeat split; lia).
  destruct (is_transient e2); cbn [fst snd]; repeat split; lia.
Qed.

(** ** TTLCache *)




(** A maximal age that is left out counts as 100: an entry stamped 1000 is
    served at 1050 and generated again at 1100; a maximal age of [null] or
    of any other value that is no number generates at once. *)
Example cacheOrGenerate_default_age :
  let previous : Ttl.cachedObj nat :=
    Ttl.c_entry {| Ttl.data := Ttl.p_value 7%nat;
                   Ttl.time := Some (Js.Num 1000) |} in
  let generate := counted (fun s : unit => (Ttl.g_value 8%nat, s)) in
  Ttl.cacheOrGenerate 1050 previous generate Ttl.age_omitted (0%nat, tt) =
    ({| Ttl.data := Ttl.p_value 7%nat; Ttl.time := Some (Js.Num 1000) |},
     (0%nat, tt)) ∧
  Ttl.cacheOrGenerate 1100 previous generate Ttl.age_omitted (0%nat, tt) =
    ({| Ttl.data := Ttl.p_value 8%nat; Ttl.time := Some (Js.Num 1100) |},
     (1%nat, tt)) ∧
  Ttl.cacheOrGenerate 1050 previous generate Ttl.age_other (0%nat, tt) =
    ({| Ttl.data := Ttl.p_value 8%nat; Ttl.time := Some (Js.Num 1050) |},
     (1%nat, tt)).
Proof. by repeat split. Qed.

(** ** Relations kept by computations *)

Section PreservationFacts.
Context {S : Type} (R : S → S → Prop).
Hypothesis R_refl : ∀ s, R s s.
Hypothesis R_trans : ∀ a b c, R a b → R b c → R a c.

Lemma preserves_ret {A : Type} (a : A) : preserves R (ret a).
Proof. intros s. apply R_refl. Qed.

Lemma preserves_throw {A : Type} (e : Error) : preserves R (@throw S A e).
Proof. intros s. apply R_refl. Qed.

Lemma preserves_bind {A B : Type} (m : M S A) (k : A → M S B) :
  preserves R m → (∀ a, preserves R (k a)) → preserves R (bind m k).
Proof.
  intros Hm Hk s. unfold bind. specialize (Hm s).
  destruct (m s) as [[a|e] s1]; simpl in *; [| exact Hm].
  eapply R_trans; [exact Hm | apply Hk].
Qed.

Lemma preserves_mapM {A B : Type} (f : A → M S B) (l : list A) :
  (∀ a, preserves R (f a)) → preserves R (mapM f l).
Proof.
  intros Hf. induction l as [|x l IH]; simpl.
  - apply preserves_ret.
  - apply preserves_bind; [apply Hf | intros y].
    apply preserves_bind; [exact IH | intros ys]. apply preserves_ret.
Qed.

Lemma preserves_filterM {A : Type} (f : A → M S bool) (l : list A) :
  (∀ a, preserves R (f a)) → preserves R (filterM f l).
Proof.
  intros Hf. induction l as [|x l IH]; simpl.
  - apply preserves_ret.
  - apply preserves_bind; [apply Hf | intros y].
    apply preserves_bind; [exact IH | intros ys]. apply preserves_ret.
Qed.

Lemma preserves_bind_assoc {A B C : Type} (m : M S A) (f : A → M S B)
    (k : B → M S C) :
  preserves R (bind m (fun a => bind (f a) k)) → preserves R (bind (bind m f) k).
Proof.
  intros H s. specialize (H s). unfold bind in *.
  destruct (m s) as [[a|e] s1]; exact H.
Qed.

Lemma preserves_bind_ret {A B : Type} (a : A) (k : A → M S B) :
  preserves R (k a) → preserves R (bind (ret a) k).
Proof. intros H s. apply H. Qed.

End PreservationFacts.

(** One step of a proof that a computation keeps a relation: the monad's
    own structure, then the case analysis the computation makes. *)
Ltac keep_step refl trans :=
  first
    [ apply (preserves_ret _ refl)
    | apply (preserves_throw _ refl)
    | apply (preserves_bind _ trans); [| intros ?]
    | apply (preserves_mapM _ refl trans); intros ?
    | apply (preserves_filterM _ refl trans); intros ?
    | match goal with
      | |- preserves _ (match ?x with _ => _ end) => destruct x
      end ].

(** ** The asynchronous variant leaves the files alone when it writes *)

Lemma files_kept_refl (w : world) : files_kept w w.
Proof. reflexivity. Qed.

Lemma files_kept_trans (a b c : world) :
  files_kept a b → files_kept b c → files_kept a c.
Proof. unfold files_kept. congruence. Qed.

Lemma syscall_reads_only {A : Type} (body : os → (A + Error) * os) :
  (∀ o, snd (body o) = o) → reads_only (Os.syscall body).
Proof.
  intros Hbody o. unfold Os.syscall.
  destruct (os_faults o) as [|[c|] rest]; simpl; [by rewrite Hbody | done |].
  by rewrite Hbody.
Qed.

Lemma stat_reads_only (p : string) : reads_only (Os.stat p).
Proof.
  apply syscall_reads_only. intros o. by destruct (Os.entry o (Os.key o p)).
Qed.

Lemma readFile_reads_only (p : string) : reads_only (Os.readFile p).
Proof.
  apply syscall_reads_only. intros o.
  by destruct (Os.entry o (Os.key o p)) as [[| |]|].
Qed.

Lemma readdir_reads_only (p : string) : reads_only (Os.readdir p).
Proof.
  apply syscall_reads_only. intros o.
  by destruct (Os.entry o (Os.key o p)) as [[| |]|].
Qed.

Lemma as_val_reads_only {A : Type} (f : A → osval) (g : os → (A + Error) * os) :
  reads_only g → reads_only (fun o => as_val f (g o)).
Proof.
  intros Hg o. specialize (Hg o). unfold as_val.
  by destruct (g o) as [[a|e] o'].
Qed.

(** The bound [stat], [readdir] and [readFile] read, whatever follows the
    path in the call. *)
Lemma fs_promises_reads_only (m : method) (p : string) (args : extra) :
  m = m_stat ∨ m = m_readdir ∨ m = m_readFile →
  reads_only (fs_promises m p args).
Proof.
  intros [-> | [-> | ->]]; unfold fs_promises.
  - apply (as_val_reads_only VStats), stat_reads_only.
  - apply (as_val_reads_only VNames), readdir_reads_only.
  - apply (as_val_reads_only VBuffer), readFile_reads_only.
Qed.

Lemma attempt_loop_reads_only {A : Type} (n : nat) (fallback : A)
    (err : option Error) (func : os → (A + Error) * os) (o : os) :
  reads_only func →
  os_files (snd (attempt_loop (fun o => o) n fallback err (rejecting func) o))
    = os_files o.
Proof.
  intros Hf. revert err o. induction n as [|n IH]; intros err o; [done |].
  cbn [attempt_loop]. unfold rejecting at 1.
  pose proof (Hf o) as Ho. destruct (func o) as [[v|e] o1]; simpl in *; [done |].
  destruct (is_transient e); simpl; [| done]. by rewrite IH.
Qed.

(** An action that throws [Error] objects only never makes the operation
    raise. *)
Lemma attempt_loop_rejecting {W A : Type} (pause : W → W) (n : nat)
    (fallback : A) (err : option Error) (func : W → (A + Error) * W) (w : W) :
  ∃ r, fst (attempt_loop pause n fallback err (rejecting func) w) = inl r.
Proof.
  revert err w. induction n as [|n IH]; intros err w; [by eexists |].
  cbn [attempt_loop]. unfold rejecting at 1.
  destruct (func w) as [[v|e] w1]; [by eexists |].
  destruct (is_transient e); [apply IH | by eexists].
Qed.

Lemma attempt_run (fallback : osval) (func : os → (osval + Error) * os)
    (w : world) :
  ∃ r o,
    attemptFileOperation (fun o => o) fallback (rejecting func) (sys w)
      = (inl r, o) ∧
    AsyncFsObj.attempt fallback func w = (Return r, AsyncFsObj.set_sys w o).
Proof.
  destruct (attempt_loop_rejecting (fun o => o) 2 fallback None func (sys w))
    as [r Hr].
  unfold AsyncFsObj.attempt, attemptFileOperation in *.
  destruct (attempt_loop _ 2 fallback None _ (sys w)) as [r' o].
  cbn [fst] in Hr. subst r'. by exists r, o.
Qed.

Lemma attempt_files_kept (fallback : osval) (func : os → (osval + Error) * os) :
  reads_only func → preserves files_kept (AsyncFsObj.attempt fallback func).
Proof.
  intros Hf w. unfold files_kept.
  pose proof (attempt_loop_reads_only 2 fallback None func (sys w) Hf) as H.
  destruct (attempt_run fallback func w) as (r & o & Ho & ->).
  unfold attemptFileOperation in Ho. rewrite Ho in H. exact H.
Qed.

Lemma self_files_kept (this : nat) : preserves files_kept (AsyncFsObj.self this).
Proof. intros w. unfold AsyncFsObj.self. by destruct (heap w !! this). Qed.

Lemma set_cachedStat_files_kept (this : nat) (s : Stats) :
  preserves files_kept (AsyncFsObj.set_cachedStat this s).
Proof.
  intros w. unfold AsyncFsObj.set_cachedStat, bind, AsyncFsObj.self.
  by destruct (heap w !! this).
Qed.

Ltac files_kept_step :=
  first
    [ apply self_files_kept
    | apply set_cachedStat_files_kept
    | keep_step files_kept_refl files_kept_trans ].

(** Binding a method keeps the files, and so does an attempt at a method
    that only reads. *)
Lemma bound_attempt_files_kept {A : Type} (this : nat) (m : method)
    (fallback : osval) (args : extra) (k : Attempt osval → M world A) :
  m = m_stat ∨ m = m_readdir ∨ m = m_readFile →
  (∀ r, preserves files_kept (k r)) →
  preserves files_kept
    (let* func := AsyncFsObj.getBoundMethod this m in
     let* r := AsyncFsObj.attempt fallback (func args) in k r).
Proof.
  intros Hm Hk. unfold AsyncFsObj.getBoundMethod.
  apply preserves_bind_assoc.
  files_kept_step; [apply self_files_kept |].
  apply preserves_bind_ret.
  files_kept_step; [| apply Hk].
  apply attempt_files_kept, fs_promises_reads_only, Hm.
Qed.

Lemma stat_files_kept (this : nat) : preserves files_kept (AsyncFsObj.stat this).
Proof.
  unfold AsyncFsObj.stat. apply bound_attempt_files_kept; [by left |].
  intros r. repeat files_kept_step.
Qed.

Lemma type_files_kept (this : nat) : preserves files_kept (AsyncFsObj.type this).
Proof.
  unfold AsyncFsObj.type. files_kept_step; [apply stat_files_kept |].
  files_kept_step.
Qed.

Lemma file_files_kept (this : nat) : preserves files_kept (AsyncFsObj.file this).
Proof.
  unfold AsyncFsObj.file. files_kept_step; [apply type_files_kept |].
  files_kept_step.
Qed.

Lemma folder_files_kept (this : nat) : preserves files_kept (AsyncFsObj.folder this).
Proof.
  unfold AsyncFsObj.folder. files_kept_step; [apply type_files_kept |].
  files_kept_step.
Qed.

Lemma write_files_kept (ed : Edition) (this : nat)
    (data : string + list Byte.byte) (overwrite : bool) :
  preserves files_kept (AsyncFsObj.write ed this data overwrite).
Proof.
  unfold AsyncFsObj.write.
  files_kept_step.
  { destruct (negb overwrite); [| files_kept_step].
    files_kept_step; [apply file_files_kept |]. repeat files_kept_step. }
  files_kept_step.
  { destruct (strict_test ed); [| files_kept_step].
    files_kept_step; [apply folder_files_kept |]. repeat files_kept_step. }
  apply bound_attempt_files_kept; [by right; right |].
  intros r. repeat files_kept_step.
Qed.

Lemma append_files_kept (ed : Edition) (this : nat)
    (data : string + list Byte.byte) (mustExist : bool) :
  preserves files_kept (AsyncFsObj.append ed this data mustExist).
Proof.
  unfold AsyncFsObj.append.
  files_kept_step.
  { destruct mustExist; [| files_kept_step].
    files_kept_step; [apply file_files_kept |]. repeat files_kept_step. }
  files_kept_step.
  { destruct (strict_test ed); [| files_kept_step].
    files_kept_step; [apply folder_files_kept |]. repeat files_kept_step. }
  apply bound_attempt_files_kept; [by right; right |].
  intros r. repeat files_kept_step.
Qed.

(** C10. In both editions of the asynchronous handler, [write] and
    [append] bind [fs.promises.readFile]; whatever the node, the data and
    the flag, and whether the call returns [true], returns [false] or
    throws, every file holds after the call what it held before it. *)
Theorem async_write_append_leave_files (ed : Edition) (this : nat)
    (data : string + list Byte.byte) (flag : bool) (w : world) :
  os_files (sys (snd (AsyncFsObj.write ed this data flag w))) = os_files (sys w) ∧
  os_files (sys (snd (AsyncFsObj.append ed this data flag w))) = os_files (sys w).
Proof.
  split; [apply write_files_kept | apply append_files_kept].
Qed.

(** ** ObjectCache *)

Lemma cache_grows_refl (w : world) : cache_grows w w.
Proof. intros H. split; [exact H | by intros p l Hp]. Qed.

Lemma cache_grows_trans (a b c : world) :
  cache_grows a b → cache_grows b c → cache_grows a c.
Proof.
  intros Hab Hbc Ha. destruct (Hab Ha) as [Hb Hkab].
  destruct (Hbc Hb) as [Hc Hkbc]. split; [exact Hc |].
  intros p l Hp. apply Hkbc, Hkab, Hp.
Qed.

(** A world with the same heap and record. *)
Lemma cache_grows_same (w w' : world) :
  heap w' = heap w → instanceCacheRecord w' = instanceCacheRecord w →
  cache_grows w w'.
Proof.
  intros Hh Hr [H1 H2]. unfold cache_consistent, record_kept.
  rewrite Hh, Hr. by repeat split.
Qed.

(** A node replaced by one with the same path. *)
Lemma cache_grows_update (w : world) (this : nat) (n n' : AsyncFsObj) :
  heap w !! this = Some n → _path n' = _path n →
  cache_grows w (AsyncFsObj.set_heap w (<[this := n']> (heap w))).
Proof.
  intros Hthis Hpath [H1 H2]. split; [split |]; simpl.
  - intros p l Hp. destruct (H1 p l Hp) as [m [Hm Hmp]].
    destruct (decide (l = this)) as [-> | Hne].
    + exists n'. split.
      * apply list_lookup_insert_eq. by eapply lookup_lt_Some.
      * rewrite Hpath. congruence.
    + exists m. by rewrite list_lookup_insert_ne.
  - intros l m Hl. destruct (decide (l = this)) as [-> | Hne].
    + rewrite list_lookup_insert_eq in Hl by (by eapply lookup_lt_Some).
      injection Hl as <-. rewrite Hpath. by apply H2.
    + rewrite list_lookup_insert_ne in Hl by done. by apply H2.
  - by intros p l Hp.
Qed.

Lemma fromCache_grows (p : string) (w : world) :
  cache_grows w (snd (AsyncFsObj.fromCache p w)).
Proof.
  unfold AsyncFsObj.fromCache.
  destruct (instanceCacheRecord w !! p) as [l0|] eqn:Hrec;
    [apply cache_grows_refl |].
  destruct (inherited p); [apply cache_grows_refl |].
  intros [H1 H2]. split; [split |]; simpl.
  - intros q l Hq. destruct (decide (p = q)) as [<- | Hne].
    + rewrite lookup_insert_eq in Hq. injection Hq as <-.
      exists (AsyncFsObj.constructor p). split; [| reflexivity].
      by rewrite lookup_app_r, Nat.sub_diag.
    + rewrite lookup_insert_ne in Hq by done.
      destruct (H1 q l Hq) as [n [Hn Hp]]. exists n. split; [| exact Hp].
      by apply lookup_app_l_Some.
  - intros l n Hl. apply lookup_app_Some in Hl as [Hl | [Hge Hl]].
    + pose proof (H2 l n Hl) as Hn.
      destruct (decide (p = _path n)) as [-> | Hne]; [congruence |].
      by rewrite lookup_insert_ne.
    + destruct (l - length (heap w))%nat as [|k] eqn:Hk; [| by destruct k].
      injection Hl as <-. simpl. rewrite lookup_insert_eq. f_equal. lia.
  - intros q l Hq. destruct (decide (p = q)) as [<- | Hne]; [congruence |].
    simpl. by rewrite lookup_insert_ne.
Qed.

Lemma fromCacheM_grows (p : string) : preserves cache_grows (AsyncFsObj.fromCacheM p).
Proof.
  intros w. unfold AsyncFsObj.fromCacheM.
  pose proof (fromCache_grows p w) as H.
  by destruct (AsyncFsObj.fromCache p w).
Qed.

Lemma self_grows (this : nat) : preserves cache_grows (AsyncFsObj.self this).
Proof.
  intros w. unfold AsyncFsObj.self.
  destruct (heap w !! this); apply cache_grows_refl.
Qed.

Lemma set_cachedStat_grows (this : nat) (s : Stats) :
  preserves cache_grows (AsyncFsObj.set_cachedStat this s).
Proof.
  intros w. unfold AsyncFsObj.set_cachedStat, bind, AsyncFsObj.self.
  destruct (heap w !! this) as [n|] eqn:Hn; simpl; [| apply cache_grows_refl].
  by eapply cache_grows_update.
Qed.

Lemma set_parent_grows (this : nat) (p : hit) :
  preserves cache_grows (AsyncFsObj.set_parent this p).
Proof.
  intros w. unfold AsyncFsObj.set_parent, bind, AsyncFsObj.self.
  destruct (heap w !! this) as [n|] eqn:Hn; simpl; [| apply cache_grows_refl].
  by eapply cache_grows_update.
Qed.

Lemma attempt_grows (fallback : osval) (func : os → (osval + Error) * os) :
  preserves cache_grows (AsyncFsObj.attempt fallback func).
Proof.
  intros w. destruct (attempt_run fallback func w) as (r & o & _ & ->).
  by apply cache_grows_same.
Qed.

Lemma getBoundMethod_grows (this : nat) (m : method) :
  preserves cache_grows (AsyncFsObj.getBoundMethod this m).
Proof.
  unfold AsyncFsObj.getBoundMethod.
  apply (preserves_bind _ cache_grows_trans); [apply self_grows | intros n].
  apply (preserves_ret _ cache_grows_refl).
Qed.

Ltac grows_step :=
  first
    [ apply self_grows
    | apply set_cachedStat_grows
    | apply set_parent_grows
    | apply attempt_grows
    | apply getBoundMethod_grows
    | apply fromCacheM_grows
    | keep_step cache_grows_refl cache_grows_trans
    | match goal with
      | |- preserves _ (AsyncFsObj.on_node ?h _) => destruct h; simpl
      | |- preserves cache_grows (fun w => AsyncFsObj.fromCacheM _ w) =>
          let w := fresh "w" in intros w; apply (fromCacheM_grows _ w)
      end ].

Lemma stat_grows (this : nat) : preserves cache_grows (AsyncFsObj.stat this).
Proof. unfold AsyncFsObj.stat. repeat grows_step. Qed.

Lemma type_grows (this : nat) : preserves cache_grows (AsyncFsObj.type this).
Proof.
  unfold AsyncFsObj.type. grows_step; [apply stat_grows |]. grows_step.
Qed.

Lemma file_grows (this : nat) : preserves cache_grows (AsyncFsObj.file this).
Proof.
  unfold AsyncFsObj.file. grows_step; [apply type_grows |]. grows_step.
Qed.

Lemma folder_grows (this : nat) : preserves cache_grows (AsyncFsObj.folder this).
Proof.
  unfold AsyncFsObj.folder. grows_step; [apply type_grows |]. grows_step.
Qed.

Lemma exists_grows (this : nat) : preserves cache_grows (AsyncFsObj.exists_ this).
Proof.
  unfold AsyncFsObj.exists_. grows_step; [apply stat_grows |]. grows_step.
Qed.

Ltac grows :=
  repeat first
    [ apply stat_grows | apply type_grows | apply file_grows
    | apply folder_grows | apply exists_grows | grows_step ].

Lemma parent_grows (this : nat) : preserves cache_grows (AsyncFsObj.parent this).
Proof. unfold AsyncFsObj.parent. grows. Qed.

Lemma mkdir_self_grows (ed : Edition) (this : nat) :
  preserves cache_grows (AsyncFsObj.mkdir_self ed this).
Proof. unfold AsyncFsObj.mkdir_self. grows. Qed.

Lemma mkdir_grows (ed : Edition) (this : nat) (name : option string) :
  preserves cache_grows (AsyncFsObj.mkdir ed this name).
Proof.
  unfold AsyncFsObj.mkdir. grows; apply mkdir_self_grows.
Qed.

Lemma children_grows (ed : Edition) (this : nat)
    (filter : option (hit → M world bool)) :
  (∀ f h, filter = Some f → preserves cache_grows (f h)) →
  preserves cache_grows (AsyncFsObj.children ed this filter).
Proof.
  intros Hfilter. unfold AsyncFsObj.children. grows. by eapply Hfilter.
Qed.

Lemma files_grows (ed : Edition) (this : nat) :
  preserves cache_grows (AsyncFsObj.files ed this).
Proof.
  unfold AsyncFsObj.files. apply children_grows.
  intros f h [= <-]. grows.
Qed.

Lemma folders_grows (ed : Edition) (this : nat) :
  preserves cache_grows (AsyncFsObj.folders ed this).
Proof.
  unfold AsyncFsObj.folders. apply children_grows.
  intros f h [= <-]. grows.
Qed.

Lemma siblings_grows (ed : Edition) (this : nat) :
  preserves cache_grows (AsyncFsObj.siblings ed this).
Proof.
  unfold AsyncFsObj.siblings.
  repeat first
    [ apply parent_grows
    | apply children_grows; intros ? ? [=]
    | apply type_grows
    | grows_step ].
Qed.

Lemma data_grows (ed : Edition) (this : nat) :
  preserves cache_grows (AsyncFsObj.data ed this).
Proof. unfold AsyncFsObj.data. grows. Qed.

Lemma write_grows (ed : Edition) (this : nat)
    (data : string + list Byte.byte) (overwrite : bool) :
  preserves cache_grows (AsyncFsObj.write ed this data overwrite).
Proof. unfold AsyncFsObj.write. grows. Qed.

Lemma append_grows (ed : Edition) (this : nat)
    (data : string + list Byte.byte) (mustExist : bool) :
  preserves cache_grows (AsyncFsObj.append ed this data mustExist).
Proof. unfold AsyncFsObj.append. grows. Qed.

Lemma overwrite_grows (ed : Edition) (this : nat)
    (data : string + list Byte.byte) :
  preserves cache_grows (AsyncFsObj.overwrite ed this data).
Proof. unfold AsyncFsObj.overwrite. grows; apply write_grows. Qed.

Lemma nested_grows (this : nat) (sufix : string) :
  preserves cache_grows (AsyncFsObj.nested this sufix).
Proof. unfold AsyncFsObj.nested. grows. Qed.

Lemma inside_grows (ed : Edition) (this : nat) (name : string) :
  preserves cache_grows (AsyncFsObj.inside ed this name).
Proof. unfold AsyncFsObj.inside. grows. Qed.

Lemma asyncFs_grows (args : list Js.value) :
  preserves cache_grows (AsyncFsObj.asyncFs args).
Proof.
  intros w. unfold AsyncFsObj.asyncFs.
  destruct (parsed_problems _); [apply (fromCacheM_grows _ w) |].
  destruct is_forgiving; [apply (fromCacheM_grows _ w) | apply cache_grows_refl].
Qed.

Lemma run_call_grows (ed : Edition) (c : call) (w : world) :
  cache_grows w (run_call ed c w).
Proof.
  destruct c; simpl; unfold after;
    first
      [ apply asyncFs_grows | apply fromCacheM_grows | apply stat_grows
      | apply type_grows | apply exists_grows | apply parent_grows
      | apply mkdir_grows | apply siblings_grows
      | apply files_grows | apply folders_grows
      | apply children_grows; intros ? ? [=]
      | apply data_grows
      | apply write_grows | apply append_grows | apply overwrite_grows
      | apply nested_grows | apply inside_grows
      | by apply cache_grows_same ].
Qed.

Lemma run_calls_grows (ed : Edition) (calls : list call) (w : world) :
  cache_grows w (run_calls ed calls w).
Proof.
  revert w. induction calls as [|c calls IH]; intros w; simpl.
  - apply cache_grows_refl.
  - eapply cache_grows_trans; [apply run_call_grows | apply IH].
Qed.

Lemma fresh_world_consistent (o : os) : cache_consistent (fresh_world o).
Proof.
  split.
  - intros p l H. simpl in H. by rewrite lookup_empty in H.
  - intros l n H. simpl in H. by rewrite lookup_nil in H.
Qed.

Lemma slash_first_not_inherited (s : string) : inherited (String "/" s) = false.
Proof.
  unfold inherited. apply bool_decide_eq_false. intros H.
  unfold object_prototype_keys in H.
  repeat (apply elem_of_cons in H as [H | H]; [discriminate H |]).
  by apply elem_of_nil in H.
Qed.

Lemma startsWith_slash (s : string) :
  Str.startsWith s "/" = true → ∃ r, s = String "/" r.
Proof.
  destruct s as [|a r]; [discriminate |]. unfold Str.startsWith.
  cbn [String.prefix].
  destruct (ascii_dec "/" a) as [<- |]; intros H; [by exists r | discriminate].
Qed.

(** Resolved against an absolute working directory, a path is absolute. *)
Lemma resolve_absolute (cwd p : string) :
  Str.startsWith cwd "/" = true →
  ∃ r, NodePath.resolve cwd p = String "/" r.
Proof.
  intros Habs. destruct (startsWith_slash cwd Habs) as [c ->].
  unfold NodePath.resolve.
  destruct (Str.is_empty p); [| destruct (Str.startsWith p "/")];
    cbn [Str.is_empty]; rewrite ?Habs; by eexists.
Qed.

(** A canonical path is no key of [Object.prototype]. *)
Lemma canonical_not_inherited (cwd joined : string) :
  Str.startsWith cwd "/" = true → inherited (canonical cwd joined) = false.
Proof.
  intros Habs. destruct (canonical_cases cwd joined) as [-> | ->].
  - reflexivity.
  - destruct (resolve_absolute cwd joined Habs) as [r ->].
    apply slash_first_not_inherited.
Qed.

Lemma parsed_path_not_inherited (cwd : string) (args : list Js.value) :
  Str.startsWith cwd "/" = true →
  inherited (parsed_path (parseAsyncFsArgs cwd args)) = false.
Proof.
  intros Habs. destruct (parseAsyncFsArgs_loop cwd args) as (parts & problems & _ & ->).
  by apply canonical_not_inherited.
Qed.

(** A lookup of a key that is not inherited gives a node, recorded under the
    key; it is a new node, allocated at the end of the heap, exactly when
    the key was not recorded. *)
Lemma fromCache_recorded (p : string) (w : world) :
  inherited p = false →
  ∃ l, fst (AsyncFsObj.fromCache p w) = Node l ∧
       instanceCacheRecord (snd (AsyncFsObj.fromCache p w)) !! p = Some l ∧
       (instanceCacheRecord w !! p = None →
        l = length (heap w) ∧
        heap (snd (AsyncFsObj.fromCache p w)) = heap w ++ [AsyncFsObj.constructor p]).
Proof.
  intros Hni. unfold AsyncFsObj.fromCache.
  destruct (instanceCacheRecord w !! p) as [l|] eqn:Hrec.
  - exists l. by repeat split.
  - rewrite Hni. exists (length (heap w)). simpl. rewrite lookup_insert_eq.
    by repeat split.
Qed.

Lemma fromCache_hit (p : string) (l : nat) (w : world) :
  instanceCacheRecord w !! p = Some l → AsyncFsObj.fromCache p w = (Node l, w).
Proof. intros H. unfold AsyncFsObj.fromCache. by rewrite H. Qed.

(** C1. Let [p] be a canonical path (a path the resolver gives under an
    absolute working directory). A lookup of [p] in the object cache gives a
    node whose path is [p], built and stored by this lookup when [p] was not
    recorded yet; whatever the process does afterwards (lookups, node
    operations of either edition, changes made to the file system from
    outside), a later lookup of [p] gives that same reference and changes
    nothing; and no two nodes of the heap have the same path. *)
Theorem fromCache_same_reference (ed : Edition) (cwd : string)
    (args : list Js.value) (w : world) (later : list call) :
  Str.startsWith cwd "/" = true →
  cache_consistent w →
  let p := parsed_path (parseAsyncFsArgs cwd args) in
  let first := AsyncFsObj.fromCache p w in
  let w' := run_calls ed later (snd first) in
  (∃ l n, fst first = Node l ∧ heap (snd first) !! l = Some n ∧ _path n = p ∧
          (instanceCacheRecord w !! p = None →
           l = length (heap w) ∧
           heap (snd first) = heap w ++ [AsyncFsObj.constructor p])) ∧
  AsyncFsObj.fromCache p w' = (fst first, w') ∧
  (∀ l1 l2 n1 n2,
     heap w' !! l1 = Some n1 → heap w' !! l2 = Some n2 →
     _path n1 = _path n2 → l1 = l2).
Proof.
  intros Habs Hw p first w'.
  pose proof (parsed_path_not_inherited cwd args Habs) as Hni. fold p in Hni.
  destruct (fromCache_recorded p w Hni) as (l & Hfst & Hrec & Hnew).
  fold first in Hfst, Hrec, Hnew.
  destruct (fromCache_grows p w Hw) as [Hw1 _]. fold first in Hw1.
  destruct (run_calls_grows ed later (snd first) Hw1) as [Hw' Hkept].
  fold w' in Hw', Hkept.
  split; [| split].
  - destruct Hw1 as [H1 _]. destruct (H1 p l Hrec) as (n & Hn & Hp).
    exists l, n. split; [exact Hfst |]. split; [exact Hn |].
    split; [exact Hp | exact Hnew].
  - rewrite Hfst. apply fromCache_hit, Hkept, Hrec.
  - intros l1 l2 n1 n2 Hl1 Hl2 Hpath. destruct Hw' as [_ H2].
    pose proof (H2 l1 n1 Hl1) as E1. pose proof (H2 l2 n2 Hl2) as E2.
    rewrite Hpath in E1. congruence.
Qed.

(** C1 at work: the lookup of [src] in a fresh process, followed by a
    [stat], a write and a lookup of another path. *)
Lemma fromCache_same_reference_witness :
  Str.startsWith "/home/user" "/" = true ∧
  cache_consistent (fresh_world example_os) ∧
  let p := parsed_path (parseAsyncFsArgs "/home/user" [Js.Str "src"]) in
  let first := AsyncFsObj.fromCache p (fresh_world example_os) in
  let w' :=
    run_calls Typed
      [call_stat 0; call_write 0 (inl "x") true; call_asyncFs [Js.Str "docs"]]
      (snd first) in
  (∃ l n, fst first = Node l ∧ heap (snd first) !! l = Some n ∧ _path n = p ∧
          (instanceCacheRecord (fresh_world example_os) !! p = None →
           l = length (heap (fresh_world example_os)) ∧
           heap (snd first) =
             heap (fresh_world example_os) ++ [AsyncFsObj.constructor p])) ∧
  AsyncFsObj.fromCache p w' = (fst first, w') ∧
  (∀ l1 l2 n1 n2,
     heap w' !! l1 = Some n1 → heap w' !! l2 = Some n2 →
     _path n1 = _path n2 → l1 = l2).
Proof.
  split; [reflexivity |]. split; [apply fresh_world_consistent |].
  apply (fromCache_same_reference Typed "/home/user" [Js.Str "src"]
           (fresh_world example_os)
           [call_stat 0; call_write 0 (inl "x") true;
            call_asyncFs [Js.Str "docs"]]).
  - reflexivity.
  - apply fresh_world_consistent.
Defined.

(** ** Node operations of the asynchronous variant *)

(** C3. In a fresh process, in both editions: [notes.txt] exists as a file
    and [write("new")] with overwrite disabled returns [true] instead of
    raising; [missing.txt] does not exist and the same call raises "Write
    target already exists (overwrite disabled)". The guard of [write] tests
    that the target is not a file where it means to test that it is one. *)
Theorem write_guard_inverted (ed : Edition) :
  Os.entry example_os "/home/user/notes.txt"
    = Some (EFile (list_byte_of_string "old")) ∧
  write_to ed "notes.txt" false = Return true ∧
  Os.entry example_os "/home/user/missing.txt" = None ∧
  write_to ed "missing.txt" false =
    Throw (plain_error "Write target already exists (overwrite disabled)").
Proof.
  split; [vm_compute; reflexivity |].
  split; [destruct ed; vm_compute; reflexivity |].
  split; [vm_compute; reflexivity |].
  destruct ed; vm_compute; reflexivity.
Qed.

(** C7. In a fresh process with the working directory [/home/user], the
    folder [/tmp/d] holds the one entry [a]; its [children()] is the node of
    the path [/home/user/a], not the node of [/tmp/d/a], which a lookup
    gives at another address. The file [/tmp/d/a] has a known kind and is
    not among the children of its parent; [siblings()] then returns a list
    in the typed edition and raises in the plain one. Each entry name is
    resolved against the working directory instead of the folder. *)
Theorem children_resolved_against_cwd (ed : Edition) :
  Os.names_in example_os "/tmp/d" = ["a"] ∧
  fst (children_of ed "/tmp/d") = Return [Node 1] ∧
  _path <$> (heap (snd (children_of ed "/tmp/d")) !! 1%nat) = Some "/home/user/a" ∧
  fst (AsyncFsObj.fromCache "/tmp/d/a" (snd (children_of ed "/tmp/d"))) = Node 2 ∧
  listed_by_parent ed "/tmp/d/a" = Return (t_file, false) ∧
  siblings_of ed "/tmp/d/a" =
    match ed with
    | Typed => Return [Node 2]
    | Plain =>
        Throw (plain_error "Something went wrong finding itself on parent children")
    end.
Proof.
  split; [vm_compute; reflexivity |].
  split; [destruct ed; vm_compute; reflexivity |].
  split; [destruct ed; vm_compute; reflexivity |].
  split; [destruct ed; vm_compute; reflexivity |].
  split; [destruct ed; vm_compute; reflexivity |].
  destruct ed; vm_compute; reflexivity.
Qed.

(** ** The two variants side by side *)

(** C9, as stated, fails: the two variants differ in their caching rules,
    in what they do after a transient fault and in what they raise. On the
    example file system, with nodes that hold nothing cached:
    - kind, caching: once the kind of [notes.txt] has been read and the
      file has been removed by another process, the synchronous node asked
      50 ms later still says [file], out of its cached stat; the
      asynchronous node says [unknown];
    - kind, retry: when the next system call fails with [EBUSY], the
      synchronous node of [notes.txt] says [unknown] and the asynchronous
      one, having tried again, says [file];
    - read: on the missing [missing.txt] the synchronous [read()] throws
      and the asynchronous [data()] returns [undefined];
    - children: on the file [notes.txt] the synchronous [children] throws
      and the asynchronous [children()] returns the empty list;
    - write and append: on the folder [/tmp/d] the synchronous calls throw
      the [EISDIR] of the system and the asynchronous ones return [false];
    - directory creation: on [/tmp/new/sub], whose parent is missing, the
      synchronous [create()] throws the [ENOENT] of the system and the
      asynchronous [mkdir()] creates the folder and its parent. *)
Lemma variants_differ_by_design :
  let removed :=
    Os.set_files example_os (delete "/home/user/notes.txt" example_files) in
  let busy := Os.set_faults example_os [Some "EBUSY"] in
  (fst (SyncFs.type 0 (sync_node_at example_os 1000 "notes.txt"))
     = Return t_file ∧
   fst (SyncFs.type 0
          (later 50 removed
             (snd (SyncFs.type 0 (sync_node_at example_os 1000 "notes.txt")))))
     = Return t_file ∧
   fst (AsyncFsObj.type 0 (async_node_at example_os "notes.txt"))
     = Return t_file ∧
   fst (AsyncFsObj.type 0
          (AsyncFsObj.set_sys
             (snd (AsyncFsObj.type 0 (async_node_at example_os "notes.txt")))
             removed))
     = Return t_unknown) ∧
  (fst (SyncFs.type 0 (sync_node_at busy 1000 "notes.txt")) = Return t_unknown ∧
   fst (AsyncFsObj.type 0 (async_node_at busy "notes.txt")) = Return t_file) ∧
  (fst (SyncFs.readFunc 0 (sync_node_at example_os 1000 "missing.txt"))
     = Throw (plain_error "Invalid fs object target to read method") ∧
   fst (AsyncFsObj.data Typed 0 (async_node_at example_os "missing.txt"))
     = Return r_undefined) ∧
  (fst (SyncFs.children 0 (sync_node_at example_os 1000 "notes.txt"))
     = Throw (plain_error "Cannot read children of file") ∧
   fst (AsyncFsObj.children Typed 0 None (async_node_at example_os "notes.txt"))
     = Return []) ∧
  (fst (SyncFs.writeFunc 0 (inl "x") true (sync_node_at example_os 1000 "/tmp/d"))
     = Throw (os_error "EISDIR") ∧
   fst (AsyncFsObj.write Typed 0 (inl "x") true (async_node_at example_os "/tmp/d"))
     = Return false) ∧
  (fst (SyncFs.appendFunc 0 (inl "x") false
          (sync_node_at example_os 1000 "/tmp/d"))
     = Throw (os_error "EISDIR") ∧
   fst (AsyncFsObj.append Typed 0 (inl "x") false
          (async_node_at example_os "/tmp/d"))
     = Return false) ∧
  (fst (SyncFs.createFunc 0 (sync_node_at example_os 1000 "/tmp/new/sub"))
     = Throw (os_error "ENOENT") ∧
   fst (AsyncFsObj.mkdir Typed 0 None (async_node_at example_os "/tmp/new/sub"))
     = Return (Node 0) ∧
   os_files (sys (snd (AsyncFsObj.mkdir Typed 0 None
                         (async_node_at example_os "/tmp/new/sub"))))
     !! "/tmp/new/sub" = Some EDir).
Proof.
  cbv zeta.
  repeat match goal with |- _ ∧ _ => split end; vm_compute; reflexivity.
Qed.

Lemma syscall_no_fault {A : Type} (body : os → (A + Error) * os) (o : os) :
  os_faults o = [] → Os.syscall body o = body o.
Proof. intros H. unfold Os.syscall. by rewrite H. Qed.

Lemma lookup_code_cases (o : os) (dirs : list string) :
  Os.lookup_code o dirs = "ENOENT" ∨ Os.lookup_code o dirs = "ENOTDIR".
Proof.
  induction dirs as [|d rest IH]; [by left |]. cbn [Os.lookup_code].
  destruct (Os.entry o d) as [[| |]|]; auto.
Qed.

(** A lookup that finds nothing fails with [ENOENT] or with [ENOTDIR]. *)
Lemma missing_cases (o : os) (k : string) :
  Os.missing o k = os_error "ENOENT" ∨ Os.missing o k = os_error "ENOTDIR".
Proof.
  unfold Os.missing.
  destruct (lookup_code_cases o (removelast (Os.ancestry k))) as [-> | ->]; auto.
Qed.

Lemma missing_files (o o' : os) (k : string) :
  os_files o' = os_files o → Os.missing o' k = Os.missing o k.
Proof.
  intros H. unfold Os.missing. f_equal.
  assert (He : ∀ d, Os.entry o' d = Os.entry o d)
    by (intros d; unfold Os.entry; by rewrite H).
  induction (removelast (Os.ancestry k)) as [|d rest IH]; [reflexivity |].
  cbn [Os.lookup_code]. by rewrite He, IH.
Qed.

(** Without a scheduled fault, [stat] answers from the entry at the path's
    key and changes nothing. *)
Lemma stat_no_fault (p : string) (o : os) :
  os_faults o = [] →
  Os.stat p o =
    (match Os.entry o (Os.key o p) with
     | Some e => inl (Os.stats_of e)
     | None => inr (Os.missing o (Os.key o p))
     end, o).
Proof.
  intros H. unfold Os.stat. rewrite syscall_no_fault by exact H.
  by destruct (Os.entry o (Os.key o p)).
Qed.


Lemma sync_type_no_fault (o : os) (now : Z) (p : string) :
  os_faults o = [] →
  Os.entry o (Os.key o p) ≠ Some EOther →
  fst (SyncFs.type 0 (sync_node_at o now p)) =
    Return (kind_of_entry (Os.entry o (Os.key o p))).
Proof.
  intros H Hother.
  unfold SyncFs.type, SyncFs.getCachedStat, SyncFs.self, SyncFs.update,
    SyncFs.generating, bind, ret, sync_node_at, Ttl.cacheOrGenerate,
    Ttl.regenerate.
  cbn [objs s_sys clock lookup list_lookup path hidden_stat SyncFs.as_cached].
  rewrite stat_no_fault by exact H.
  destruct (Os.entry o (Os.key o p)) as [[c| |]|]; try reflexivity.
  - by destruct Hother.
  - cbn [Ttl.data]. by destruct (SyncFs.is_enoent _).
Qed.

(** What [stat] answers: the fault scheduled for the call, or the stats of
    the entry at the path's key. *)
Lemma stat_next (p : string) (o : os) :
  Os.stat p o =
    let found :=
      match Os.entry o (Os.key o p) with
      | Some e => inl (Os.stats_of e)
      | None => inr (Os.missing o (Os.key o p))
      end in
    match os_faults o with
    | Some c :: rest => (inr (os_error c), Os.set_faults o rest)
    | None :: rest => (found, Os.set_faults o rest)
    | [] => (found, o)
    end.
Proof.
  unfold Os.stat, Os.syscall. cbv zeta.
  destruct (os_faults o) as [|[c|] rest]; [| reflexivity |].
  - by destruct (Os.entry o (Os.key o p)).
  - change (Os.entry (Os.set_faults o rest) (Os.key (Os.set_faults o rest) p))
      with (Os.entry o (Os.key o p)).
    change (Os.key (Os.set_faults o rest) p) with (Os.key o p).
    rewrite (missing_files o (Os.set_faults o rest)) by reflexivity.
    by destruct (Os.entry o (Os.key o p)).
Qed.

Lemma not_transient (c : string) :
  c ≠ "ENOENT" → c ≠ "EBUSY" →
  is_transient (os_error c) = false ∧ SyncFs.is_enoent (os_error c) = false.
Proof.
  intros Hn Hb. unfold is_transient, SyncFs.is_enoent. cbn [err_code os_error].
  destruct (String.eqb_spec c "ENOENT") as [->|_]; [done |].
  by destruct (String.eqb_spec c "EBUSY") as [->|_].
Qed.

Lemma async_type_next (o : os) (p : string) :
  no_transient_fault o →
  fst (AsyncFsObj.type 0 (async_node_at o p)) = Return (kind_seen o p).
Proof.
  unfold no_transient_fault, kind_seen. intros H.
  unfold AsyncFsObj.type, AsyncFsObj.stat, AsyncFsObj.getBoundMethod,
    AsyncFsObj.attempt, AsyncFsObj.set_cachedStat, AsyncFsObj.self,
    attemptFileOperation, bind, ret, async_node_at, fs_promises, rejecting.
  cbn [heap sys lookup list_lookup AsyncFsObj.constructor _path attempt_loop].
  rewrite stat_next. cbv zeta.
  destruct (os_faults o) as [|[c|] rest] eqn:Hf.
  - destruct (Os.entry o (Os.key o p)) as [[content| |]|] eqn:E;
      try reflexivity.
    cbn [as_val].
    destruct (is_transient (Os.missing o (Os.key o p))); [| reflexivity].
    rewrite stat_next, Hf, E. cbn [as_val].
    by destruct (is_transient (Os.missing o (Os.key o p))).
  - destruct H as [Hn Hb]. cbn [as_val].
    destruct (not_transient c Hn Hb) as [-> _]. reflexivity.
  - destruct (Os.entry o (Os.key o p)) as [[content| |]|] eqn:E;
      try reflexivity.
    cbn [as_val].
    destruct (is_transient (Os.missing o (Os.key o p))); [| reflexivity].
    rewrite stat_next. cbv zeta.
    change (Os.entry (Os.set_faults o rest) (Os.key (Os.set_faults o rest) p))
      with (Os.entry o (Os.key o p)).
    rewrite E. cbn [os_faults Os.set_faults].
    destruct rest as [|[c2|] rest2]; cbn [as_val];
      by destruct (is_transient _).
Qed.

Lemma sync_type_next (o : os) (now : Z) (p : string) :
  no_transient_fault o →
  Os.entry o (Os.key o p) ≠ Some EOther →
  fst (SyncFs.type 0 (sync_node_at o now p)) = Return (kind_seen o p).
Proof.
  unfold no_transient_fault, kind_seen. intros H Hother.
  unfold SyncFs.type, SyncFs.getCachedStat, SyncFs.self, SyncFs.update,
    SyncFs.generating, bind, ret, sync_node_at, Ttl.cacheOrGenerate,
    Ttl.regenerate.
  cbn [objs s_sys clock lookup list_lookup path hidden_stat SyncFs.as_cached].
  rewrite stat_next. cbv zeta.
  destruct (os_faults o) as [|[c|] rest] eqn:Hf.
  - destruct (Os.entry o (Os.key o p)) as [[content| |]|]; try reflexivity.
    + by destruct Hother.
    + cbn [Ttl.data]. by destruct (SyncFs.is_enoent _).
  - destruct H as [Hn Hb]. cbn [Ttl.data].
    destruct (not_transient c Hn Hb) as [_ ->]. reflexivity.
  - destruct (Os.entry o (Os.key o p)) as [[content| |]|]; try reflexivity.
    + by destruct Hother.
    + cbn [Ttl.data]. by destruct (SyncFs.is_enoent _).
Qed.

(** C9, amended. The two variants are not equivalent: they differ in their
    caching rules, in what they do after a transient fault and in what they
    raise. They agree on the kind of a node that holds nothing cached: for
    every file system whose next system call is not made to fail with
    [ENOENT] or [EBUSY], and every path whose target is a regular file, a
    directory or missing, the node of the synchronous variant and the node
    of the asynchronous variant bound to that path report the same kind. *)
Theorem sync_async_same_type (o : os) (now : Z) (p : string) :
  no_transient_fault o →
  Os.entry o (Os.key o p) ≠ Some EOther →
  fst (SyncFs.type 0 (sync_node_at o now p)) =
    fst (AsyncFsObj.type 0 (async_node_at o p)).
Proof.
  intros H Hother.
  rewrite sync_type_next by assumption.
  by rewrite async_type_next.
Qed.

(** C9, amended, at work on a file of the example file system, when the
    next system call fails with [EACCES]. *)
Lemma sync_async_same_type_witness :
  let denied := Os.set_faults example_os [Some "EACCES"] in
  no_transient_fault denied ∧
  Os.entry denied (Os.key denied "notes.txt") ≠ Some EOther ∧
  fst (SyncFs.type 0 (sync_node_at denied 1000 "notes.txt")) =
    fst (AsyncFsObj.type 0 (async_node_at denied "notes.txt")).
Proof.
  cbv zeta.
  assert (Hfault : no_transient_fault (Os.set_faults example_os [Some "EACCES"]))
    by (split; discriminate).
  assert (Hother :
    Os.entry (Os.set_faults example_os [Some "EACCES"])
      (Os.key (Os.set_faults example_os [Some "EACCES"]) "notes.txt")
      ≠ Some EOther)
    by (vm_compute; discriminate).
  split; [exact Hfault |]. split; [exact Hother |].
  exact (sync_async_same_type (Os.set_faults example_os [Some "EACCES"]) 1000
           "notes.txt" Hfault Hother).
Defined.

(** ** What the synchronous operations leave in place *)

Lemma os_settled_refl (o : os) : os_settled o o.
Proof. by split. Qed.

Lemma os_settled_trans (a b c : os) :
  os_settled a b → os_settled b c → os_settled a c.
Proof.
  intros [Hc1 Hf1] [Hc2 Hf2]. split; [congruence | auto].
Qed.

(** A system call whose own effect keeps the working directory and the
    schedule. *)
Lemma syscall_settled {A : Type} (body : os → (A + Error) * os) :
  (∀ o, os_cwd (snd (body o)) = os_cwd o ∧
        os_faults (snd (body o)) = os_faults o) →
  ∀ o, os_settled o (snd (Os.syscall body o)).
Proof.
  intros Hbody o. unfold Os.syscall.
  destruct (os_faults o) as [|[c|] rest] eqn:Hf.
  - destruct (Hbody o) as [Hc Hfa]. split; [exact Hc | congruence].
  - split; [reflexivity | intros H; congruence].
  - split; [| intros H; congruence].
    destruct (Hbody (Os.set_faults o rest)) as [Hc _]. exact Hc.
Qed.

Lemma stat_settled (p : string) (o : os) : os_settled o (snd (Os.stat p o)).
Proof.
  apply syscall_settled. intros o'. by destruct (Os.entry o' (Os.key o' p)).
Qed.

Lemma readFile_settled (p : string) (o : os) :
  os_settled o (snd (Os.readFile p o)).
Proof.
  apply syscall_settled. intros o'.
  by destruct (Os.entry o' (Os.key o' p)) as [[| |]|].
Qed.

Lemma readdir_settled (p : string) (o : os) :
  os_settled o (snd (Os.readdir p o)).
Proof.
  apply syscall_settled. intros o'.
  by destruct (Os.entry o' (Os.key o' p)) as [[| |]|].
Qed.

Lemma writeFile_settled (p : string) (v : list Byte.byte) (o : os) :
  os_settled o (snd (Os.writeFile p v o)).
Proof.
  apply syscall_settled. intros o'. cbv zeta.
  destruct (Os.entry o' (Os.key o' p)) as [[| |]|]; try done.
  by destruct (Os.parent_fault o' (Os.key o' p)).
Qed.

Lemma appendFile_settled (p : string) (v : list Byte.byte) (o : os) :
  os_settled o (snd (Os.appendFile p v o)).
Proof.
  apply syscall_settled. intros o'. cbv zeta.
  destruct (Os.entry o' (Os.key o' p)) as [[| |]|]; try done.
  by destruct (Os.parent_fault o' (Os.key o' p)).
Qed.

Lemma mkdir_settled (p : string) (o : os) : os_settled o (snd (Os.mkdir p o)).
Proof.
  apply syscall_settled. intros o'. cbv zeta.
  destruct (Os.entry o' (Os.key o' p)); try done.
  by destruct (Os.parent_fault o' (Os.key o' p)).
Qed.

Lemma hidden_kept_refl (w : sworld) : hidden_kept w w.
Proof.
  split; [apply os_settled_refl |]. split; [reflexivity |].
  intros l n H. by exists n.
Qed.

Lemma hidden_kept_trans (a b c : sworld) :
  hidden_kept a b → hidden_kept b c → hidden_kept a c.
Proof.
  intros (Ho1 & Hc1 & Hn1) (Ho2 & Hc2 & Hn2).
  split; [by eapply os_settled_trans |]. split; [congruence |].
  intros l n Hl. destruct (Hn1 l n Hl) as (n1 & Hl1 & Hp1 & Hd1 & Hk1).
  destruct (Hn2 l n1 Hl1) as (n2 & Hl2 & Hp2 & Hd2 & Hk2).
  exists n2. repeat split; congruence.
Qed.

(** A change of the system alone. *)
Lemma hidden_kept_sys (w : sworld) (o : os) :
  os_settled (s_sys w) o → hidden_kept w (SyncFs.set_sys w o).
Proof.
  intros Ho. split; [exact Ho |]. split; [reflexivity |].
  intros l n H. by exists n.
Qed.

Lemma sys_call_kept {A : Type} (f : os → (A + Error) * os) :
  (∀ o, os_settled o (snd (f o))) → preserves hidden_kept (SyncFs.sys_call f).
Proof.
  intros Hf w. unfold SyncFs.sys_call. specialize (Hf (s_sys w)).
  destruct (f (s_sys w)) as [[a|e] o]; by apply hidden_kept_sys.
Qed.

Lemma generating_kept {A : Type} (f : os → (A + Error) * os) :
  (∀ o, os_settled o (snd (f o))) →
  ∀ w, hidden_kept w (snd (SyncFs.generating f w)).
Proof.
  intros Hf w. unfold SyncFs.generating. specialize (Hf (s_sys w)).
  destruct (f (s_sys w)) as [[a|e] o]; by apply hidden_kept_sys.
Qed.

Lemma generating_m_kept {A : Type} (m : M sworld A) :
  preserves hidden_kept m → ∀ w, hidden_kept w (snd (SyncFs.generating_m m w)).
Proof.
  intros Hm w. unfold SyncFs.generating_m. specialize (Hm w).
  by destruct (m w) as [[a|e] w'].
Qed.

(** A read through the TTL cache keeps what its generator keeps. *)
Lemma cached_call_kept {A : Type} (cached : Ttl.cachedObj A)
    (generate : sworld → Ttl.generated A * sworld) (age : Ttl.age_arg) :
  (∀ w, hidden_kept w (snd (generate w))) →
  preserves hidden_kept
    (fun w =>
       let '(entry, w') :=
         Ttl.cacheOrGenerate (clock w) cached generate age w in
       (Return entry, w')).
Proof.
  intros Hg w.
  assert (Hregen : hidden_kept w (snd (Ttl.regenerate (clock w) generate w))).
  { unfold Ttl.regenerate. specialize (Hg w). by destruct (generate w). }
  destruct (Ttl.cacheOrGenerate (clock w) cached generate age w)
    as [entry w'] eqn:E.
  simpl. replace w' with (snd (Ttl.cacheOrGenerate (clock w) cached generate age w))
    by (by rewrite E).
  clear E. unfold Ttl.cacheOrGenerate.
  destruct cached as [|e|e]; try exact Hregen.
  destruct (_ || _); [exact Hregen |].
  destruct (match Ttl.time e with Some t => t | None => Js.Num 0 end);
    [exact Hregen |].
  destruct (Ttl.defaulted age) as [[|m]|]; try exact Hregen.
  destruct (_ <? _); [apply hidden_kept_refl | exact Hregen].
Qed.

Lemma self_kept (this : nat) : preserves hidden_kept (SyncFs.self this).
Proof.
  intros w. unfold SyncFs.self. destruct (objs w !! this); apply hidden_kept_refl.
Qed.

(** An update that keeps the path, the cached data and the cached
    children: an update of the cached stat. *)
Lemma update_kept (this : nat) (f : FsObj → FsObj) :
  (∀ n, path (f n) = path n ∧ hidden_data (f n) = hidden_data n ∧
        hidden_children (f n) = hidden_children n) →
  preserves hidden_kept (SyncFs.update this f).
Proof.
  intros Hf w. unfold SyncFs.update, bind, SyncFs.self.
  destruct (objs w !! this) as [n|] eqn:Hn; simpl; [| apply hidden_kept_refl].
  split; [apply os_settled_refl |]. split; [reflexivity |].
  intros l m Hl. destruct (decide (l = this)) as [-> | Hne].
  - exists (f n). cbn [objs SyncFs.set_objs].
    rewrite list_lookup_insert_eq by (by eapply lookup_lt_Some).
    assert (m = n) as -> by congruence. destruct (Hf n) as (? & ? & ?).
    by repeat split.
  - exists m. cbn [objs SyncFs.set_objs]. by rewrite list_lookup_insert_ne.
Qed.

Lemma set_hidden_stat_kept (this : nat) (v : option (Ttl.CacheEntry Stats)) :
  preserves hidden_kept (SyncFs.update this (SyncFs.set_hidden_stat v)).
Proof. apply update_kept. by intros n. Qed.

Lemma fromFs_kept (args : list string) : preserves hidden_kept (SyncFs.fromFs args).
Proof.
  intros w. unfold SyncFs.fromFs.
  destruct (_ || _); [apply hidden_kept_refl |].
  destruct (cache w !! SyncFs.fsPath args); [apply hidden_kept_refl |].
  destruct (inherited _); [apply hidden_kept_refl |].
  destruct (SyncFs.createFsObj _); [| apply hidden_kept_refl].
  split; [apply os_settled_refl |]. split; [reflexivity |].
  intros l n Hl. exists n. split; [| done]. by apply lookup_app_l_Some.
Qed.

Ltac kept_step :=
  first
    [ apply self_kept
    | apply set_hidden_stat_kept
    | apply fromFs_kept
    | apply cached_call_kept
    | apply sys_call_kept
    | apply generating_kept
    | apply stat_settled | apply readFile_settled | apply readdir_settled
    | apply writeFile_settled | apply appendFile_settled | apply mkdir_settled
    | keep_step hidden_kept_refl hidden_kept_trans
    | match goal with
      | |- preserves _ (SyncFs.on_node ?h _) => destruct h; simpl
      | |- preserves _ SyncFs.type_error => apply (preserves_throw _ hidden_kept_refl)
      end ].

Lemma getCachedStat_kept (this : nat) (maxAge : Z) :
  preserves hidden_kept (SyncFs.getCachedStat this maxAge).
Proof. unfold SyncFs.getCachedStat. repeat kept_step. Qed.

Lemma type_kept (this : nat) : preserves hidden_kept (SyncFs.type this).
Proof.
  unfold SyncFs.type. kept_step; [apply getCachedStat_kept |]. kept_step.
Qed.

Lemma size_of_kept (this : nat) : preserves hidden_kept (SyncFs.size_of this).
Proof.
  unfold SyncFs.size_of. kept_step; [apply getCachedStat_kept |].
  repeat kept_step.
Qed.

Lemma parent_kept (this : nat) : preserves hidden_kept (SyncFs.parent this).
Proof. unfold SyncFs.parent. repeat kept_step. Qed.

Lemma type_of_kept (h : hit) : preserves hidden_kept (SyncFs.type_of h).
Proof.
  unfold SyncFs.type_of. destruct h; [| kept_step].
  kept_step; [apply type_kept | kept_step].
Qed.

Lemma mkdirSync_at_kept (h : hit) : preserves hidden_kept (SyncFs.mkdirSync_at h).
Proof. unfold SyncFs.mkdirSync_at. repeat kept_step. Qed.

Lemma parent_type_kept (this : nat) :
  preserves hidden_kept (SyncFs.parent_type this).
Proof.
  unfold SyncFs.parent_type. kept_step; [apply parent_kept |].
  apply type_of_kept.
Qed.

Lemma grandparent_kept (this : nat) :
  preserves hidden_kept (SyncFs.grandparent this).
Proof.
  unfold SyncFs.grandparent. kept_step; [apply parent_kept |].
  kept_step; [apply parent_kept | kept_step].
Qed.

Ltac kept :=
  repeat first
    [ apply getCachedStat_kept | apply type_kept | apply size_of_kept
    | apply parent_kept | apply type_of_kept | apply mkdirSync_at_kept
    | apply parent_type_kept | apply grandparent_kept | kept_step ].


(** ** Running a computation step by step *)

Lemma bind_return {S A B : Type} (m : M S A) (k : A → M S B) (s s' : S) (b : B) :
  bind m k s = (Return b, s') →
  ∃ a s1, m s = (Return a, s1) ∧ k a s1 = (Return b, s').
Proof.
  unfold bind. destruct (m s) as [[a|e] s1]; intros H; [by exists a, s1 |].
  discriminate.
Qed.

Lemma preserves_run {S A : Type} (R : S → S → Prop) (m : M S A)
    (s s' : S) (r : outcome A) :
  preserves R m → m s = (r, s') → R s s'.
Proof. intros Hm E. specialize (Hm s). by rewrite E in Hm. Qed.

Lemma self_return (this : nat) (w w' : sworld) (n : FsObj) :
  SyncFs.self this w = (Return n, w') → objs w !! this = Some n ∧ w' = w.
Proof.
  unfold SyncFs.self. destruct (objs w !! this); intros H; [| discriminate].
  by injection H as -> ->.
Qed.

(** An update that returns has replaced the node by its image. *)
Lemma update_return (this : nat) (f : FsObj → FsObj) (w w' : sworld) :
  SyncFs.update this f w = (Return tt, w') →
  ∃ n, objs w !! this = Some n ∧ objs w' !! this = Some (f n) ∧
       s_sys w' = s_sys w ∧ clock w' = clock w ∧
       ∀ l, l ≠ this → objs w' !! l = objs w !! l.
Proof.
  unfold SyncFs.update. intros H.
  apply bind_return in H as (n & w1 & Hself & H).
  apply self_return in Hself as [Hn ->]. injection H as <-.
  exists n. cbn [objs s_sys clock SyncFs.set_objs]. split; [exact Hn |].
  split; [apply list_lookup_insert_eq; by eapply lookup_lt_Some |].
  split; [reflexivity |]. split; [reflexivity |].
  intros l Hne. by apply list_lookup_insert_ne.
Qed.

Lemma check_isDirectory_state (s : option (Ttl.payload Stats)) (w w' : sworld)
    (r : outcome bool) :
  SyncFs.check_isDirectory s w = (r, w') → w' = w.
Proof.
  unfold SyncFs.check_isDirectory, SyncFs.type_error, ret, throw.
  destruct s as [[s|e]|]; by intros [= _ <-].
Qed.

Lemma getCachedStat_return (this : nat) (maxAge : Z) (w w' : sworld)
    (s : option (Ttl.payload Stats)) :
  SyncFs.getCachedStat this maxAge w = (Return s, w') →
  is_Some (objs w !! this).
Proof.
  unfold SyncFs.getCachedStat. intros H.
  apply bind_return in H as (n & w1 & Hself & _).
  apply self_return in Hself as [Hn _]. by exists n.
Qed.

Lemma type_return (this : nat) (w w' : sworld) (t : ftype) :
  SyncFs.type this w = (Return t, w') → is_Some (objs w !! this).
Proof.
  unfold SyncFs.type. intros H.
  apply bind_return in H as (s & w1 & Hstat & _).
  by eapply getCachedStat_return.
Qed.


(** ** Invalidation after a mutation, synchronous variant *)






(** ** A read that follows a write, synchronous variant *)






(** A stat read with nothing cached and no fault scheduled: the entry's
    stats, now cached. *)
Lemma getCachedStat_fresh (this : nat) (maxAge : Z) (w : sworld) (n : FsObj)
    (e : fsentry) :
  objs w !! this = Some n → hidden_stat n = None →
  os_faults (s_sys w) = [] →
  Os.entry (s_sys w) (Os.key (s_sys w) (path n)) = Some e →
  SyncFs.getCachedStat this maxAge w =
    (Return (Some (Ttl.p_value (Os.stats_of e))),
     SyncFs.set_objs w
       (<[this := SyncFs.set_hidden_stat
                    (Some {| Ttl.data := Ttl.p_value (Os.stats_of e);
                             Ttl.time := Some (Js.Num (clock w)) |}) n]>
          (objs w))).
Proof.
  intros Hn Hstat Hf He.
  unfold SyncFs.getCachedStat, SyncFs.update, SyncFs.self, bind.
  rewrite Hn, Hstat.
  cbn [SyncFs.as_cached Ttl.cacheOrGenerate].
  unfold Ttl.regenerate, SyncFs.generating.
  rewrite stat_no_fault by exact Hf. rewrite He.
  cbn [Ttl.data]. destruct w as [o c l k].
  cbn [objs s_sys clock SyncFs.set_sys SyncFs.set_objs] in *.
  rewrite Hn. reflexivity.
Qed.



(** *** The asynchronous variant drops no cached stat *)














(** The write of "new" over [docs/notes.txt] in a fresh process, followed
    by a read: the bytes read are the bytes written. *)
Example sync_write_then_read :
  fst (SyncFs.readFunc 0 (snd (sync_write "docs/notes.txt" "new" true))) =
    Return (Some (Ttl.p_value (list_byte_of_string "new"))).
Proof. vm_compute. reflexivity. Qed.

(** The write of the one-byte buffer [<61>] over [docs/notes.txt]: what
    reaches the file is the JSON text of the buffer, 29 bytes that open
    with a brace, and not the byte itself. *)
Example sync_write_of_buffer :
  let run :=
    SyncFs.writeFunc 0 (inr [Byte.x61]) true
      (sync_node_at example_os 1000 "docs/notes.txt") in
  let json := list_byte_of_string (Js.stringify_buffer [Byte.x61]) in
  fst run = Return {| size := Js.Num 29; buffer := json |} ∧
  os_files (s_sys (snd run)) !! "/home/user/docs/notes.txt" = Some (EFile json) ∧
  length json = 29%nat ∧
  head json = Some Byte.x7b ∧
  json ≠ [Byte.x61].
Proof.
  cbv zeta. repeat split; try (vm_compute; reflexivity). discriminate.
Qed.

(** ** Further properties of the resolver and of directory creation *)

(** A call shaped as a [map] callback, [(value, index, array)] with
    [array[index] === value], resolves as the call with [value] alone. *)
Theorem parseAsyncFsArgs_map_callback (cwd : string) (v : Js.value)
    (i : Js.number) (addr : nat) (items : list Js.value) :
  Js.strict_eq (Js.index items i) v = true →
  parseAsyncFsArgs cwd [v; Js.Number i; Js.Arr addr items] =
    parseAsyncFsArgs cwd [v].
Proof.
  intros H. unfold parseAsyncFsArgs.
  assert (Hrel : relevant_args [v; Js.Number i; Js.Arr addr items] = [v])
    by (unfold relevant_args; by rewrite H).
  rewrite Hrel. reflexivity.
Qed.

Lemma parseAsyncFsArgs_map_callback_witness :
  Js.strict_eq (Js.index [Js.Str "a"; Js.Str "b"] (Js.Num 1)) (Js.Str "b") = true ∧
  parseAsyncFsArgs "/home/user"
    [Js.Str "b"; Js.Number (Js.Num 1); Js.Arr 7 [Js.Str "a"; Js.Str "b"]] =
    parseAsyncFsArgs "/home/user" [Js.Str "b"].
Proof.
  split; [reflexivity |].
  apply (parseAsyncFsArgs_map_callback "/home/user" (Js.Str "b") (Js.Num 1) 7
           [Js.Str "a"; Js.Str "b"]).
  reflexivity.
Defined.

(** The resolver never gives a path that starts with a dot and a slash:
    what it gives is the bare dot or the resolved path, which is absolute
    under an absolute working directory. *)
Theorem parseAsyncFsArgs_path_shape (cwd : string) (args : list Js.value) :
  Str.startsWith cwd "/" = true →
  parsed_path (parseAsyncFsArgs cwd args) = "." ∨
  Str.startsWith (parsed_path (parseAsyncFsArgs cwd args)) "/" = true.
Proof.
  intros Habs.
  destruct (parseAsyncFsArgs_loop cwd args) as (parts & problems & _ & ->).
  cbn [parsed_path].
  destruct (canonical_cases cwd (clean_joined parts)) as [-> | ->];
    [by left | right].
  destruct (resolve_absolute cwd (clean_joined parts) Habs) as [r ->].
  cbn [Str.replace_char]. change (Ascii.eqb "/" "\") with false. cbv iota.
  unfold Str.startsWith. cbn [String.prefix].
  destruct (ascii_dec "/" "/"); [| done].
  by destruct (Str.replace_char _ _ r).
Qed.

Lemma parseAsyncFsArgs_path_shape_witness :
  Str.startsWith "/home/user" "/" = true ∧
  (parsed_path (parseAsyncFsArgs "/home/user" [Js.Str "./src"]) = "." ∨
   Str.startsWith (parsed_path (parseAsyncFsArgs "/home/user" [Js.Str "./src"]))
     "/" = true).
Proof.
  split; [reflexivity |].
  apply (parseAsyncFsArgs_path_shape "/home/user" [Js.Str "./src"]).
  reflexivity.
Defined.

(** [mkdir()] on a node that is a folder already returns the node and
    leaves every file and directory as it was. *)
Theorem mkdir_existing_folder (ed : Edition) (this : nat) (w : world) :
  fst (AsyncFsObj.type this w) = Return t_folder →
  fst (AsyncFsObj.mkdir ed this None w) = Return (Node this) ∧
  os_files (sys (snd (AsyncFsObj.mkdir ed this None w))) = os_files (sys w).
Proof.
  intros Ht. cbn [AsyncFsObj.mkdir]. unfold AsyncFsObj.mkdir_self, bind.
  pose proof (type_files_kept this w) as Hkept.
  destruct (AsyncFsObj.type this w) as [[t|e] w1]; cbn [fst] in Ht;
    [| discriminate].
  injection Ht as ->. split; [reflexivity | exact Hkept].
Qed.

Lemma mkdir_existing_folder_witness :
  fst (AsyncFsObj.type 0 (async_node_at example_os "/tmp/d")) = Return t_folder ∧
  fst (AsyncFsObj.mkdir Typed 0 None (async_node_at example_os "/tmp/d"))
    = Return (Node 0) ∧
  os_files (sys (snd (AsyncFsObj.mkdir Typed 0 None
                        (async_node_at example_os "/tmp/d"))))
    = os_files (sys (async_node_at example_os "/tmp/d")).
Proof.
  assert (Ht : fst (AsyncFsObj.type 0 (async_node_at example_os "/tmp/d"))
               = Return t_folder) by (vm_compute; reflexivity).
  split; [exact Ht |].
  exact (mkdir_existing_folder Typed 0 (async_node_at example_os "/tmp/d") Ht).
Defined.

(** ** The waits of the retrying operation *)

(** The retrying operation waits once after each throw of a value whose
    code is [ENOENT] or [EBUSY], the second one included, and not otherwise:
    a first success, a first throw of a value with another code or none, and
    a throw of [undefined] or [null] end it at once; two throws with one of
    the two codes cost two waits, the last of them after the final
    attempt. *)
Theorem attemptFileOperation_waits {W A : Type} (pause : W → W)
    (fallback : A) (func : W → (A + Thrown) * W) (w : W) :
  let run :=
    attemptFileOperation (waited pause) fallback (unwatched func) (0%nat, w) in
  let waits := fst (snd run) in
  let final := snd (snd run) in
  let transient (e : Error) :=
    bool_decide (err_code e = Some "ENOENT" ∨ err_code e = Some "EBUSY") in
  match func w with
  | (inr (thrown e1), w1) =>
      if transient e1 then
        match func (pause w1) with
        | (inr (thrown e2), w2) =>
            if transient e2 then waits = 2%nat ∧ final = pause w2
            else waits = 1%nat ∧ final = w2
        | (_, w2) => waits = 1%nat ∧ final = w2
        end
      else waits = 0%nat ∧ final = w1
  | (_, w1) => waits = 0%nat ∧ final = w1
  end.
Proof.
  unfold attemptFileOperation, unwatched, waited. cbv zeta.
  cbn [attempt_loop fst snd].
  destruct (func w) as [[v|[| |e1]] w1]; cbn [fst snd]; try by split.
  rewrite <- is_transient_codes.
  destruct (is_transient e1); cbn [fst snd]; [| by split].
  destruct (func (pause w1)) as [[v|[| |e2]] w2]; cbn [fst snd]; try by split.
  rewrite <- is_transient_codes.
  destruct (is_transient e2); cbn [fst snd]; by split.
Qed.

(** ** The TTL cache, called again with its own result *)

Lemma cacheOrGenerate_stamp {S A : Type} (now age : Z)
    (previous : Ttl.cachedObj A) (generate : S → Ttl.generated A * S) (s : S) :
  now ≠ 0 →
  ∃ stamp,
    Ttl.time (fst (Ttl.cacheOrGenerate now previous generate
                     (Ttl.age_number (Js.Num age)) s)) = Some (Js.Num stamp) ∧
    stamp ≠ 0 ∧
    (must_generate now previous (Ttl.age_number (Js.Num age)) = true →
     stamp = now).
Proof.
  intros Hnow.
  assert (Hregen : Ttl.time (fst (Ttl.regenerate now generate s))
                   = Some (Js.Num now)).
  { unfold Ttl.regenerate. by destruct (generate s). }
  unfold Ttl.cacheOrGenerate, must_generate, Ttl.defaulted. cbv zeta.
  destruct previous as [|err|e]; try (exists now; by repeat split).
  destruct (Ttl.time e) as [[|stamp]|] eqn:Htime; cbn [Ttl.falsy_number orb];
    try (exists now; by repeat split).
  destruct (stamp =? 0) eqn:Hz; cbn [orb]; [exists now; by repeat split |].
  unfold Ttl.bad_age.
  destruct (age <? 0) eqn:Hneg; cbn [orb]; [exists now; by repeat split |].
  destruct (now <? stamp + age) eqn:Hfresh.
  - exists stamp. cbn [fst Ttl.time]. split; [reflexivity |].
    split; [lia |]. intros H. lia.
  - exists now. by repeat split.
Qed.

(** An entry obtained from the cache is served again, and the generator
    left alone, at every later time before the entry's stamp plus the
    maximal age; from that time on the generator is called again. The stamp
    is the time of the call whenever that call had to generate. *)
Theorem cacheOrGenerate_second_call {S A : Type} (now later age : Z)
    (previous : Ttl.cachedObj A) (generate again : S → Ttl.generated A * S)
    (s : S) :
  now ≠ 0 → 0 ≤ age →
  let first :=
    Ttl.cacheOrGenerate now previous generate (Ttl.age_number (Js.Num age)) s in
  let second :=
    Ttl.cacheOrGenerate later (Ttl.c_entry (fst first)) (counted again)
      (Ttl.age_number (Js.Num age)) (0%nat, snd first) in
  ∃ stamp,
    Ttl.time (fst first) = Some (Js.Num stamp) ∧
    (must_generate now previous (Ttl.age_number (Js.Num age)) = true →
     stamp = now) ∧
    if later <? stamp + age
    then second = (fst first, (0%nat, snd first))
    else fst (snd second) = 1%nat ∧
         fst second = wrapped later (fst (again (snd first))) ∧
         snd (snd second) = snd (again (snd first)).
Proof.
  intros Hnow Hage. cbv zeta.
  destruct (cacheOrGenerate_stamp now age previous generate s Hnow)
    as (stamp & Htime & Hnz & Hgen).
  exists stamp. split; [exact Htime |]. split; [exact Hgen |].
  destruct (Ttl.cacheOrGenerate now previous generate
              (Ttl.age_number (Js.Num age)) s)
    as [e s1].
  cbn [fst snd] in *. destruct e as [d t]. cbn [Ttl.time] in Htime. subst t.
  unfold Ttl.cacheOrGenerate.
  cbn [Ttl.time Ttl.data Ttl.falsy_number Ttl.bad_age Ttl.defaulted].
  assert (Hz : (stamp =? 0) = false) by lia.
  assert (Hneg : (age <? 0) = false) by lia.
  rewrite Hz, Hneg. cbn [orb].
  destruct (later <? stamp + age); [reflexivity |].
  unfold Ttl.regenerate, counted, wrapped. cbn [fst snd].
  by destruct (again s1).
Qed.

Lemma cacheOrGenerate_second_call_witness :
  1000 ≠ 0 ∧ 0 ≤ 100 ∧
  let first :=
    Ttl.cacheOrGenerate 1000 (@Ttl.c_absent nat)
      (fun s : unit => (Ttl.g_value 7%nat, s)) (Ttl.age_number (Js.Num 100)) tt in
  let second :=
    Ttl.cacheOrGenerate 1050 (Ttl.c_entry (fst first))
      (counted (fun s : unit => (Ttl.g_value 8%nat, s)))
      (Ttl.age_number (Js.Num 100)) (0%nat, snd first) in
  ∃ stamp,
    Ttl.time (fst first) = Some (Js.Num stamp) ∧
    (must_generate 1000 (@Ttl.c_absent nat) (Ttl.age_number (Js.Num 100)) = true →
     stamp = 1000) ∧
    if 1050 <? stamp + 100
    then second = (fst first, (0%nat, snd first))
    else fst (snd second) = 1%nat ∧
         fst second =
           wrapped 1050 (fst ((fun s : unit => (Ttl.g_value 8%nat, s)) (snd first))) ∧
         snd (snd second) = snd ((fun s : unit => (Ttl.g_value 8%nat, s)) (snd first)).
Proof.
  split; [lia |]. split; [lia |].
  apply (cacheOrGenerate_second_call 1000 1050 100 (@Ttl.c_absent nat)
           (fun s : unit => (Ttl.g_value 7%nat, s))
           (fun s : unit => (Ttl.g_value 8%nat, s)) tt); lia.
Defined.

(** ** The resolver on plain segments and on unusable arguments *)

Lemma parse_loop_strings (segs : list string) (fuel i : nat)
    (parts : list string) (problems : list Problem) :
  (length segs ≤ fuel)%nat → parts ≠ [] →
  parse_loop fuel i (Js.Str <$> segs) parts problems =
    Some (parts ++ segs, problems).
Proof.
  revert fuel i parts.
  induction segs as [|s segs IH]; intros fuel i parts Hfuel Hparts.
  - destruct fuel; cbn; by rewrite app_nil_r.
  - destruct fuel as [|fuel]; [simpl in Hfuel; lia |].
    cbn [fmap list_fmap parse_loop].
    assert (Hlen : Nat.eqb (length parts) 0 = false).
    { destruct parts; [done | reflexivity]. }
    rewrite Hlen. cbn [andb].
    change (list_fmap string Js.value Js.Str segs) with (Js.Str <$> segs).
    rewrite IH; [| simpl in Hfuel; lia | by destruct parts].
    by rewrite <- app_assoc.
Qed.

Lemma weights_strings (segs : list string) :
  Js.weights (Js.Str <$> segs) = length segs.
Proof.
  unfold Js.weights. induction segs as [|s segs IH]; [reflexivity |].
  cbn. f_equal. exact IH.
Qed.

Lemma relevant_args_strings (segs : list string) :
  relevant_args (Js.Str <$> segs) = Js.Str <$> segs.
Proof. by destruct segs as [|a [|b [|c [|d t]]]]. Qed.

(** Called with strings only, the resolver takes them as the parts, in
    order and unchanged, but for an empty first string, which becomes the
    dot; it reports no problem. *)
Theorem parseAsyncFsArgs_string_segments (cwd : string) (segs : list string) :
  let r := parseAsyncFsArgs cwd (Js.Str <$> segs) in
  parsed_parts r =
    match segs with
    | s :: rest => (if Str.is_empty s then "." else s) :: rest
    | [] => []
    end ∧
  parsed_problems r = [] ∧
  parsed_path r = canonical cwd (clean_joined (parsed_parts r)).
Proof.
  cbv zeta. unfold parseAsyncFsArgs.
  rewrite relevant_args_strings, weights_strings.
  destruct segs as [|s rest]; [by cbn |].
  cbn [fmap list_fmap length parse_loop andb Nat.eqb].
  change (list_fmap string Js.value Js.Str rest) with (Js.Str <$> rest).
  destruct (Str.is_empty s); cbn [app];
    (rewrite parse_loop_strings; [by cbn | lia | done]).
Qed.

Lemma relevant_args_other (args : list Js.value) :
  length args ≠ 3%nat → relevant_args args = args.
Proof.
  intros H. destruct args as [|a [|b [|c [|d t]]]]; try reflexivity.
  - by destruct b.
  - by contradiction H.
  - destruct b; try reflexivity. by destruct c.
Qed.

(** The loop reports every unusable argument it walks over, under the index
    the argument has in the list. *)
Lemma parse_loop_reports (fuel : nat) :
  ∀ (i k : nat) (pending : list Js.value) (v : Js.value)
    (parts : list string) (problems : list Problem)
    (ps : list string) (pr : list Problem),
    parse_loop fuel i pending parts problems = Some (ps, pr) →
    (∀ x, x ∈ problems → x ∈ pr) ∧
    (pending !! k = Some v → unusable v →
     {| problem_i := (i + k)%nat; problem_arg := v |} ∈ pr).
Proof.
  induction fuel as [|fuel IH]; intros i k pending v parts problems ps pr H.
  - destruct pending; [| discriminate]. injection H as <- <-.
    split; [done |]. intros Hk. by rewrite lookup_nil in Hk.
  - destruct pending as [|a rest].
    { injection H as <- <-. split; [done |]. intros Hk.
      by rewrite lookup_nil in Hk. }
    assert (Hnext : ∀ rest' parts' problems',
      parse_loop fuel (S i) rest' parts' problems' = Some (ps, pr) →
      (∀ x, x ∈ problems → x ∈ problems') →
      (∀ j, rest !! j = Some v → rest' !! j = Some v) →
      (k = 0%nat → unusable a →
         {| problem_i := i; problem_arg := a |} ∈ problems') →
      (∀ x, x ∈ problems → x ∈ pr) ∧
      ((a :: rest) !! k = Some v → unusable v →
       {| problem_i := (i + k)%nat; problem_arg := v |} ∈ pr)).
    { intros rest' parts' problems' Hrun Hsub Hrest Hhead.
      split.
      - intros x Hx. destruct (IH (S i) 0%nat _ v _ _ _ _ Hrun) as [Hgrow _].
        by apply Hgrow, Hsub.
      - intros Hk Hv. destruct k as [|k].
        + injection Hk as ->.
          destruct (IH (S i) 0%nat _ v _ _ _ _ Hrun) as [Hgrow _].
          apply Hgrow. rewrite Nat.add_0_r. by apply Hhead.
        + cbn in Hk. destruct (IH (S i) k _ v _ _ _ _ Hrun) as [_ Hrep].
          replace (i + S k)%nat with (S i + k)%nat by lia.
          apply Hrep; [by apply Hrest | exact Hv]. }
    destruct a as [| |b|n|s|addr items|addr props]; cbn [parse_loop] in H.
    + eapply Hnext; [exact H | done | done |].
      intros _ [[b Hb] | (a & p & Hb & _)]; discriminate.
    + eapply Hnext; [exact H | done | done |].
      intros _ [[b Hb] | (a & p & Hb & _)]; discriminate.
    + eapply Hnext; [exact H | | done |].
      * intros x Hx. apply elem_of_app. by left.
      * intros _ _. apply elem_of_app. right. apply list_elem_of_here.
    + eapply Hnext; [exact H | done | done |].
      intros _ [[b Hb] | (a & p & Hb & _)]; discriminate.
    + destruct (_ && _);
        (eapply Hnext; [exact H | done | done |];
         intros _ [[b Hb] | (a & p & Hb & _)]; discriminate).
    + eapply Hnext; [exact H | done | |].
      * intros j Hj. by apply lookup_app_l_Some.
      * intros _ [[b Hb] | (a & p & Hb & _)]; discriminate.
    + destruct (if Nat.eqb (length props) 0 then None
                else find_path_key props path_keys) as [s|] eqn:Hkey.
      * eapply Hnext; [exact H | done | done |].
        intros _ [[b Hb] | (a & p & Hb & Hnone)]; [discriminate |].
        injection Hb as -> ->. rewrite Hnone in Hkey.
        by destruct (Nat.eqb (length _) 0).
      * eapply Hnext; [exact H | | done |].
        -- intros x Hx. apply elem_of_app. by left.
        -- intros _ _. apply elem_of_app. right.
           apply list_elem_of_here.
Qed.

(** An unusable argument is reported with its index and makes [asyncFs]
    raise, in the mode the module is set to, without a lookup in the
    object cache: the world is left as it was. *)
Theorem asyncFs_rejects_unusable_argument (args : list Js.value) (k : nat)
    (v : Js.value) (w : world) :
  length args ≠ 3%nat → args !! k = Some v → unusable v →
  {| problem_i := k; problem_arg := v |}
    ∈ parsed_problems (parseAsyncFsArgs (os_cwd (sys w)) args) ∧
  AsyncFsObj.asyncFs args w = (Throw (plain_error "Invalid arguments"), w).
Proof.
  intros Hlen Hk Hv.
  destruct (parseAsyncFsArgs_loop (os_cwd (sys w)) args)
    as (parts & problems & Hloop & Hr).
  rewrite relevant_args_other in Hloop by exact Hlen.
  destruct (parse_loop_reports _ 0 k args v [] [] parts problems Hloop)
    as [_ Hrep].
  specialize (Hrep Hk Hv). cbn [Nat.add] in Hrep.
  unfold AsyncFsObj.asyncFs. cbv zeta. rewrite Hr. cbn [parsed_problems].
  split; [exact Hrep |].
  destruct problems; [by apply elem_of_nil in Hrep | reflexivity].
Qed.

Lemma asyncFs_rejects_unusable_argument_witness :
  length [Js.Str "a"; Js.Bool true] ≠ 3%nat ∧
  [Js.Str "a"; Js.Bool true] !! 1%nat = Some (Js.Bool true) ∧
  unusable (Js.Bool true) ∧
  {| problem_i := 1; problem_arg := Js.Bool true |}
    ∈ parsed_problems
        (parseAsyncFsArgs (os_cwd (sys (fresh_world example_os)))
           [Js.Str "a"; Js.Bool true]) ∧
  AsyncFsObj.asyncFs [Js.Str "a"; Js.Bool true] (fresh_world example_os) =
    (Throw (plain_error "Invalid arguments"), fresh_world example_os).
Proof.
  assert (H1 : length [Js.Str "a"; Js.Bool true] ≠ 3%nat) by (simpl; lia).
  assert (H3 : unusable (Js.Bool true)) by (left; by exists true).
  split; [exact H1 |]. split; [reflexivity |]. split; [exact H3 |].
  exact (asyncFs_rejects_unusable_argument [Js.Str "a"; Js.Bool true] 1
           (Js.Bool true) (fresh_world example_os) H1 eq_refl H3).
Defined.

(** ** Characters of strings and of their segments *)

Lemma contains_char_nil (c : ascii) : contains_char c EmptyString = false.
Proof. reflexivity. Qed.

Lemma contains_char_cons (c a : ascii) (r : string) :
  contains_char c (String a r) = Ascii.eqb a c || contains_char c r.
Proof.
  unfold contains_char. cbn [Str.includes String.prefix].
  destruct (ascii_dec c a) as [<- | Hne].
  - rewrite Ascii.eqb_refl. by destruct r.
  - destruct (Ascii.eqb_spec a c) as [-> |]; [by contradiction Hne | done].
Qed.

Lemma contains_char_app (c : ascii) (a b : string) :
  contains_char c (a +:+ b) = contains_char c a || contains_char c b.
Proof.
  induction a as [|x a IH]; [reflexivity |].
  change (String x a +:+ b) with (String x (a +:+ b)).
  by rewrite !contains_char_cons, IH, orb_assoc.
Qed.

Lemma replace_char_absent (c d : ascii) (s : string) :
  c ≠ d → contains_char c (Str.replace_char c d s) = false.
Proof.
  intros Hne. induction s as [|a s IH]; [reflexivity |].
  cbn [Str.replace_char]. rewrite contains_char_cons, IH, orb_false_r.
  destruct (Ascii.eqb_spec a c) as [-> | Hac].
  - apply Ascii.eqb_neq. congruence.
  - by apply Ascii.eqb_neq.
Qed.

Lemma replace_char_id (c d : ascii) (s : string) :
  contains_char c s = false → Str.replace_char c d s = s.
Proof.
  induction s as [|a s IH]; [reflexivity |].
  rewrite contains_char_cons. intros H. apply orb_false_elim in H as [Ha Hs].
  cbn [Str.replace_char]. by rewrite Ha, IH.
Qed.

Lemma collapse_from_keeps (c : ascii) (b : bool) (s : string) :
  contains_char c s = false → contains_char c (Str.collapse_from b s) = false.
Proof.
  revert b. induction s as [|a s IH]; intros b; [reflexivity |].
  rewrite contains_char_cons. intros H. apply orb_false_elim in H as [Ha Hs].
  cbn [Str.collapse_from].
  destruct (Ascii.eqb a "/"); [destruct b |];
    rewrite ?contains_char_cons, ?Ha; cbn [orb]; by apply IH.
Qed.

Lemma remove_char_keeps (c d : ascii) (s : string) :
  contains_char c s = false → contains_char c (Str.remove_char d s) = false.
Proof.
  induction s as [|a s IH]; [reflexivity |].
  rewrite contains_char_cons. intros H. apply orb_false_elim in H as [Ha Hs].
  cbn [Str.remove_char].
  destruct (Ascii.eqb a d); rewrite ?contains_char_cons, ?Ha; cbn [orb];
    by apply IH.
Qed.

Lemma substring_to_keeps (c : ascii) (n : nat) (s : string) :
  contains_char c s = false → contains_char c (Str.substring_to n s) = false.
Proof.
  revert n. induction s as [|a s IH]; intros n; [by destruct n |].
  rewrite contains_char_cons. intros H. apply orb_false_elim in H as [Ha Hs].
  destruct n as [|n]; [reflexivity |].
  cbn [Str.substring_to]. rewrite contains_char_cons, Ha. by apply IH.
Qed.

Lemma split_not_nil (c : ascii) (s : string) : Str.split c s ≠ [].
Proof.
  destruct s as [|a s]; [done |]. cbn [Str.split].
  destruct (Ascii.eqb a c); [done |]. by destruct (Str.split c s).
Qed.

(** The segments of a string hold no separator, and no character the
    string does not hold. *)
Lemma split_keeps (c d : ascii) (s : string) :
  d = c ∨ contains_char d s = false →
  Forall (fun seg => contains_char d seg = false) (Str.split c s).
Proof.
  induction s as [|a s IH]; intros H.
  - by repeat constructor.
  - assert (Hs : d = c ∨ contains_char d s = false).
    { destruct H as [-> | H]; [by left | right].
      rewrite contains_char_cons in H. by apply orb_false_elim in H as [_ H]. }
    specialize (IH Hs). cbn [Str.split].
    destruct (Ascii.eqb_spec a c) as [-> | Hac]; [by constructor |].
    assert (Ha : Ascii.eqb a d = false).
    { destruct H as [-> | H]; [by apply Ascii.eqb_neq |].
      rewrite contains_char_cons in H. by apply orb_false_elim in H as [H _]. }
    destruct (Str.split c s) as [|h t].
    { constructor; [by rewrite contains_char_cons, Ha | constructor]. }
    apply Forall_cons in IH as [Hh Ht]. constructor; [| exact Ht].
    by rewrite contains_char_cons, Ha, Hh.
Qed.

Lemma join_keeps (d : ascii) (sep : string) (l : list string) :
  contains_char d sep = false →
  Forall (fun seg => contains_char d seg = false) l →
  contains_char d (Str.join sep l) = false.
Proof.
  intros Hsep. induction l as [|x l IH]; intros H; [reflexivity |].
  apply Forall_cons in H as [Hx Hl]. specialize (IH Hl).
  cbn [Str.join]. destruct l as [|y l]; [exact Hx |].
  by rewrite !contains_char_app, Hx, Hsep, IH.
Qed.

(** What [normalizeString] keeps below a root: segments of the path that
    are not empty and are neither dot segment. *)
Lemma normalize_segments_keeps (Q : string → Prop) (segs : list string) :
  ∀ kept,
    Forall (fun s => s ≠ EmptyString ∧ s ≠ "." ∧ s ≠ ".." ∧ Q s) kept →
    Forall Q segs →
    Forall (fun s => s ≠ EmptyString ∧ s ≠ "." ∧ s ≠ ".." ∧ Q s)
      (NodePath.normalize_segments false kept segs).
Proof.
  induction segs as [|seg segs IH]; intros kept Hkept Hsegs; [exact Hkept |].
  apply Forall_cons in Hsegs as [Hseg Hsegs].
  cbn [NodePath.normalize_segments].
  destruct (Str.is_empty seg) eqn:Hempty; cbn [orb]; [by apply IH |].
  destruct (String.eqb_spec seg ".") as [-> | Hdot]; [by apply IH |].
  destruct (String.eqb_spec seg "..") as [-> | Hdots].
  - destruct kept as [|last kept']; [by apply IH |].
    destruct (String.eqb last ".."); [by apply IH |].
    apply Forall_cons in Hkept as [_ Hkept]. by apply IH.
  - apply IH; [| exact Hsegs]. constructor; [| exact Hkept].
    repeat split; try assumption. intros ->. discriminate.
Qed.

Lemma clean_joined_no_backslash (parts : list string) :
  contains_char "\" (clean_joined parts) = false.
Proof.
  unfold clean_joined. cbv zeta.
  assert (H : contains_char "\"
                (Str.remove_char "?"
                   (Str.collapse_slashes
                      (Str.replace_char "\" "/" (Str.join "/" parts)))) = false).
  { apply remove_char_keeps, collapse_from_keeps.
    by apply replace_char_absent. }
  destruct (Str.endsWith _ "/"); [by apply substring_to_keeps | exact H].
Qed.

(** Resolved against an absolute working directory, a path is the root
    followed by the segments [normalizeString] keeps. *)
Lemma resolve_segments (cwd p : string) :
  Str.startsWith cwd "/" = true →
  contains_char "\" cwd = false → contains_char "\" p = false →
  ∃ segs, NodePath.resolve cwd p = "/" +:+ Str.join "/" segs ∧
          Forall proper_segment segs.
Proof.
  intros Habs Hcwd Hp.
  assert (Hnorm : ∀ x, contains_char "\" x = false →
    Forall proper_segment
      (rev (NodePath.normalize_segments false [] (Str.split "/" x)))).
  { intros x Hx. apply Forall_rev.
    eapply Forall_impl;
      [apply (normalize_segments_keeps
                (fun s => Str.includes s "/" = false ∧
                          Str.includes s "\" = false)) |].
    - constructor.
    - apply Forall_and. split.
      + apply (split_keeps "/" "/"). by left.
      + apply (split_keeps "/" "\"). by right.
    - intros s (H1 & H2 & H3 & H4 & H5). by repeat split. }
  destruct (startsWith_slash cwd Habs) as [c ->].
  unfold NodePath.resolve.
  destruct (Str.is_empty p) eqn:Hempty.
  - cbn [Str.is_empty]. rewrite Habs. cbn [negb].
    eexists. split; [reflexivity |]. apply Hnorm.
    by rewrite !contains_char_app, Hcwd.
  - destruct (Str.startsWith p "/").
    + cbn [negb]. eexists. split; [reflexivity |]. apply Hnorm.
      by rewrite contains_char_app, Hp.
    + cbn [Str.is_empty]. rewrite Habs. cbn [negb].
      eexists. split; [reflexivity |]. apply Hnorm.
      by rewrite !contains_char_app, Hcwd, Hp.
Qed.

(** Under an absolute working directory written with forward slashes, the
    path the resolver gives is the bare dot, or the root followed by
    segments joined by one slash each, none of which is empty, a dot
    segment, or holds a separator: no doubled slash, no trailing slash, no
    backslash, nothing left to resolve. *)
Theorem parseAsyncFsArgs_normal_form (cwd : string) (args : list Js.value) :
  Str.startsWith cwd "/" = true → Str.includes cwd "\" = false →
  parsed_path (parseAsyncFsArgs cwd args) = "." ∨
  ∃ segs, parsed_path (parseAsyncFsArgs cwd args) = "/" +:+ Str.join "/" segs ∧
          Forall proper_segment segs.
Proof.
  intros Habs Hcwd.
  destruct (parseAsyncFsArgs_loop cwd args) as (parts & problems & _ & ->).
  cbn [parsed_path].
  destruct (canonical_cases cwd (clean_joined parts)) as [-> | ->];
    [by left | right].
  destruct (resolve_segments cwd (clean_joined parts) Habs Hcwd
              (clean_joined_no_backslash parts)) as (segs & -> & Hsegs).
  exists segs. split; [| exact Hsegs].
  apply replace_char_id.
  rewrite contains_char_app. cbn [orb].
  change (contains_char "\" "/") with false. cbn [orb].
  apply join_keeps; [reflexivity |].
  eapply Forall_impl; [exact Hsegs |]. by intros s (_ & _ & _ & _ & H).
Qed.

Lemma parseAsyncFsArgs_normal_form_witness :
  Str.startsWith "/home/user" "/" = true ∧
  Str.includes "/home/user" "\" = false ∧
  (parsed_path (parseAsyncFsArgs "/home/user" [Js.Str "a//b/../c/"]) = "." ∨
   ∃ segs,
     parsed_path (parseAsyncFsArgs "/home/user" [Js.Str "a//b/../c/"])
       = "/" +:+ Str.join "/" segs ∧
     Forall proper_segment segs).
Proof.
  split; [reflexivity |]. split; [reflexivity |].
  apply (parseAsyncFsArgs_normal_form "/home/user" [Js.Str "a//b/../c/"]);
    reflexivity.
Defined.

(** ** What every operation of the asynchronous variant keeps *)

(** A relation kept by the steps the operations are made of is kept by the
    operations; [allowed] tells which members of [fs.promises] may run. *)
Section AsyncFrame.
Variable R : world → world → Prop.
Variable allowed : method → Prop.
Hypothesis R_refl : ∀ w, R w w.
Hypothesis R_trans : ∀ a b c, R a b → R b c → R a c.
Hypothesis R_set_cachedStat :
  ∀ this s, preserves R (AsyncFsObj.set_cachedStat this s).
Hypothesis R_parent : ∀ this, preserves R (AsyncFsObj.parent this).
Hypothesis R_fromCache : ∀ p, preserves R (AsyncFsObj.fromCacheM p).
Hypothesis R_attempt :
  ∀ m p args fallback, allowed m →
    preserves R (AsyncFsObj.attempt fallback (fs_promises m p args)).
Hypothesis allowed_reading : ∀ m, reading m → allowed m.

Lemma frame_self (this : nat) : preserves R (AsyncFsObj.self this).
Proof.
  intros w. unfold AsyncFsObj.self. destruct (heap w !! this); apply R_refl.
Qed.

Lemma frame_bound {A : Type} (this : nat) (m : method) (fallback : osval)
    (args : extra) (k : Attempt osval → M world A) :
  allowed m → (∀ r, preserves R (k r)) →
  preserves R
    (let* func := AsyncFsObj.getBoundMethod this m in
     let* r := AsyncFsObj.attempt fallback (func args) in k r).
Proof.
  intros Hm Hk. unfold AsyncFsObj.getBoundMethod.
  apply preserves_bind_assoc.
  apply (preserves_bind _ R_trans); [apply frame_self | intros n].
  apply preserves_bind_ret.
  apply (preserves_bind _ R_trans); [by apply R_attempt | apply Hk].
Qed.

Ltac frame_step :=
  first
    [ apply frame_self
    | apply R_set_cachedStat
    | apply R_parent
    | apply R_fromCache
    | apply frame_bound;
        [ first [ assumption
                | apply allowed_reading; unfold reading; tauto ]
        | intros ? ]
    | keep_step R_refl R_trans
    | match goal with
      | |- preserves _ (AsyncFsObj.on_node ?h _) => destruct h; simpl
      | |- preserves _ (fun w => AsyncFsObj.fromCacheM _ w) =>
          let w := fresh "w" in intros w; apply (R_fromCache _ w)
      end ].

Lemma frame_stat (this : nat) : preserves R (AsyncFsObj.stat this).
Proof. unfold AsyncFsObj.stat. repeat frame_step. Qed.

Lemma frame_type (this : nat) : preserves R (AsyncFsObj.type this).
Proof.
  unfold AsyncFsObj.type. frame_step; [apply frame_stat |]. frame_step.
Qed.

Lemma frame_file (this : nat) : preserves R (AsyncFsObj.file this).
Proof.
  unfold AsyncFsObj.file. frame_step; [apply frame_type |]. frame_step.
Qed.

Lemma frame_folder (this : nat) : preserves R (AsyncFsObj.folder this).
Proof.
  unfold AsyncFsObj.folder. frame_step; [apply frame_type |]. frame_step.
Qed.

Lemma frame_exists (this : nat) : preserves R (AsyncFsObj.exists_ this).
Proof.
  unfold AsyncFsObj.exists_. frame_step; [apply frame_stat |]. frame_step.
Qed.

Ltac frame :=
  repeat first
    [ apply frame_stat | apply frame_type | apply frame_file
    | apply frame_folder | apply frame_exists | frame_step ].

Lemma frame_mkdir_self (ed : Edition) (this : nat) :
  allowed m_mkdir → preserves R (AsyncFsObj.mkdir_self ed this).
Proof. intros Hmk. unfold AsyncFsObj.mkdir_self. frame. Qed.

Lemma frame_mkdir (ed : Edition) (this : nat) (name : option string) :
  allowed m_mkdir → preserves R (AsyncFsObj.mkdir ed this name).
Proof.
  intros Hmk. unfold AsyncFsObj.mkdir. frame; by apply frame_mkdir_self.
Qed.

Lemma frame_children (ed : Edition) (this : nat)
    (filter : option (hit → M world bool)) :
  (∀ f h, filter = Some f → preserves R (f h)) →
  preserves R (AsyncFsObj.children ed this filter).
Proof.
  intros Hfilter. unfold AsyncFsObj.children. frame. by eapply Hfilter.
Qed.

Lemma frame_files (ed : Edition) (this : nat) :
  preserves R (AsyncFsObj.files ed this).
Proof.
  unfold AsyncFsObj.files. apply frame_children. intros f h [= <-]. frame.
Qed.

Lemma frame_folders (ed : Edition) (this : nat) :
  preserves R (AsyncFsObj.folders ed this).
Proof.
  unfold AsyncFsObj.folders. apply frame_children. intros f h [= <-]. frame.
Qed.

Lemma frame_siblings (ed : Edition) (this : nat) :
  preserves R (AsyncFsObj.siblings ed this).
Proof.
  unfold AsyncFsObj.siblings.
  repeat first
    [ apply R_parent
    | apply frame_children; intros ? ? [=]
    | apply frame_type
    | frame_step ].
Qed.

Lemma frame_data (ed : Edition) (this : nat) :
  preserves R (AsyncFsObj.data ed this).
Proof. unfold AsyncFsObj.data. frame. Qed.

Lemma frame_write (ed : Edition) (this : nat)
    (data : string + list Byte.byte) (overwrite : bool) :
  preserves R (AsyncFsObj.write ed this data overwrite).
Proof. unfold AsyncFsObj.write. frame. Qed.

Lemma frame_append (ed : Edition) (this : nat)
    (data : string + list Byte.byte) (mustExist : bool) :
  preserves R (AsyncFsObj.append ed this data mustExist).
Proof. unfold AsyncFsObj.append. frame. Qed.

Lemma frame_overwrite (ed : Edition) (this : nat)
    (data : string + list Byte.byte) :
  preserves R (AsyncFsObj.overwrite ed this data).
Proof. unfold AsyncFsObj.overwrite. frame; apply frame_write. Qed.

Lemma frame_nested (this : nat) (sufix : string) :
  preserves R (AsyncFsObj.nested this sufix).
Proof. unfold AsyncFsObj.nested. frame. Qed.

Lemma frame_inside (ed : Edition) (this : nat) (name : string) :
  preserves R (AsyncFsObj.inside ed this name).
Proof. unfold AsyncFsObj.inside. frame. Qed.

Lemma frame_asyncFs (args : list Js.value) :
  preserves R (AsyncFsObj.asyncFs args).
Proof.
  intros w. unfold AsyncFsObj.asyncFs.
  destruct (parsed_problems _); [apply (R_fromCache _ w) |].
  destruct is_forgiving; [apply (R_fromCache _ w) | apply R_refl].
Qed.

(** Every call but [mkdir] and a change made from outside. *)
Lemma frame_run_call (ed : Edition) (c : call) (w : world) :
  match c with
  | call_mkdir _ _ | call_elsewhere _ => True
  | _ => R w (run_call ed c w)
  end.
Proof.
  destruct c; try exact I; cbn [run_call]; unfold after;
    first
      [ apply frame_asyncFs | apply R_fromCache | apply frame_stat
      | apply frame_type | apply frame_exists | apply R_parent
      | apply frame_siblings
      | apply frame_files | apply frame_folders
      | apply frame_children; intros ? ? [=]
      | apply frame_data
      | apply frame_write | apply frame_append | apply frame_overwrite
      | apply frame_nested | apply frame_inside ].
Qed.

End AsyncFrame.

(** *** The files *)

Lemma fromCacheM_files_kept (p : string) :
  preserves files_kept (AsyncFsObj.fromCacheM p).
Proof.
  intros w. unfold AsyncFsObj.fromCacheM, AsyncFsObj.fromCache.
  destruct (instanceCacheRecord w !! p); [reflexivity |].
  by destruct (inherited p).
Qed.

Lemma set_parent_files_kept (this : nat) (p : hit) :
  preserves files_kept (AsyncFsObj.set_parent this p).
Proof.
  intros w. unfold AsyncFsObj.set_parent, bind, AsyncFsObj.self.
  by destruct (heap w !! this).
Qed.

Lemma parent_files_kept (this : nat) :
  preserves files_kept (AsyncFsObj.parent this).
Proof.
  unfold AsyncFsObj.parent.
  repeat first
    [ apply set_parent_files_kept
    | files_kept_step
    | match goal with
      | |- preserves _ (fun w => AsyncFsObj.fromCacheM _ w) =>
          let w := fresh "w" in intros w; apply (fromCacheM_files_kept _ w)
      end ].
Qed.

Lemma reading_attempt_files_kept (m : method) (p : string) (args : extra)
    (fallback : osval) :
  reading m →
  preserves files_kept (AsyncFsObj.attempt fallback (fs_promises m p args)).
Proof. intros Hm. by apply attempt_files_kept, fs_promises_reads_only. Qed.

(** No operation of the asynchronous handler but [mkdir] changes a file or
    a directory: lookups, [stat], [type], [exists], [parent], [siblings],
    [children], [files], [folders], [data], [write], [append], [overwrite],
    [nested] and [inside], of either edition, leave the whole file map as it
    was, whether they return or throw. *)
Theorem only_mkdir_changes_files (ed : Edition) (c : call) (w : world) :
  match c with
  | call_mkdir _ _ | call_elsewhere _ => True
  | _ => os_files (sys (run_call ed c w)) = os_files (sys w)
  end.
Proof.
  exact (frame_run_call files_kept reading files_kept_refl files_kept_trans
           set_cachedStat_files_kept parent_files_kept fromCacheM_files_kept
           reading_attempt_files_kept (fun m H => H) ed c w).
Qed.

(** *** The nodes *)

Lemma node_kept_refl (w : world) : node_kept w w.
Proof. intros l n H. exists n. by repeat split. Qed.

Lemma node_kept_trans (a b c : world) :
  node_kept a b → node_kept b c → node_kept a c.
Proof.
  intros Hab Hbc l n Hl.
  destruct (Hab l n Hl) as (n1 & Hl1 & Hp1 & Hq1 & Hs1).
  destruct (Hbc l n1 Hl1) as (n2 & Hl2 & Hp2 & Hq2 & Hs2).
  exists n2. split; [exact Hl2 |]. split; [congruence |]. split; auto.
Qed.

Lemma node_kept_app (w w' : world) (more : list AsyncFsObj) :
  heap w' = heap w ++ more → node_kept w w'.
Proof.
  intros Hh l n Hl. exists n. rewrite Hh.
  split; [by apply lookup_app_l_Some | by repeat split].
Qed.

Lemma node_kept_update (w : world) (this : nat) (n n' : AsyncFsObj) :
  heap w !! this = Some n → _path n' = _path n →
  (∀ p, _parent n = Some p → _parent n' = Some p) →
  (is_Some (cachedStat n) → is_Some (cachedStat n')) →
  node_kept w (AsyncFsObj.set_heap w (<[this := n']> (heap w))).
Proof.
  intros Hthis Hpath Hparent Hstat l m Hl. cbn [heap AsyncFsObj.set_heap].
  destruct (decide (l = this)) as [-> | Hne].
  - exists n'. assert (m = n) as -> by congruence.
    split; [apply list_lookup_insert_eq; by eapply lookup_lt_Some |].
    by repeat split.
  - exists m. rewrite list_lookup_insert_ne by done. by repeat split.
Qed.

Lemma fromCacheM_node_kept (p : string) :
  preserves node_kept (AsyncFsObj.fromCacheM p).
Proof.
  intros w. unfold AsyncFsObj.fromCacheM, AsyncFsObj.fromCache.
  destruct (instanceCacheRecord w !! p); [apply node_kept_refl |].
  destruct (inherited p); [apply node_kept_refl |].
  by eapply node_kept_app.
Qed.

Lemma set_cachedStat_node_kept (this : nat) (s : Stats) :
  preserves node_kept (AsyncFsObj.set_cachedStat this s).
Proof.
  intros w. unfold AsyncFsObj.set_cachedStat, bind, AsyncFsObj.self.
  destruct (heap w !! this) as [n|] eqn:Hn; cbn [snd];
    [| apply node_kept_refl].
  eapply node_kept_update; [exact Hn | reflexivity | done |].
  intros _. by eexists.
Qed.

Lemma attempt_node_kept (m : method) (p : string) (args : extra)
    (fallback : osval) :
  True → preserves node_kept (AsyncFsObj.attempt fallback (fs_promises m p args)).
Proof.
  intros _ w.
  destruct (attempt_run fallback (fs_promises m p args) w) as (r & o & _ & ->).
  by eapply (node_kept_app _ _ []); rewrite app_nil_r.
Qed.

(** The first read of [parent] memoizes what it finds; a memoized parent
    is handed back as it is. *)
Lemma parent_node_kept (this : nat) : preserves node_kept (AsyncFsObj.parent this).
Proof.
  intros w. unfold AsyncFsObj.parent.
  unfold bind at 1. unfold AsyncFsObj.self at 1.
  destruct (heap w !! this) as [n|] eqn:Hn; [| apply node_kept_refl].
  destruct (_parent n) as [p|] eqn:Hp; [apply node_kept_refl |].
  destruct (_ || _); [apply node_kept_refl |].
  unfold bind at 1.
  match goal with
  | |- context [AsyncFsObj.fromCacheM ?q w] =>
      pose proof (fromCacheM_node_kept q w) as Hfrom;
      destruct (AsyncFsObj.fromCacheM q w) as [[h|e] w1] eqn:Hrun
  end; cbn [snd] in Hfrom; [| exact Hfrom].
  destruct (Hfrom this n Hn) as (n1 & Hn1 & Hpath1 & Hparent1 & Hstat1).
  assert (Hsame : n1 = n).
  { unfold AsyncFsObj.fromCacheM, AsyncFsObj.fromCache in Hrun.
    destruct (instanceCacheRecord w !! _); [congruence |].
    destruct (inherited _); [congruence |].
    injection Hrun as _ <-. cbn [heap] in Hn1.
    rewrite lookup_app_l in Hn1 by (by eapply lookup_lt_Some). congruence. }
  subst n1.
  unfold bind at 1. unfold AsyncFsObj.set_parent, bind, AsyncFsObj.self.
  rewrite Hn1. cbn [snd].
  eapply node_kept_trans; [exact Hfrom |].
  eapply node_kept_update; [exact Hn1 | reflexivity | | done].
  intros q Hq. congruence.
Qed.

Lemma run_call_node_kept (ed : Edition) (c : call) (w : world) :
  node_kept w (run_call ed c w).
Proof.
  pose proof (frame_run_call node_kept (fun _ => True) node_kept_refl
                node_kept_trans set_cachedStat_node_kept parent_node_kept
                fromCacheM_node_kept attempt_node_kept (fun _ _ => I) ed c w)
    as H.
  destruct c; try exact H.
  - cbn [run_call]. unfold after.
    apply (frame_mkdir node_kept (fun _ => True));
      first [ apply node_kept_refl | apply node_kept_trans
            | apply set_cachedStat_node_kept | apply fromCacheM_node_kept
            | apply attempt_node_kept | done ].
  - cbn [run_call]. by eapply (node_kept_app _ _ []); rewrite app_nil_r.
Qed.

Lemma run_calls_node_kept (ed : Edition) (calls : list call) (w : world) :
  node_kept w (run_calls ed calls w).
Proof.
  revert w. induction calls as [|c calls IH]; intros w; cbn.
  - apply node_kept_refl.
  - eapply node_kept_trans; [apply run_call_node_kept | apply IH].
Qed.

(** Whatever the process does (lookups, operations of either edition on
    any node, changes made to the file system from outside), a node stays
    at its address and keeps its path; the stat it holds may be replaced
    but is never dropped. *)
Theorem nodes_keep_path_and_stat (ed : Edition) (calls : list call)
    (w : world) (l : nat) (n : AsyncFsObj) :
  heap w !! l = Some n →
  ∃ n', heap (run_calls ed calls w) !! l = Some n' ∧
        _path n' = _path n ∧
        (is_Some (cachedStat n) → is_Some (cachedStat n')).
Proof.
  intros Hl.
  destruct (run_calls_node_kept ed calls w l n Hl) as (n' & H1 & H2 & _ & H4).
  by exists n'.
Qed.

Lemma nodes_keep_path_and_stat_witness :
  heap (async_node_at example_os "/tmp/d") !! 0%nat
    = Some (AsyncFsObj.constructor "/tmp/d") ∧
  ∃ n', heap (run_calls Typed
                [call_children 0; call_mkdir 0 (Some "sub"); call_parent 0]
                (async_node_at example_os "/tmp/d")) !! 0%nat = Some n' ∧
        _path n' = _path (AsyncFsObj.constructor "/tmp/d") ∧
        (is_Some (cachedStat (AsyncFsObj.constructor "/tmp/d")) →
         is_Some (cachedStat n')).
Proof.
  split; [reflexivity |].
  apply (nodes_keep_path_and_stat Typed
           [call_children 0; call_mkdir 0 (Some "sub"); call_parent 0]
           (async_node_at example_os "/tmp/d") 0
           (AsyncFsObj.constructor "/tmp/d")).
  reflexivity.
Defined.

Lemma parent_return (this : nat) (w w1 : world) (h : hit) :
  AsyncFsObj.parent this w = (Return h, w1) →
  ∃ n1, heap w1 !! this = Some n1 ∧ _parent n1 = Some h.
Proof.
  unfold AsyncFsObj.parent. intros H.
  apply bind_return in H as (n & w0 & Hself & H).
  unfold AsyncFsObj.self in Hself.
  destruct (heap w !! this) as [n0|] eqn:Hn; [| discriminate].
  injection Hself as -> ->.
  destruct (_parent n) as [p|] eqn:Hp.
  - injection H as -> ->. by exists n.
  - destruct (_ || _); [discriminate |].
    apply bind_return in H as (p & w2 & _ & H).
    apply bind_return in H as ([] & w3 & Hset & H).
    injection H as -> ->.
    unfold AsyncFsObj.set_parent in Hset.
    apply bind_return in Hset as (n2 & w4 & Hself & Hset).
    unfold AsyncFsObj.self in Hself.
    destruct (heap w2 !! this) as [n3|] eqn:Hn2; [| discriminate].
    injection Hself as -> ->. injection Hset as <-.
    eexists. cbn [heap AsyncFsObj.set_heap].
    split; [apply list_lookup_insert_eq; by eapply lookup_lt_Some |].
    reflexivity.
Qed.

(** The parent of a node is memoized for good: once [parent] has returned
    a node, it returns that same reference, and changes nothing, after any
    further lookups, operations and changes of the file system. *)
Theorem parent_memoized (ed : Edition) (this : nat) (w : world) (h : hit)
    (later : list call) :
  fst (AsyncFsObj.parent this w) = Return h →
  let w' := run_calls ed later (snd (AsyncFsObj.parent this w)) in
  AsyncFsObj.parent this w' = (Return h, w').
Proof.
  intros H. cbv zeta.
  destruct (AsyncFsObj.parent this w) as [r w1] eqn:Hrun.
  cbn [fst snd] in *. subst r.
  destruct (parent_return _ _ _ _ Hrun) as (n1 & Hn1 & Hp1).
  destruct (run_calls_node_kept ed later w1 this n1 Hn1)
    as (n2 & Hn2 & _ & Hp2 & _).
  unfold AsyncFsObj.parent, bind, AsyncFsObj.self.
  by rewrite Hn2, (Hp2 h Hp1).
Qed.

Lemma parent_memoized_witness :
  fst (AsyncFsObj.parent 0 (async_node_at example_os "/tmp/d/a"))
    = Return (Node 1) ∧
  let w' :=
    run_calls Plain [call_stat 0; call_mkdir 1 (Some "sub"); call_children 1]
      (snd (AsyncFsObj.parent 0 (async_node_at example_os "/tmp/d/a"))) in
  AsyncFsObj.parent 0 w' = (Return (Node 1), w').
Proof.
  assert (H : fst (AsyncFsObj.parent 0 (async_node_at example_os "/tmp/d/a"))
              = Return (Node 1)) by (vm_compute; reflexivity).
  split; [exact H |].
  exact (parent_memoized Plain 0 (async_node_at example_os "/tmp/d/a") (Node 1)
           [call_stat 0; call_mkdir 1 (Some "sub"); call_children 1] H).
Defined.

(** ** Listing with a filter *)

(** A filter whose verdict depends on the element only keeps, in their
    order, the elements it accepts. *)
Lemma filterM_verdicts {S A : Type} (f : A → M S bool) (g : A → bool) :
  (∀ x s, fst (f x s) = Return (g x)) →
  ∀ (l : list A) (s : S), fst (filterM f l s) = Return (List.filter g l).
Proof.
  intros Hf l. induction l as [|x l IH]; intros s; [reflexivity |].
  cbn [filterM List.filter]. unfold bind at 1.
  specialize (Hf x s). destruct (f x s) as [r s1]. cbn [fst] in Hf. subst r.
  unfold bind at 1. specialize (IH s1).
  destruct (filterM f l s1) as [r s2]. cbn [fst] in IH. subst r.
  reflexivity.
Qed.

(** [children(filter)], for a filter whose verdict depends on the node
    only: where [children()] returns a listing, [children(filter)] returns
    the nodes of that listing the filter accepts, all of them and no other,
    in the same order; where [children()] throws, so does
    [children(filter)], with the same error. *)
Theorem children_filter_exact (ed : Edition) (this : nat)
    (f : hit → M world bool) (g : hit → bool) (w : world) :
  (∀ h s, fst (f h s) = Return (g h)) →
  fst (AsyncFsObj.children ed this (Some f) w) =
    match fst (AsyncFsObj.children ed this None w) with
    | Return l => Return (List.filter g l)
    | Throw e => Throw e
    end.
Proof.
  intros Hf. unfold AsyncFsObj.children, bind.
  destruct (AsyncFsObj.type this w) as [[t|e] w1]; [| reflexivity].
  destruct t; try (by destruct (strict_test ed)).
  destruct (AsyncFsObj.getBoundMethod this m_readdir w1) as [[func|e] w2];
    [| reflexivity].
  destruct (AsyncFsObj.attempt (VNames []) (func NoArgs) w2) as [[r|e] w3];
    [| reflexivity].
  destruct (error r); [reflexivity |].
  destruct (data r) as [| | |names|]; try reflexivity.
  destruct names as [|name names]; [reflexivity |].
  match goal with
  | |- context [mapM ?k ?l ?s] =>
      destruct (mapM k l s) as [[list|e] w4]; [| reflexivity]
  end.
  cbn [ret fst]. by apply filterM_verdicts.
Qed.

Lemma children_filter_exact_witness :
  let accepts (h : hit) := bool_decide (h = Node 1) in
  let filter (h : hit) : M world bool := ret (accepts h) in
  (∀ h s, fst (filter h s) = Return (accepts h)) ∧
  fst (AsyncFsObj.children Typed 0 (Some filter)
         (async_node_at example_os "/home/user")) =
    match fst (AsyncFsObj.children Typed 0 None
                 (async_node_at example_os "/home/user")) with
    | Return l => Return (List.filter accepts l)
    | Throw e => Throw e
    end.
Proof.
  cbv zeta.
  assert (H : ∀ (h : hit) (s : world),
            fst (ret (bool_decide (h = Node 1)) s)
              = Return (bool_decide (h = Node 1)))
    by (intros h s; reflexivity).
  split; [exact H |].
  exact (children_filter_exact Typed 0
           (fun h => ret (bool_decide (h = Node 1)))
           (fun h => bool_decide (h = Node 1))
           (async_node_at example_os "/home/user") H).
Defined.

(** ** Reads of the asynchronous variant when no fault is scheduled *)

(** An attempt at a call that leaves the system as it is: the second try
    that follows a transient failure fails as the first did. *)
Lemma attempt_idle (fallback : osval) (func : os → (osval + Error) * os)
    (w : world) (r : osval + Error) :
  func (sys w) = (r, sys w) →
  AsyncFsObj.attempt fallback func w =
    (Return (match r with
             | inl v => {| data := v; error := None |}
             | inr e => {| data := fallback; error := Some e |}
             end), w).
Proof.
  intros H. unfold AsyncFsObj.attempt, attemptFileOperation, rejecting.
  cbn [attempt_loop]. rewrite H. destruct r as [v|e].
  - by destruct w.
  - destruct (is_transient e) eqn:Ht; [rewrite H, Ht |]; by destruct w.
Qed.

Lemma async_stat_no_fault (this : nat) (w : world) (n : AsyncFsObj) :
  heap w !! this = Some n → os_faults (sys w) = [] →
  AsyncFsObj.stat this w =
    match Os.entry (sys w) (Os.key (sys w) (_path n)) with
    | Some e =>
        (Return (Some (Os.stats_of e)),
         AsyncFsObj.set_heap w
           (<[this := {| _path := _path n;
                         cachedStat := Some (Os.stats_of e);
                         _parent := _parent n |}]> (heap w)))
    | None => (Return None, w)
    end.
Proof.
  intros Hn Hf.
  unfold AsyncFsObj.stat, AsyncFsObj.getBoundMethod.
  unfold bind at 1. unfold bind at 1. unfold AsyncFsObj.self at 1.
  rewrite Hn. cbn [ret]. unfold bind at 1.
  rewrite (attempt_idle VNull (fs_promises m_stat (_path n) NoArgs) w
             (match Os.entry (sys w) (Os.key (sys w) (_path n)) with
              | Some e => inl (VStats (Os.stats_of e))
              | None => inr (Os.missing (sys w) (Os.key (sys w) (_path n)))
              end)).
  - destruct (Os.entry (sys w) (Os.key (sys w) (_path n))) as [e|];
      cbn [error data]; [| reflexivity].
    unfold bind, AsyncFsObj.set_cachedStat, bind, AsyncFsObj.self.
    by rewrite Hn.
  - cbn [fs_promises]. rewrite stat_no_fault by exact Hf.
    by destruct (Os.entry (sys w) (Os.key (sys w) (_path n))).
Qed.



(** In the plain edition [data()] never gives the bytes of a file: it
    throws or gives [null]. *)
Theorem data_plain_gives_no_bytes (this : nat) (w : world) :
  match fst (AsyncFsObj.data Plain this w) with
  | Return r => r = r_null
  | Throw _ => True
  end.
Proof.
  unfold AsyncFsObj.data. unfold bind at 1.
  destruct (AsyncFsObj.file this w) as [[f|e] w1]; [| exact I].
  cbn [strict_test].
  destruct (negb (AsyncFsObj.truthy f)); [exact I |].
  unfold bind at 1.
  destruct (AsyncFsObj.getBoundMethod this m_readFile w1) as [[func|e] w2];
    [| exact I].
  unfold bind at 1.
  destruct (AsyncFsObj.attempt VNull (func NoArgs) w2) as [[r|e] w3];
    [| exact I].
  destruct (error r); [exact I |]. by destruct (data r).
Qed.

(** ** Directory creation under a name *)

(** [mkdir(name)] with a separator in the name creates nothing: it throws,
    and every file and directory is left as it was. *)
Theorem mkdir_rejects_separators (ed : Edition) (this : nat) (name : string)
    (w : world) :
  Str.includes name "/" || Str.includes name "\" = true →
  (∃ e, fst (AsyncFsObj.mkdir ed this (Some name) w) = Throw e) ∧
  os_files (sys (snd (AsyncFsObj.mkdir ed this (Some name) w)))
    = os_files (sys w).
Proof.
  intros H. destruct name as [|a name]; [discriminate |].
  cbn [AsyncFsObj.mkdir Str.is_empty]. rewrite H. unfold bind.
  pose proof (type_files_kept this w) as Hkept.
  destruct (AsyncFsObj.type this w) as [[t|e] w1]; cbn [fst snd] in *;
    (split; [by eexists | exact Hkept]).
Qed.

Lemma mkdir_rejects_separators_witness :
  Str.includes "a/b" "/" || Str.includes "a/b" "\" = true ∧
  (∃ e, fst (AsyncFsObj.mkdir Typed 0 (Some "a/b")
               (async_node_at example_os "/tmp/d")) = Throw e) ∧
  os_files (sys (snd (AsyncFsObj.mkdir Typed 0 (Some "a/b")
                        (async_node_at example_os "/tmp/d"))))
    = os_files (sys (async_node_at example_os "/tmp/d")).
Proof.
  split; [reflexivity |].
  apply (mkdir_rejects_separators Typed 0 "a/b"
           (async_node_at example_os "/tmp/d")).
  reflexivity.
Defined.

(** ** Names and extensions *)

Lemma split_last_no_sep (c : ascii) (s : string) :
  contains_char c (default EmptyString (last (Str.split c s))) = false.
Proof.
  pose proof (split_keeps c c s (or_introl eq_refl)) as H.
  destruct (last (Str.split c s)) as [x|] eqn:Hlast; [| reflexivity].
  cbn [default]. rewrite Forall_forall in H. apply H.
  by eapply last_Some_elem_of.
Qed.

(** The segments of a string and the position of its last separator. *)
Lemma split_lastIndexOf (c : ascii) (s : string) :
  match Str.lastIndexOf c s with
  | None => Str.split c s = [s]
  | Some i =>
      ∃ h t, Str.split c s = h :: t ∧
             last t = Some (Str.substring_from (S i) s)
  end.
Proof.
  induction s as [|a s IH]; [reflexivity |].
  cbn [Str.lastIndexOf Str.split].
  destruct (Str.lastIndexOf c s) as [i|].
  - destruct IH as (h & t & Hsplit & Hlast). rewrite Hsplit.
    destruct (Ascii.eqb a c).
    + exists EmptyString, (h :: t). split; [reflexivity |].
      cbn [Str.substring_from].
      destruct t as [|x t]; [discriminate |]. exact Hlast.
    + exists (String a h), t. split; [reflexivity | exact Hlast].
  - rewrite IH. destruct (Ascii.eqb a c); [| reflexivity].
    by exists EmptyString, [s].
Qed.

(** The name of a node holds no slash in either variant, and the two
    variants agree on the extension up to case: the synchronous [ext] is
    the asynchronous [ext] in lower case (empty when the name holds no
    dot). *)
Theorem name_and_ext_agree (a : AsyncFsObj) (s : FsObj) :
  _path a = path s →
  SyncFs.name s = AsyncFsObj.name a ∧
  Str.includes (AsyncFsObj.name a) "/" = false ∧
  SyncFs.ext s = Str.toLowerCase (AsyncFsObj.ext a) ∧
  Str.includes (AsyncFsObj.ext a) "." = false.
Proof.
  intros Hpath.
  assert (Hname : SyncFs.name s = AsyncFsObj.name a).
  { unfold SyncFs.name, AsyncFsObj.name. by rewrite Hpath. }
  split; [exact Hname |].
  split; [apply (split_last_no_sep "/") |].
  unfold SyncFs.ext, SyncFs.extension, AsyncFsObj.ext. rewrite Hname.
  pose proof (split_lastIndexOf "." (AsyncFsObj.name a)) as H.
  pose proof (split_keeps "." "." (AsyncFsObj.name a) (or_introl eq_refl))
    as Hdots.
  destruct (Str.lastIndexOf "." (AsyncFsObj.name a)) as [i|].
  - destruct H as (h & t & Hsplit & Hlast). rewrite Hsplit in *.
    cbn [drop]. rewrite fmap_last, drop_0, Hlast.
    split; [reflexivity |].
    apply Forall_cons in Hdots as [_ Hdots]. rewrite Forall_forall in Hdots.
    apply Hdots. by eapply last_Some_elem_of.
  - rewrite H. split; reflexivity.
Qed.

Lemma name_and_ext_agree_witness :
  _path (AsyncFsObj.constructor "/tmp/d/Archive.TAR.GZ")
    = path {| path := "/tmp/d/Archive.TAR.GZ"; hidden_stat := None;
              hidden_data := None; hidden_children := None |} ∧
  SyncFs.name {| path := "/tmp/d/Archive.TAR.GZ"; hidden_stat := None;
                 hidden_data := None; hidden_children := None |}
    = AsyncFsObj.name (AsyncFsObj.constructor "/tmp/d/Archive.TAR.GZ") ∧
  Str.includes (AsyncFsObj.name (AsyncFsObj.constructor "/tmp/d/Archive.TAR.GZ"))
    "/" = false ∧
  SyncFs.ext {| path := "/tmp/d/Archive.TAR.GZ"; hidden_stat := None;
                hidden_data := None; hidden_children := None |}
    = Str.toLowerCase
        (AsyncFsObj.ext (AsyncFsObj.constructor "/tmp/d/Archive.TAR.GZ")) ∧
  Str.includes (AsyncFsObj.ext (AsyncFsObj.constructor "/tmp/d/Archive.TAR.GZ"))
    "." = false.
Proof.
  split; [reflexivity |].
  apply (name_and_ext_agree (AsyncFsObj.constructor "/tmp/d/Archive.TAR.GZ")
           {| path := "/tmp/d/Archive.TAR.GZ"; hidden_stat := None;
              hidden_data := None; hidden_children := None |}).
  reflexivity.
Defined.

(** ** The path of the synchronous variant *)

Lemma remove_char_absent (c : ascii) (s : string) :
  contains_char c (Str.remove_char c s) = false.
Proof.
  induction s as [|a s IH]; [reflexivity |]. cbn [Str.remove_char].
  destruct (Ascii.eqb a c) eqn:Hac; [exact IH |].
  by rewrite contains_char_cons, Hac, IH.
Qed.

Lemma substring_from_keeps (c : ascii) (n : nat) (s : string) :
  contains_char c s = false → contains_char c (Str.substring_from n s) = false.
Proof.
  revert n. induction s as [|a s IH]; intros n; [by destruct n |].
  intros H. destruct n as [|n]; [exact H |].
  rewrite contains_char_cons in H. apply orb_false_elim in H as [_ Hs].
  cbn [Str.substring_from]. by apply IH.
Qed.

(** Whatever its string arguments, [fsPath] gives a path without a
    backslash and without a question mark. *)
Theorem fsPath_clean (args : list string) :
  Str.includes (SyncFs.fsPath args) "\" = false ∧
  Str.includes (SyncFs.fsPath args) "?" = false.
Proof.
  assert (H : ∀ c, c = "\"%char ∨ c = "?"%char →
    contains_char c (SyncFs.fsPath args) = false).
  { intros c Hc. unfold SyncFs.fsPath. cbv zeta.
    set (p0 := Str.remove_char "?" _).
    assert (H0 : contains_char c p0 = false).
    { destruct Hc as [-> | ->].
      - apply remove_char_keeps, collapse_from_keeps.
        by apply replace_char_absent.
      - apply remove_char_absent. }
    set (p1 := if Str.endsWith p0 "/" then _ else p0).
    assert (H1 : contains_char c p1 = false).
    { unfold p1. destruct (Str.endsWith p0 "/"); [| exact H0].
      by apply substring_to_keeps. }
    destruct (bool_decide _); [by destruct Hc as [-> | ->] |].
    set (p2 := if Str.startsWith p1 "//" then _ else p1).
    assert (H2 : contains_char c p2 = false).
    { unfold p2. destruct (Str.startsWith p1 "//"); [| exact H1].
      by apply substring_from_keeps. }
    destruct (Str.startsWith p2 "./"); [| exact H2].
    by apply substring_from_keeps. }
  split; apply H; [by left | by right].
Qed.

(** ** [getPathType] *)



(** ** The cached stat of the synchronous variant *)

Lemma sync_self_run (this : nat) (w : sworld) (n : FsObj) :
  objs w !! this = Some n → SyncFs.self this w = (Return n, w).
Proof. intros H. unfold SyncFs.self. by rewrite H. Qed.

Lemma sync_update_run (this : nat) (f : FsObj → FsObj) (w : sworld) (n : FsObj) :
  objs w !! this = Some n →
  SyncFs.update this f w =
    (Return tt, SyncFs.set_objs w (<[this := f n]> (objs w))).
Proof. intros H. unfold SyncFs.update, bind, SyncFs.self. by rewrite H. Qed.

(** A read of the stat that is answered from the node's entry: nothing is
    asked of the file system and nothing changes. *)
Lemma getCachedStat_hit (this : nat) (maxAge stamp : Z) (w : sworld)
    (n : FsObj) (d : Ttl.payload Stats) :
  objs w !! this = Some n →
  hidden_stat n = Some {| Ttl.data := d; Ttl.time := Some (Js.Num stamp) |} →
  storable d → stamp ≠ 0 → 0 ≤ maxAge → clock w < stamp + maxAge →
  SyncFs.getCachedStat this maxAge w = (Return (Some d), w).
Proof.
  intros Hn Hstat Hd Hstamp Hage Hfresh.
  unfold SyncFs.getCachedStat. unfold bind at 1.
  rewrite (sync_self_run this w n Hn). unfold bind at 1.
  rewrite Hstat. unfold Ttl.cacheOrGenerate.
  cbn [SyncFs.as_cached Ttl.time Ttl.data Ttl.falsy_number Ttl.bad_age
    Ttl.defaulted].
  assert (Hz : (stamp =? 0) = false) by lia.
  assert (Hneg : (maxAge <? 0) = false) by lia.
  assert (Hlt : (clock w <? stamp + maxAge) = true) by lia.
  rewrite Hz, Hneg, Hlt. cbn [orb Ttl.data].
  assert (Hsame : SyncFs.set_objs w
            (<[this := SyncFs.set_hidden_stat
                         (Some {| Ttl.data := d;
                                  Ttl.time := Some (Js.Num stamp) |}) n]>
               (objs w)) = w).
  { assert (Hnode : SyncFs.set_hidden_stat
              (Some {| Ttl.data := d; Ttl.time := Some (Js.Num stamp) |}) n = n).
    { destruct n as [p s dt c]. cbn in Hstat. subst s. reflexivity. }
    rewrite Hnode, list_insert_id by exact Hn. by destruct w. }
  destruct d as [s|e]; cbn [storable] in Hd.
  - unfold bind. rewrite (sync_update_run this _ w n Hn), Hsame. reflexivity.
  - rewrite Hd. unfold bind.
    rewrite (sync_update_run this _ w n Hn), Hsame. reflexivity.
Qed.

(** A read of the stat with nothing cached that gives something has
    stored it under the time of the read. *)
Lemma getCachedStat_first (this : nat) (maxAge : Z) (w w1 : sworld)
    (n : FsObj) (d : Ttl.payload Stats) :
  objs w !! this = Some n → hidden_stat n = None →
  SyncFs.getCachedStat this maxAge w = (Return (Some d), w1) →
  storable d ∧ clock w1 = clock w ∧ cache w1 = cache w ∧
  objs w1 =
    <[this := SyncFs.set_hidden_stat
                (Some {| Ttl.data := d; Ttl.time := Some (Js.Num (clock w)) |})
                n]> (objs w).
Proof.
  intros Hn Hstat H.
  unfold SyncFs.getCachedStat in H. unfold bind at 1 in H.
  rewrite (sync_self_run this w n Hn) in H. unfold bind at 1 in H.
  rewrite Hstat in H. unfold Ttl.cacheOrGenerate in H.
  cbn [SyncFs.as_cached] in H. unfold Ttl.regenerate, SyncFs.generating in H.
  destruct (Os.stat (path n) (s_sys w)) as [[s|e] o]; cbn [Ttl.data] in H.
  - unfold bind in H.
    rewrite (sync_update_run this _ (SyncFs.set_sys w o) n Hn) in H.
    injection H as <- <-. by repeat split.
  - destruct (SyncFs.is_enoent e) eqn:He; [discriminate |].
    unfold bind in H.
    rewrite (sync_update_run this _ (SyncFs.set_sys w o) n Hn) in H.
    injection H as <- <-. by repeat split.
Qed.

(** Once the stat of a node has been read from the file system, every read
    before the maximal age has elapsed is answered from the node: it gives
    the same stats (or the same stored error), asks nothing of the file
    system and changes nothing, whatever has become of the file system in
    the meantime. *)
Theorem stat_served_from_cache (this : nat) (maxAge again δ : Z)
    (w w1 : sworld) (n : FsObj) (d : Ttl.payload Stats) (o : os) :
  objs w !! this = Some n → hidden_stat n = None → clock w ≠ 0 →
  SyncFs.getCachedStat this maxAge w = (Return (Some d), w1) →
  0 ≤ δ < again →
  SyncFs.getCachedStat this again (later δ o w1) =
    (Return (Some d), later δ o w1).
Proof.
  intros Hn Hstat Hclock H Hδ.
  destruct (getCachedStat_first _ _ _ _ _ _ Hn Hstat H)
    as (Hd & Hc & _ & Hobjs).
  eapply (getCachedStat_hit this again (clock w)); try done; try lia.
  - cbn [objs later]. rewrite Hobjs.
    apply list_lookup_insert_eq. by eapply lookup_lt_Some.
  - reflexivity.
  - cbn [clock later]. lia.
Qed.

Lemma stat_served_from_cache_witness :
  objs (sync_node_at example_os 1000 "notes.txt") !! 0%nat
    = Some {| path := "notes.txt"; hidden_stat := None; hidden_data := None;
              hidden_children := None |} ∧
  hidden_stat {| path := "notes.txt"; hidden_stat := None; hidden_data := None;
                 hidden_children := None |} = None ∧
  clock (sync_node_at example_os 1000 "notes.txt") ≠ 0 ∧
  SyncFs.getCachedStat 0 100 (sync_node_at example_os 1000 "notes.txt") =
    (Return (Some (Ttl.p_value {| st_kind := KFile; st_size := 3 |})),
     snd (SyncFs.getCachedStat 0 100 (sync_node_at example_os 1000 "notes.txt"))) ∧
  0 ≤ 99 < 100 ∧
  SyncFs.getCachedStat 0 100
    (later 99 (Os.set_files example_os ∅)
       (snd (SyncFs.getCachedStat 0 100
               (sync_node_at example_os 1000 "notes.txt")))) =
    (Return (Some (Ttl.p_value {| st_kind := KFile; st_size := 3 |})),
     later 99 (Os.set_files example_os ∅)
       (snd (SyncFs.getCachedStat 0 100
               (sync_node_at example_os 1000 "notes.txt")))).
Proof.
  assert (H3 : clock (sync_node_at example_os 1000 "notes.txt") ≠ 0)
    by (simpl; lia).
  assert (H4 : SyncFs.getCachedStat 0 100 (sync_node_at example_os 1000 "notes.txt") =
    (Return (Some (Ttl.p_value {| st_kind := KFile; st_size := 3 |})),
     snd (SyncFs.getCachedStat 0 100 (sync_node_at example_os 1000 "notes.txt"))))
    by (vm_compute; reflexivity).
  assert (H5 : 0 ≤ 99 < 100) by lia.
  split; [reflexivity |]. split; [reflexivity |]. split; [exact H3 |].
  split; [exact H4 |]. split; [exact H5 |].
  exact (stat_served_from_cache 0 100 100 99
           (sync_node_at example_os 1000 "notes.txt")
           (snd (SyncFs.getCachedStat 0 100
                   (sync_node_at example_os 1000 "notes.txt")))
           {| path := "notes.txt"; hidden_stat := None; hidden_data := None;
              hidden_children := None |}
           (Ttl.p_value {| st_kind := KFile; st_size := 3 |})
           (Os.set_files example_os ∅) eq_refl eq_refl H3 H4 H5).
Defined.



(** ** Files kept by the reads of the synchronous variant *)

Lemma cached_call_keeps {A : Type} (R : sworld → sworld → Prop)
    (cached : Ttl.cachedObj A)
    (generate : sworld → Ttl.generated A * sworld) (age : Ttl.age_arg) :
  (∀ w, R w w) → (∀ w, R w (snd (generate w))) →
  preserves R
    (fun w =>
       let '(entry, w') :=
         Ttl.cacheOrGenerate (clock w) cached generate age w in
       (Return entry, w')).
Proof.
  intros Hrefl Hg w.
  assert (Hregen : R w (snd (Ttl.regenerate (clock w) generate w))).
  { unfold Ttl.regenerate. specialize (Hg w). by destruct (generate w). }
  destruct (Ttl.cacheOrGenerate (clock w) cached generate age w)
    as [entry w'] eqn:E.
  cbn [snd].
  replace w' with (snd (Ttl.cacheOrGenerate (clock w) cached generate age w))
    by (by rewrite E).
  clear E. unfold Ttl.cacheOrGenerate.
  destruct cached as [|e|e]; try exact Hregen.
  destruct (_ || _); [exact Hregen |].
  destruct (match Ttl.time e with Some t => t | None => Js.Num 0 end);
    [exact Hregen |].
  destruct (Ttl.defaulted age) as [[|m]|]; try exact Hregen.
  destruct (_ <? _); [apply Hrefl | exact Hregen].
Qed.

Lemma sync_files_kept_refl (w : sworld) : sync_files_kept w w.
Proof. reflexivity. Qed.

Lemma sync_files_kept_trans (a b c : sworld) :
  sync_files_kept a b → sync_files_kept b c → sync_files_kept a c.
Proof. unfold sync_files_kept. congruence. Qed.

Lemma sync_self_files (this : nat) :
  preserves sync_files_kept (SyncFs.self this).
Proof. intros w. unfold SyncFs.self. by destruct (objs w !! this). Qed.

Lemma sync_update_files (this : nat) (f : FsObj → FsObj) :
  preserves sync_files_kept (SyncFs.update this f).
Proof.
  intros w. unfold SyncFs.update, bind, SyncFs.self.
  by destruct (objs w !! this).
Qed.

Lemma sync_generating_files {A : Type} (f : os → (A + Error) * os) :
  reads_only f → ∀ w, sync_files_kept w (snd (SyncFs.generating f w)).
Proof.
  intros Hf w. unfold SyncFs.generating. specialize (Hf (s_sys w)).
  by destruct (f (s_sys w)) as [[a|e] o].
Qed.

Lemma sync_getCachedStat_files (this : nat) (maxAge : Z) :
  preserves sync_files_kept (SyncFs.getCachedStat this maxAge).
Proof.
  unfold SyncFs.getCachedStat.
  repeat first
    [ apply sync_self_files
    | apply sync_update_files
    | apply cached_call_keeps;
        [apply sync_files_kept_refl
        | apply sync_generating_files, stat_reads_only]
    | keep_step sync_files_kept_refl sync_files_kept_trans ].
Qed.

Lemma sync_type_files (this : nat) : preserves sync_files_kept (SyncFs.type this).
Proof.
  unfold SyncFs.type.
  apply (preserves_bind _ sync_files_kept_trans);
    [apply sync_getCachedStat_files | intros s].
  apply (preserves_ret _ sync_files_kept_refl).
Qed.

(** ** Nodes right below the working directory or the root *)

Lemma split_no_sep (c : ascii) (s : string) :
  contains_char c s = false → Str.split c s = [s].
Proof.
  induction s as [|a s IH]; [reflexivity |].
  rewrite contains_char_cons. intros H. apply orb_false_elim in H as [Ha Hs].
  cbn [Str.split]. by rewrite Ha, (IH Hs).
Qed.

Lemma fromFs_root (w : sworld) :
  SyncFs.fromFs ["/"] w = (Throw (plain_error "Invalid path"), w).
Proof. reflexivity. Qed.

Lemma parent_top_level (this : nat) (w : sworld) (n : FsObj) :
  objs w !! this = Some n →
  Str.includes (Str.substring_from 1 (path n)) "/" = false →
  SyncFs.parent this w = (Throw (plain_error "Invalid path"), w).
Proof.
  intros Hn Htop. unfold SyncFs.parent, bind.
  rewrite (sync_self_run this w n Hn).
  assert (Hjoined :
    Str.join "/" (take (length (Str.split "/" (path n)) - 1)
                    (Str.split "/" (path n))) = EmptyString).
  { destruct (path n) as [|a r]; [reflexivity |].
    cbn [Str.substring_from] in Htop. cbn [Str.split].
    rewrite (split_no_sep "/" r Htop).
    by destruct (Ascii.eqb a "/"). }
  rewrite Hjoined. apply fromFs_root.
Qed.

Lemma bind_throws {S A B : Type} (m : M S A) (k : A → M S B) (s s' : S)
    (e : Error) :
  m s = (Throw e, s') → bind m k s = (Throw e, s').
Proof. intros H. unfold bind. by rewrite H. Qed.

Lemma writeToFsObj_top_level (this : nat) (isAppend : bool)
    (value : string + list Byte.byte) (overwrite : bool) (w : sworld)
    (n : FsObj) :
  objs w !! this = Some n →
  Str.includes (Str.substring_from 1 (path n)) "/" = false →
  ∃ e w', SyncFs.writeToFsObj this isAppend value overwrite w = (Throw e, w') ∧
          sync_files_kept w w'.
Proof.
  intros Hn Htop. unfold SyncFs.writeToFsObj. cbv zeta.
  unfold bind at 1.
  pose proof (sync_type_files this w) as Hfiles.
  pose proof (type_kept this w) as (_ & _ & Hnodes).
  destruct (SyncFs.type this w) as [[t|e] w1]; cbn [snd] in *;
    [| by exists e, w1].
  destruct (Hnodes this n Hn) as (n1 & Hn1 & Hp1 & _).
  rewrite <- Hp1 in Htop.
  erewrite bind_throws;
    [| unfold SyncFs.parent_type;
       apply bind_throws, (parent_top_level this w1 n1 Hn1 Htop)].
  by eexists _, w1.
Qed.

(** A node whose path holds no slash after its first character (a name
    taken relative to the working directory, or one right below the root)
    has no parent to look up: [parent] throws "Invalid path". As a write and
    an append look the parent up first, they throw on such a node, whatever
    the value and the flag, and leave every file as it was. *)
Theorem top_level_node_cannot_be_written (this : nat) (w : sworld) (n : FsObj)
    (value : string + list Byte.byte) (overwrite : bool) :
  objs w !! this = Some n →
  Str.includes (Str.substring_from 1 (path n)) "/" = false →
  SyncFs.parent this w = (Throw (plain_error "Invalid path"), w) ∧
  (∃ e, fst (SyncFs.writeFunc this value overwrite w) = Throw e) ∧
  os_files (s_sys (snd (SyncFs.writeFunc this value overwrite w)))
    = os_files (s_sys w) ∧
  (∃ e, fst (SyncFs.appendFunc this value overwrite w) = Throw e) ∧
  os_files (s_sys (snd (SyncFs.appendFunc this value overwrite w)))
    = os_files (s_sys w).
Proof.
  intros Hn Htop. split; [by eapply parent_top_level |].
  pose proof (sync_getCachedStat_files this 100 w) as Hfiles.
  pose proof (getCachedStat_kept this 100 w) as (_ & _ & Hnodes).
  assert (Hwrite :
    ∃ e w', SyncFs.writeFunc this value overwrite w = (Throw e, w') ∧
            sync_files_kept w w').
  { unfold SyncFs.writeFunc. unfold bind at 1.
    destruct (SyncFs.getCachedStat this 100 w) as [[s|e] w1]; cbn [snd] in *;
      [| by exists e, w1].
    destruct (Hnodes this n Hn) as (n1 & Hn1 & Hp1 & _).
    unfold bind at 1.
    destruct (SyncFs.check_isDirectory s w1) as [[dir|e] w2] eqn:Hdir;
      apply check_isDirectory_state in Hdir as ->;
      [| by exists e, w1].
    unfold bind at 1. rewrite (sync_update_run this _ w1 n1 Hn1).
    set (w3 := SyncFs.set_objs w1 _).
    assert (Hn3 : objs w3 !! this = Some (SyncFs.set_hidden_data None n1))
      by (apply list_lookup_insert_eq; by eapply lookup_lt_Some).
    destruct (writeToFsObj_top_level this false value overwrite w3 _ Hn3)
      as (e & w4 & Hrun & Hkept);
      [cbn [path SyncFs.set_hidden_data]; by rewrite Hp1 |].
    rewrite (bind_throws _ _ _ _ _ Hrun).
    exists e, w4. split; [reflexivity |].
    unfold sync_files_kept in *. by rewrite Hkept. }
  assert (Happend :
    ∃ e w', SyncFs.appendFunc this value overwrite w = (Throw e, w') ∧
            sync_files_kept w w').
  { unfold SyncFs.appendFunc. unfold bind at 1.
    destruct (SyncFs.getCachedStat this 100 w) as [[s|e] w1]; cbn [snd] in *;
      [| by exists e, w1].
    destruct (Hnodes this n Hn) as (n1 & Hn1 & Hp1 & _).
    destruct (writeToFsObj_top_level this true value overwrite w1 _ Hn1)
      as (e & w4 & Hrun & Hkept); [by rewrite Hp1 |].
    rewrite (bind_throws _ _ _ _ _ Hrun).
    exists e, w4. split; [reflexivity |].
    unfold sync_files_kept in *. by rewrite Hkept. }
  destruct Hwrite as (e1 & w1 & -> & H1), Happend as (e2 & w2 & -> & H2).
  cbn [fst snd]. split; [by eexists |]. split; [exact H1 |].
  split; [by eexists | exact H2].
Qed.

Lemma top_level_node_cannot_be_written_witness :
  objs (sync_node_at example_os 1000 "notes.txt") !! 0%nat
    = Some {| path := "notes.txt"; hidden_stat := None; hidden_data := None;
              hidden_children := None |} ∧
  Str.includes
    (Str.substring_from 1
       (path {| path := "notes.txt"; hidden_stat := None; hidden_data := None;
                hidden_children := None |})) "/" = false ∧
  SyncFs.parent 0 (sync_node_at example_os 1000 "notes.txt") =
    (Throw (plain_error "Invalid path"),
     sync_node_at example_os 1000 "notes.txt") ∧
  (∃ e, fst (SyncFs.writeFunc 0 (inl "new") true
               (sync_node_at example_os 1000 "notes.txt")) = Throw e) ∧
  os_files (s_sys (snd (SyncFs.writeFunc 0 (inl "new") true
                          (sync_node_at example_os 1000 "notes.txt"))))
    = os_files (s_sys (sync_node_at example_os 1000 "notes.txt")) ∧
  (∃ e, fst (SyncFs.appendFunc 0 (inl "new") true
               (sync_node_at example_os 1000 "notes.txt")) = Throw e) ∧
  os_files (s_sys (snd (SyncFs.appendFunc 0 (inl "new") true
                          (sync_node_at example_os 1000 "notes.txt"))))
    = os_files (s_sys (sync_node_at example_os 1000 "notes.txt")).
Proof.
  split; [reflexivity |]. split; [reflexivity |].
  exact (top_level_node_cannot_be_written 0
           (sync_node_at example_os 1000 "notes.txt")
           {| path := "notes.txt"; hidden_stat := None; hidden_data := None;
              hidden_children := None |}
           (inl "new") true eq_refl eq_refl).
Defined.

(** ** The object cache of the synchronous variant *)

Lemma sgrows_refl (w : sworld) : sync_grows w w.
Proof. split; [intros l n H; by exists n | by intros p l H]. Qed.

Lemma sgrows_trans (a b c : sworld) :
  sync_grows a b → sync_grows b c → sync_grows a c.
Proof.
  intros [Hab1 Hab2] [Hbc1 Hbc2]. split.
  - intros l n Hl. destruct (Hab1 l n Hl) as (n1 & Hl1 & Hp1).
    destruct (Hbc1 l n1 Hl1) as (n2 & Hl2 & Hp2). exists n2.
    split; [exact Hl2 | congruence].
  - intros p l Hp. by apply Hbc2, Hab2.
Qed.

Lemma sgrows_same (w w' : sworld) :
  objs w' = objs w → cache w' = cache w → sync_grows w w'.
Proof. intros Ho Hc. unfold sync_grows. rewrite Ho, Hc. apply sgrows_refl. Qed.

Lemma sgrows_self (this : nat) : preserves sync_grows (SyncFs.self this).
Proof.
  intros w. unfold SyncFs.self. destruct (objs w !! this); apply sgrows_refl.
Qed.

Lemma sgrows_update (this : nat) (f : FsObj → FsObj) :
  (∀ n, path (f n) = path n) → preserves sync_grows (SyncFs.update this f).
Proof.
  intros Hf w. unfold SyncFs.update, bind, SyncFs.self.
  destruct (objs w !! this) as [n|] eqn:Hn; cbn [snd]; [| apply sgrows_refl].
  split; [| by intros p l Hp].
  intros l m Hl. cbn [objs SyncFs.set_objs].
  destruct (decide (l = this)) as [-> | Hne].
  - exists (f n). assert (m = n) as -> by congruence.
    split; [apply list_lookup_insert_eq; by eapply lookup_lt_Some | apply Hf].
  - exists m. by rewrite list_lookup_insert_ne.
Qed.

Lemma sgrows_fromFs (args : list string) :
  preserves sync_grows (SyncFs.fromFs args).
Proof.
  intros w. unfold SyncFs.fromFs.
  destruct (_ || _); [apply sgrows_refl |].
  destruct (cache w !! SyncFs.fsPath args) eqn:Hc; [apply sgrows_refl |].
  destruct (inherited _); [apply sgrows_refl |].
  destruct (SyncFs.createFsObj _); [| apply sgrows_refl].
  split; cbn [snd objs cache].
  - intros l n Hl. exists n. split; [by apply lookup_app_l_Some | done].
  - intros p l Hp.
    destruct (decide (SyncFs.fsPath args = p)) as [<- | Hne]; [congruence |].
    by rewrite lookup_insert_ne.
Qed.

Lemma sgrows_sys_call {A : Type} (f : os → (A + Error) * os) :
  preserves sync_grows (SyncFs.sys_call f).
Proof.
  intros w. unfold SyncFs.sys_call.
  destruct (f (s_sys w)) as [[a|e] o]; by apply sgrows_same.
Qed.

Lemma sgrows_generating {A : Type} (f : os → (A + Error) * os) (w : sworld) :
  sync_grows w (snd (SyncFs.generating f w)).
Proof.
  unfold SyncFs.generating.
  destruct (f (s_sys w)) as [[a|e] o]; by apply sgrows_same.
Qed.

Lemma sgrows_generating_m {A : Type} (m : M sworld A) :
  preserves sync_grows m → ∀ w, sync_grows w (snd (SyncFs.generating_m m w)).
Proof.
  intros Hm w. unfold SyncFs.generating_m. specialize (Hm w).
  by destruct (m w) as [[a|e] w'].
Qed.

Lemma sgrows_rawPerformList (p : string) :
  preserves sync_grows (SyncFs.rawPerformList p).
Proof.
  intros w. unfold SyncFs.rawPerformList.
  destruct (Os.readdir p (s_sys w)) as [r o]. by apply sgrows_same.
Qed.

Ltac sgrows_step :=
  first
    [ apply sgrows_self
    | apply sgrows_update; intros ?; reflexivity
    | apply sgrows_fromFs
    | apply sgrows_sys_call
    | apply sgrows_rawPerformList
    | apply (cached_call_keeps sync_grows); [apply sgrows_refl | intros ?]
    | apply sgrows_generating
    | apply sgrows_generating_m
    | keep_step sgrows_refl sgrows_trans
    | match goal with
      | |- preserves _ (SyncFs.on_node ?h _) => destruct h; simpl
      | |- preserves _ SyncFs.type_error =>
          apply (preserves_throw _ sgrows_refl)
      end ].

Lemma sgrows_getCachedStat (this : nat) (maxAge : Z) :
  preserves sync_grows (SyncFs.getCachedStat this maxAge).
Proof. unfold SyncFs.getCachedStat. repeat sgrows_step. Qed.

Lemma sgrows_type (this : nat) : preserves sync_grows (SyncFs.type this).
Proof.
  unfold SyncFs.type. sgrows_step; [apply sgrows_getCachedStat |]. sgrows_step.
Qed.

Lemma sgrows_size_of (this : nat) : preserves sync_grows (SyncFs.size_of this).
Proof.
  unfold SyncFs.size_of. sgrows_step; [apply sgrows_getCachedStat |].
  repeat sgrows_step.
Qed.

Lemma sgrows_parent (this : nat) : preserves sync_grows (SyncFs.parent this).
Proof. unfold SyncFs.parent. repeat sgrows_step. Qed.

Lemma sgrows_type_of (h : hit) : preserves sync_grows (SyncFs.type_of h).
Proof.
  unfold SyncFs.type_of. destruct h; [| sgrows_step].
  sgrows_step; [apply sgrows_type | sgrows_step].
Qed.

Lemma sgrows_mkdirSync_at (h : hit) :
  preserves sync_grows (SyncFs.mkdirSync_at h).
Proof. unfold SyncFs.mkdirSync_at. repeat sgrows_step. Qed.

Lemma sgrows_parent_type (this : nat) :
  preserves sync_grows (SyncFs.parent_type this).
Proof.
  unfold SyncFs.parent_type. sgrows_step; [apply sgrows_parent |].
  apply sgrows_type_of.
Qed.

Lemma sgrows_grandparent (this : nat) :
  preserves sync_grows (SyncFs.grandparent this).
Proof.
  unfold SyncFs.grandparent. sgrows_step; [apply sgrows_parent |].
  sgrows_step; [apply sgrows_parent | sgrows_step].
Qed.

Ltac sgrows :=
  repeat first
    [ apply sgrows_getCachedStat | apply sgrows_type | apply sgrows_size_of
    | apply sgrows_parent | apply sgrows_type_of | apply sgrows_mkdirSync_at
    | apply sgrows_parent_type | apply sgrows_grandparent | sgrows_step ].

Lemma sgrows_writeToFsObj (this : nat) (isAppend : bool)
    (value : string + list Byte.byte) (overwrite : bool) :
  preserves sync_grows (SyncFs.writeToFsObj this isAppend value overwrite).
Proof. unfold SyncFs.writeToFsObj. sgrows. Qed.

Lemma sgrows_check_isDirectory (s : option (Ttl.payload Stats)) :
  preserves sync_grows (SyncFs.check_isDirectory s).
Proof. unfold SyncFs.check_isDirectory. sgrows. Qed.

Lemma sgrows_writeFunc (this : nat) (value : string + list Byte.byte)
    (overwrite : bool) :
  preserves sync_grows (SyncFs.writeFunc this value overwrite).
Proof.
  unfold SyncFs.writeFunc.
  repeat first
    [ apply sgrows_writeToFsObj | apply sgrows_check_isDirectory | sgrows ].
Qed.

Lemma sgrows_appendFunc (this : nat) (value : string + list Byte.byte)
    (overwrite : bool) :
  preserves sync_grows (SyncFs.appendFunc this value overwrite).
Proof.
  unfold SyncFs.appendFunc. repeat first [apply sgrows_writeToFsObj | sgrows].
Qed.

Lemma sgrows_stat (this : nat) : preserves sync_grows (SyncFs.stat this).
Proof. apply sgrows_getCachedStat. Qed.

Lemma sgrows_readFunc (this : nat) : preserves sync_grows (SyncFs.readFunc this).
Proof.
  unfold SyncFs.readFunc.
  repeat first
    [ apply sgrows_stat | apply sgrows_check_isDirectory | sgrows ].
Qed.

Lemma sgrows_children (this : nat) : preserves sync_grows (SyncFs.children this).
Proof.
  unfold SyncFs.children. repeat first [apply sgrows_stat | sgrows].
Qed.

Lemma sgrows_refuse_create {A : Type} (this : nat) :
  preserves sync_grows (@SyncFs.refuse_create A this).
Proof. unfold SyncFs.refuse_create. sgrows. Qed.

Lemma sgrows_createFunc (this : nat) :
  preserves sync_grows (SyncFs.createFunc this).
Proof.
  unfold SyncFs.createFunc. repeat first [apply sgrows_refuse_create | sgrows].
Qed.

Lemma sgrows_mkdirFunc (this : nat) (name : string) :
  preserves sync_grows (SyncFs.mkdirFunc this name).
Proof.
  unfold SyncFs.mkdirFunc. repeat first [apply sgrows_refuse_create | sgrows].
Qed.

Lemma run_sync_call_grows (c : sync_call) (w : sworld) :
  sync_grows w (run_sync_call c w).
Proof.
  destruct c; cbn [run_sync_call];
    first
      [ apply sgrows_fromFs | apply sgrows_stat | apply sgrows_type
      | apply sgrows_size_of | apply sgrows_parent | apply sgrows_readFunc
      | apply sgrows_children | apply sgrows_writeFunc
      | apply sgrows_appendFunc | apply sgrows_createFunc
      | apply sgrows_mkdirFunc | by apply sgrows_same ].
Qed.

Lemma run_sync_calls_grows (calls : list sync_call) (w : sworld) :
  sync_grows w (run_sync_calls calls w).
Proof.
  revert w. induction calls as [|c calls IH]; intros w; cbn.
  - apply sgrows_refl.
  - eapply sgrows_trans; [apply run_sync_call_grows | apply IH].
Qed.

Lemma fromFs_return (args : list string) (w w1 : sworld) (l : nat) :
  SyncFs.fromFs args w = (Return (Node l), w1) →
  cache w1 !! SyncFs.fsPath args = Some l ∧
  ∀ w', cache w' !! SyncFs.fsPath args = Some l →
        SyncFs.fromFs args w' = (Return (Node l), w').
Proof.
  unfold SyncFs.fromFs. destruct (_ || _); [discriminate |]. intros H.
  split.
  - destruct (cache w !! SyncFs.fsPath args) as [l0|] eqn:Hc.
    + by injection H as <- <-.
    + destruct (inherited _); [discriminate |].
      destruct (SyncFs.createFsObj _); [| discriminate].
      injection H as <- <-. cbn [cache]. apply lookup_insert_eq.
  - intros w' Hc. by rewrite Hc.
Qed.

(** The node [fromFs] gives for its arguments is the node it gives for
    them ever after: whatever the process does next (lookups, reads,
    writes, appends, directory creations on any node, time passing, changes
    made to the file system from outside), the same call gives the same
    reference and changes nothing, and the node found there has kept its
    path. *)
Theorem fromFs_same_node (args : list string) (w : sworld) (l : nat)
    (calls : list sync_call) :
  fst (SyncFs.fromFs args w) = Return (Node l) →
  let w1 := snd (SyncFs.fromFs args w) in
  let w' := run_sync_calls calls w1 in
  SyncFs.fromFs args w' = (Return (Node l), w') ∧
  ∀ n, objs w1 !! l = Some n →
       ∃ n', objs w' !! l = Some n' ∧ path n' = path n.
Proof.
  intros H. cbv zeta.
  destruct (SyncFs.fromFs args w) as [r w1] eqn:Hrun. cbn [fst snd] in *.
  subst r. destruct (fromFs_return _ _ _ _ Hrun) as [Hc Hagain].
  destruct (run_sync_calls_grows calls w1) as [Hnodes Hcache].
  split; [by apply Hagain, Hcache |]. intros n Hn. by apply Hnodes.
Qed.

Lemma fromFs_same_node_witness :
  fst (SyncFs.fromFs ["docs"; "notes.txt"] (fresh_sworld example_os 1000))
    = Return (Node 0) ∧
  let w1 := snd (SyncFs.fromFs ["docs"; "notes.txt"]
                   (fresh_sworld example_os 1000)) in
  let w' :=
    run_sync_calls
      [do_write 0 (inl "new") true; do_wait 500; do_parent 0; do_read 0] w1 in
  SyncFs.fromFs ["docs"; "notes.txt"] w' = (Return (Node 0), w') ∧
  ∀ n, objs w1 !! 0%nat = Some n →
       ∃ n', objs w' !! 0%nat = Some n' ∧ path n' = path n.
Proof.
  assert (H : fst (SyncFs.fromFs ["docs"; "notes.txt"]
                     (fresh_sworld example_os 1000)) = Return (Node 0))
    by (vm_compute; reflexivity).
  split; [exact H |].
  exact (fromFs_same_node ["docs"; "notes.txt"] (fresh_sworld example_os 1000) 0
           [do_write 0 (inl "new") true; do_wait 500; do_parent 0; do_read 0] H).
Defined.

(** ** What the reads of the synchronous variant keep *)

Lemma keeps_self (R : sworld → sworld → Prop) (K : sync_keeps R) (this : nat) :
  preserves R (SyncFs.self this).
Proof.
  intros w. unfold SyncFs.self. destruct (objs w !! this); apply (sk_refl _ K).
Qed.

Ltac keeps_step K :=
  first
    [ apply (keeps_self _ K)
    | apply (sk_getCachedStat _ K)
    | apply (sk_fromFs _ K)
    | apply (sk_mkdir _ K)
    | keep_step (sk_refl _ K) (sk_trans _ K)
    | match goal with
      | |- preserves _ (SyncFs.on_node ?h _) => destruct h; simpl
      | |- preserves _ SyncFs.type_error =>
          apply (preserves_throw _ (sk_refl _ K))
      end ].

Lemma keeps_type (R : sworld → sworld → Prop) (K : sync_keeps R) (this : nat) :
  preserves R (SyncFs.type this).
Proof. unfold SyncFs.type. repeat keeps_step K. Qed.

Lemma keeps_size_of (R : sworld → sworld → Prop) (K : sync_keeps R)
    (this : nat) :
  preserves R (SyncFs.size_of this).
Proof. unfold SyncFs.size_of. repeat keeps_step K. Qed.

Lemma keeps_parent (R : sworld → sworld → Prop) (K : sync_keeps R)
    (this : nat) :
  preserves R (SyncFs.parent this).
Proof. unfold SyncFs.parent. repeat keeps_step K. Qed.

Lemma keeps_type_of (R : sworld → sworld → Prop) (K : sync_keeps R) (h : hit) :
  preserves R (SyncFs.type_of h).
Proof.
  unfold SyncFs.type_of. destruct h; [| keeps_step K].
  keeps_step K; [apply (keeps_type _ K) | keeps_step K].
Qed.

Lemma keeps_mkdirSync_at (R : sworld → sworld → Prop) (K : sync_keeps R)
    (h : hit) :
  preserves R (SyncFs.mkdirSync_at h).
Proof. unfold SyncFs.mkdirSync_at. repeat keeps_step K. Qed.

Lemma keeps_parent_type (R : sworld → sworld → Prop) (K : sync_keeps R)
    (this : nat) :
  preserves R (SyncFs.parent_type this).
Proof.
  unfold SyncFs.parent_type. keeps_step K; [apply (keeps_parent _ K) |].
  apply (keeps_type_of _ K).
Qed.

Lemma keeps_grandparent (R : sworld → sworld → Prop) (K : sync_keeps R)
    (this : nat) :
  preserves R (SyncFs.grandparent this).
Proof.
  unfold SyncFs.grandparent. keeps_step K; [apply (keeps_parent _ K) |].
  keeps_step K; [apply (keeps_parent _ K) | keeps_step K].
Qed.

Ltac keeps K :=
  repeat first
    [ apply (keeps_type _ K) | apply (keeps_size_of _ K)
    | apply (keeps_parent _ K) | apply (keeps_type_of _ K)
    | apply (keeps_mkdirSync_at _ K) | apply (keeps_parent_type _ K)
    | apply (keeps_grandparent _ K) | keeps_step K ].

(** *** The entry at a path *)

Lemma entry_files (o o' : os) (k : string) :
  os_files o' = os_files o → Os.entry o' k = Os.entry o k.
Proof. intros H. unfold Os.entry. by rewrite H. Qed.

Lemma mkdir_keeps_entry (p : string) (o : os) (k : string) (e : fsentry) :
  os_faults o = [] → Os.entry o k = Some e →
  Os.entry (snd (Os.mkdir p o)) k = Some e.
Proof.
  intros Hf He. unfold Os.mkdir. rewrite syscall_no_fault by exact Hf.
  cbv zeta. destruct (Os.entry o (Os.key o p)) eqn:Hp; [exact He |].
  destruct (Os.parent_fault o (Os.key o p)); [exact He |].
  cbn [snd]. unfold Os.entry in *. cbn [os_files Os.set_files].
  destruct (String.eqb k "/"); [exact He |].
  rewrite lookup_insert_ne; [exact He |].
  intros <-. destruct (String.eqb (Os.key o p) "/"); congruence.
Qed.

Lemma sys_call_sys {A : Type} (f : os → (A + Error) * os) (w : sworld) :
  s_sys (snd (SyncFs.sys_call f w)) = snd (f (s_sys w)).
Proof.
  unfold SyncFs.sys_call. by destruct (f (s_sys w)) as [[a|e] o].
Qed.

Lemma sync_fromFs_files (args : list string) :
  preserves sync_files_kept (SyncFs.fromFs args).
Proof.
  intros w. unfold SyncFs.fromFs. destruct (_ || _); [reflexivity |].
  destruct (cache w !! _); [reflexivity |].
  destruct (inherited _); [reflexivity |].
  by destruct (SyncFs.createFsObj _).
Qed.

(** A step that keeps the nodes and the entry keeps the target. *)
Lemma target_is_kept (this : nat) (p cwd : string) (e : fsentry)
    (w w' : sworld) :
  hidden_kept w w' →
  (os_faults (s_sys w) = [] →
   Os.entry (s_sys w) (NodePath.resolve cwd p) = Some e →
   Os.entry (s_sys w') (NodePath.resolve cwd p) = Some e) →
  keeps_state (target_is this p cwd e) w w'.
Proof.
  intros ((Hcwd & Hfaults) & _ & Hnodes) Hentry (Hf & Hc & He & n & Hn & Hp).
  destruct (Hnodes this n Hn) as (n' & Hn' & Hp' & _).
  split; [by apply Hfaults |]. split; [congruence |].
  split; [by apply Hentry |]. exists n'. split; [exact Hn' | congruence].
Qed.

Lemma target_is_keeps (this : nat) (p cwd : string) (e : fsentry) :
  sync_keeps (keeps_state (target_is this p cwd e)).
Proof.
  split.
  - by intros w H.
  - intros a b c Hab Hbc H. by apply Hbc, Hab.
  - intros l maxAge w. apply target_is_kept; [apply getCachedStat_kept |].
    intros _ He. by rewrite (entry_files _ _ _ (sync_getCachedStat_files l maxAge w)).
  - intros args w. apply target_is_kept; [apply fromFs_kept |].
    intros _ He. by rewrite (entry_files _ _ _ (sync_fromFs_files args w)).
  - intros q w. apply target_is_kept;
      [apply (sys_call_kept _ (mkdir_settled q)) |].
    intros Hf He. rewrite sys_call_sys. by apply mkdir_keeps_entry.
Qed.

(** *** The stat a node holds *)

Lemma cached_stat_objs (now : Z) (cached : Ttl.cachedObj Stats) (p : string)
    (age : Ttl.age_arg) (w w0 : sworld) (ent : Ttl.CacheEntry Stats) :
  Ttl.cacheOrGenerate now cached (SyncFs.generating (Os.stat p)) age w
    = (ent, w0) →
  objs w0 = objs w.
Proof.
  assert (Hregen :
    objs (snd (Ttl.regenerate now (SyncFs.generating (Os.stat p)) w)) = objs w).
  { unfold Ttl.regenerate, SyncFs.generating.
    by destruct (Os.stat p (s_sys w)) as [[s|e] o]. }
  intros H.
  replace w0 with
    (snd (Ttl.cacheOrGenerate now cached (SyncFs.generating (Os.stat p)) age w))
    by (by rewrite H).
  clear H. unfold Ttl.cacheOrGenerate.
  destruct cached as [|e|e]; try exact Hregen.
  destruct (_ || _); [exact Hregen |].
  destruct (match Ttl.time e with Some t => t | None => Js.Num 0 end);
    [exact Hregen |].
  destruct (Ttl.defaulted age) as [[|m]|]; try exact Hregen.
  by destruct (_ <? _).
Qed.

(** Under [target_is], what a read of the stat of the node finds, in its
    entry or in the file system, is the stat of the target. *)
Lemma cached_stat_agrees (this : nat) (p cwd : string) (e : fsentry)
    (w w0 : sworld) (n : FsObj) (maxAge : Z) (ent : Ttl.CacheEntry Stats) :
  target_settled this p cwd e w → objs w !! this = Some n →
  Ttl.cacheOrGenerate (clock w) (SyncFs.as_cached (hidden_stat n))
    (SyncFs.generating (Os.stat (path n))) (Ttl.age_number (Js.Num maxAge)) w
    = (ent, w0) →
  Ttl.data ent = Ttl.p_value (Os.stats_of e).
Proof.
  intros [(Hf & Hcwd & He & m & Hm & Hp) Hs] Hn H.
  assert (m = n) as -> by congruence.
  assert (Hregen :
    Ttl.data (fst (Ttl.regenerate (clock w)
                     (SyncFs.generating (Os.stat (path n))) w))
      = Ttl.p_value (Os.stats_of e)).
  { unfold Ttl.regenerate, SyncFs.generating.
    rewrite stat_no_fault by exact Hf. unfold Os.key. by rewrite Hcwd, Hp, He. }
  replace ent with
    (fst (Ttl.cacheOrGenerate (clock w) (SyncFs.as_cached (hidden_stat n))
            (SyncFs.generating (Os.stat (path n))) (Ttl.age_number (Js.Num maxAge)) w))
    by (by rewrite H).
  clear H. unfold Ttl.cacheOrGenerate. cbn [Ttl.defaulted].
  destruct (hidden_stat n) as [entry|] eqn:Hstat; cbn [SyncFs.as_cached];
    [| exact Hregen].
  destruct (_ || _); [exact Hregen |].
  destruct (match Ttl.time entry with Some t => t | None => Js.Num 0 end);
    [exact Hregen |].
  destruct (_ <? _); [| exact Hregen].
  cbn [fst Ttl.data]. by eapply Hs.
Qed.

Lemma stat_agrees_objs (this : nat) (e : fsentry) (w w' : sworld) :
  objs w' !! this = objs w !! this → stat_agrees this e w → stat_agrees this e w'.
Proof. intros H Hs n entry Hn. rewrite H in Hn. by apply Hs. Qed.

Lemma target_settled_getCachedStat (this : nat) (p cwd : string) (e : fsentry)
    (l : nat) (maxAge : Z) :
  preserves (keeps_state (target_settled this p cwd e))
    (SyncFs.getCachedStat l maxAge).
Proof.
  intros w HG. pose proof HG as [Ht Hs].
  split; [by apply (sk_getCachedStat _ (target_is_keeps this p cwd e)) |].
  unfold SyncFs.getCachedStat. unfold bind at 1. unfold SyncFs.self at 1.
  destruct (objs w !! l) as [m|] eqn:Hm; [| exact Hs].
  unfold bind at 1.
  destruct (Ttl.cacheOrGenerate (clock w) (SyncFs.as_cached (hidden_stat m))
              (SyncFs.generating (Os.stat (path m))) (Ttl.age_number (Js.Num maxAge)) w)
    as [ent w0] eqn:Hgen.
  pose proof (cached_stat_objs _ _ _ _ _ _ _ Hgen) as Hobjs.
  assert (Hm0 : objs w0 !! l = Some m) by (by rewrite Hobjs).
  assert (Hstay : stat_agrees this e w0)
    by (apply (stat_agrees_objs this e w); [by rewrite Hobjs | exact Hs]).
  assert (Hupdate :
    stat_agrees this e
      (snd (SyncFs.update l (SyncFs.set_hidden_stat (Some ent)) w0))).
  { rewrite (sync_update_run l _ w0 m Hm0). cbn [snd].
    intros n' entry' Hn' Hstat'. cbn [objs SyncFs.set_objs] in Hn'.
    destruct (decide (l = this)) as [-> | Hne].
    - rewrite list_lookup_insert_eq in Hn' by (by eapply lookup_lt_Some).
      injection Hn' as <-. cbn [hidden_stat SyncFs.set_hidden_stat] in Hstat'.
      injection Hstat' as <-.
      by eapply (cached_stat_agrees this p cwd e w w0 m).
    - rewrite list_lookup_insert_ne in Hn' by done. by eapply Hstay. }
  destruct (Ttl.data ent) as [s|err].
  - unfold bind.
    destruct (SyncFs.update l (SyncFs.set_hidden_stat (Some ent)) w0)
      as [[[]|e0] w1]; exact Hupdate.
  - destruct (SyncFs.is_enoent err); [exact Hstay |].
    unfold bind.
    destruct (SyncFs.update l (SyncFs.set_hidden_stat (Some ent)) w0)
      as [[[]|e0] w1]; exact Hupdate.
Qed.

Lemma target_settled_keeps (this : nat) (p cwd : string) (e : fsentry) :
  sync_keeps (keeps_state (target_settled this p cwd e)).
Proof.
  split.
  - by intros w H.
  - intros a b c Hab Hbc H. by apply Hbc, Hab.
  - apply target_settled_getCachedStat.
  - intros args w [Ht Hs].
    split; [by apply (sk_fromFs _ (target_is_keeps this p cwd e)) |].
    apply (stat_agrees_objs this e w); [| exact Hs].
    destruct Ht as (_ & _ & _ & n & Hn & _).
    unfold SyncFs.fromFs. destruct (_ || _); [reflexivity |].
    destruct (cache w !! _); [reflexivity |].
    destruct (inherited _); [reflexivity |].
    destruct (SyncFs.createFsObj _); [| reflexivity].
    cbn [snd objs]. rewrite Hn. by apply lookup_app_l_Some.
  - intros q w [Ht Hs].
    split; [by apply (sk_mkdir _ (target_is_keeps this p cwd e)) |].
    apply (stat_agrees_objs this e w); [| exact Hs].
    unfold SyncFs.sys_call. by destruct (Os.mkdir q (s_sys w)) as [[a|e0] o].
Qed.

(** A read of the stat of the node under [target_settled]. *)
Lemma getCachedStat_settled (this : nat) (p cwd : string) (e : fsentry)
    (maxAge : Z) (w : sworld) :
  target_settled this p cwd e w →
  ∃ w', SyncFs.getCachedStat this maxAge w =
          (Return (Some (Ttl.p_value (Os.stats_of e))), w') ∧
        target_settled this p cwd e w'.
Proof.
  intros HG.
  pose proof (target_settled_getCachedStat this p cwd e this maxAge w HG) as HG'.
  destruct HG as [Ht Hs]. pose proof Ht as (_ & _ & _ & n & Hn & _).
  destruct (Ttl.cacheOrGenerate (clock w) (SyncFs.as_cached (hidden_stat n))
              (SyncFs.generating (Os.stat (path n))) (Ttl.age_number (Js.Num maxAge)) w)
    as [ent w0] eqn:Hgen.
  pose proof (cached_stat_agrees this p cwd e w w0 n maxAge ent (conj Ht Hs)
                Hn Hgen) as Hdata.
  pose proof (cached_stat_objs _ _ _ _ _ _ _ Hgen) as Hobjs.
  assert (Hrun :
    SyncFs.getCachedStat this maxAge w =
      (Return (Some (Ttl.p_value (Os.stats_of e))),
       SyncFs.set_objs w0
         (<[this := SyncFs.set_hidden_stat (Some ent) n]> (objs w0)))).
  { unfold SyncFs.getCachedStat. unfold bind at 1.
    rewrite (sync_self_run this w n Hn). unfold bind at 1.
    rewrite Hgen, Hdata. unfold bind.
    by rewrite (sync_update_run this _ w0 n) by (by rewrite Hobjs). }
  rewrite Hrun in HG'. eexists. split; [exact Hrun | by apply HG'].
Qed.

Lemma type_settled (this : nat) (p cwd : string) (content : list Byte.byte)
    (w : sworld) :
  target_settled this p cwd (EFile content) w →
  ∃ w', SyncFs.type this w = (Return t_file, w') ∧
        target_settled this p cwd (EFile content) w'.
Proof.
  intros HG.
  destruct (getCachedStat_settled this p cwd _ 100 w HG) as (w' & Hrun & HG').
  exists w'. split; [| exact HG'].
  unfold SyncFs.type, bind. by rewrite Hrun.
Qed.

Lemma size_settled (this : nat) (p cwd : string) (content : list Byte.byte)
    (w : sworld) :
  target_settled this p cwd (EFile content) w →
  ∃ w', SyncFs.size_of this w =
          (Return (Some (Z.of_nat (length content))), w') ∧
        target_settled this p cwd (EFile content) w'.
Proof.
  intros HG.
  destruct (getCachedStat_settled this p cwd _ 100 w HG) as (w' & Hrun & HG').
  exists w'. split; [| exact HG'].
  unfold SyncFs.size_of, bind. by rewrite Hrun.
Qed.

(** An update of a node that leaves its path and its stat alone. *)
Lemma target_settled_update (this : nat) (p cwd : string) (e : fsentry)
    (l : nat) (f : FsObj → FsObj) :
  (∀ n, path (f n) = path n ∧ hidden_stat (f n) = hidden_stat n) →
  preserves (keeps_state (target_settled this p cwd e)) (SyncFs.update l f).
Proof.
  intros Hf w [(Hfa & Hcwd & He & n & Hn & Hp) Hs].
  unfold SyncFs.update, bind, SyncFs.self.
  destruct (objs w !! l) as [m|] eqn:Hm; cbn [snd];
    [| split; [by repeat split; try (by exists n) | exact Hs]].
  destruct (Hf m) as [Hpath Hstat].
  split; [split; [exact Hfa | split; [exact Hcwd | split; [exact He |]]] |].
  - cbn [objs SyncFs.set_objs]. destruct (decide (this = l)) as [-> | Hne].
    + exists (f m). assert (m = n) as -> by congruence.
      split; [apply list_lookup_insert_eq; by eapply lookup_lt_Some |].
      congruence.
    + exists n. by rewrite list_lookup_insert_ne.
  - intros n' entry Hn' Hstat'. cbn [objs SyncFs.set_objs] in Hn'.
    destruct (decide (this = l)) as [-> | Hne].
    + rewrite list_lookup_insert_eq in Hn' by (by eapply lookup_lt_Some).
      injection Hn' as <-. rewrite Hstat in Hstat'. by eapply Hs.
    + rewrite list_lookup_insert_ne in Hn' by done. by eapply Hs.
Qed.

Lemma bind_fails {S A B : Type} (P : S → Prop) (m : M S A) (k : A → M S B)
    (s : S) :
  P s → preserves (keeps_state P) m →
  (∀ a s1, P s1 → ∃ e s', k a s1 = (Throw e, s') ∧ P s') →
  ∃ e s', bind m k s = (Throw e, s') ∧ P s'.
Proof.
  intros Hs Hm Hk. unfold bind. specialize (Hm s Hs).
  destruct (m s) as [[a|e] s1]; cbn [snd] in Hm; [by apply Hk |].
  by exists e, s1.
Qed.

Lemma bind_fails_first {S A B : Type} (P : S → Prop) (m : M S A)
    (k : A → M S B) (s : S) :
  (∃ e s', m s = (Throw e, s') ∧ P s') →
  ∃ e s', bind m k s = (Throw e, s') ∧ P s'.
Proof.
  intros (e & s' & Hrun & HP). exists e, s'. split; [| exact HP].
  by apply bind_throws.
Qed.

(** ** The guard of the synchronous write *)

(** In the synchronous variant the guard of [write] holds: on a node whose
    target is a regular file that is not empty (the stat the node holds, if
    any, being the stat of that file), a write with [overwrite] disabled
    throws, whatever the value, and the file holds afterwards what it held
    before. *)
Theorem write_refused_on_existing_file (this : nat) (p cwd : string)
    (content : list Byte.byte) (value : string + list Byte.byte)
    (w : sworld) :
  target_is this p cwd (EFile content) w →
  stat_agrees this (EFile content) w →
  content ≠ [] →
  ∃ e w', SyncFs.writeFunc this value false w = (Throw e, w') ∧
          target_is this p cwd (EFile content) w'.
Proof.
  intros Ht Hs Hne.
  pose proof (target_settled_keeps this p cwd (EFile content)) as K.
  cut (∃ e w', SyncFs.writeFunc this value false w = (Throw e, w') ∧
               target_settled this p cwd (EFile content) w').
  { intros (e & w' & Hrun & [Ht' _]). by exists e, w'. }
  unfold SyncFs.writeFunc.
  apply bind_fails; [by split | apply (sk_getCachedStat _ K) | intros s w1 H1].
  apply bind_fails; [exact H1 | | intros dir w2 H2].
  { intros w0 H0. by destruct s as [[s|e]|]. }
  apply bind_fails; [exact H2 | by apply target_settled_update |
                     intros [] w3 H3].
  apply bind_fails_first.
  unfold SyncFs.writeToFsObj. cbv zeta.
  apply bind_fails; [exact H3 | apply (keeps_type _ K) | intros t0 w4 H4].
  apply bind_fails; [exact H4 | apply (keeps_parent_type _ K) |
                     intros pt w5 H5].
  apply bind_fails; [exact H5 | keeps K | intros u w6 H6].
  destruct (type_settled _ _ _ _ _ H6) as (w7 & Hrun7 & H7).
  destruct (size_settled _ _ _ _ _ H7) as (w8 & Hrun8 & H8).
  unfold bind at 1. rewrite Hrun7.
  unfold bind at 1. unfold bind at 1. rewrite Hrun8. cbn [ret negb andb].
  assert (Hpos : (0 <? Z.of_nat (length content)) = true).
  { apply Z.ltb_lt. destruct content; [done |]. cbn [length]. lia. }
  rewrite Hpos. cbn [andb]. by eexists _, w8.
Qed.

Lemma write_refused_on_existing_file_witness :
  target_is 0 "docs/notes.txt" "/home/user" (EFile (list_byte_of_string "old"))
    (sync_node_at example_os 1000 "docs/notes.txt") ∧
  stat_agrees 0 (EFile (list_byte_of_string "old"))
    (sync_node_at example_os 1000 "docs/notes.txt") ∧
  list_byte_of_string "old" ≠ [] ∧
  ∃ e w', SyncFs.writeFunc 0 (inl "new") false
            (sync_node_at example_os 1000 "docs/notes.txt") = (Throw e, w') ∧
          target_is 0 "docs/notes.txt" "/home/user"
            (EFile (list_byte_of_string "old")) w'.
Proof.
  assert (H1 : target_is 0 "docs/notes.txt" "/home/user"
                 (EFile (list_byte_of_string "old"))
                 (sync_node_at example_os 1000 "docs/notes.txt")).
  { split; [reflexivity |]. split; [reflexivity |].
    split; [vm_compute; reflexivity |]. by eexists. }
  assert (H2 : stat_agrees 0 (EFile (list_byte_of_string "old"))
                 (sync_node_at example_os 1000 "docs/notes.txt")).
  { intros n entry Hn Hstat. injection Hn as <-. discriminate Hstat. }
  assert (H3 : list_byte_of_string "old" ≠ []) by (vm_compute; discriminate).
  split; [exact H1 |]. split; [exact H2 |]. split; [exact H3 |].
  exact (write_refused_on_existing_file 0 "docs/notes.txt" "/home/user"
           (list_byte_of_string "old") (inl "new")
           (sync_node_at example_os 1000 "docs/notes.txt") H1 H2 H3).
Defined.

(** ** What an append leaves in the file *)

Lemma target_is_update (this : nat) (p cwd : string) (e : fsentry)
    (l : nat) (f : FsObj → FsObj) :
  (∀ n, path (f n) = path n) →
  preserves (keeps_state (target_is this p cwd e)) (SyncFs.update l f).
Proof.
  intros Hf w (Hfa & Hcwd & He & n & Hn & Hp).
  unfold SyncFs.update, bind, SyncFs.self.
  destruct (objs w !! l) as [m|] eqn:Hm; cbn [snd];
    [| by repeat split; try (by exists n)].
  split; [exact Hfa | split; [exact Hcwd | split; [exact He |]]].
  cbn [objs SyncFs.set_objs]. destruct (decide (this = l)) as [-> | Hne].
  - exists (f m). assert (m = n) as -> by congruence.
    split; [apply list_lookup_insert_eq; by eapply lookup_lt_Some |].
    by rewrite Hf.
  - exists n. by rewrite list_lookup_insert_ne.
Qed.

(** An [appendFileSync] that returns on a regular file has put the value
    after what the file held. *)
Lemma appendFile_target (this : nat) (p cwd : string) (old v : list Byte.byte)
    (w w' : sworld) :
  target_is this p cwd (EFile old) w →
  SyncFs.sys_call (Os.appendFile p v) w = (Return tt, w') →
  target_is this p cwd (EFile (old ++ v)) w'.
Proof.
  intros (Hf & Hcwd & He & n & Hn & Hp) H.
  unfold SyncFs.sys_call, Os.appendFile in H.
  rewrite syscall_no_fault in H by exact Hf. cbv zeta in H.
  unfold Os.key in H. rewrite Hcwd, He in H. injection H as <-.
  split; [exact Hf |]. split; [exact Hcwd |].
  split; [| by exists n].
  cbn [s_sys SyncFs.set_sys]. unfold Os.entry in *.
  cbn [os_files Os.set_files].
  destruct (String.eqb (NodePath.resolve cwd p) "/"); [discriminate |].
  apply lookup_insert_eq.
Qed.

Lemma appendToFsObj_appends (this : nat) (p cwd : string)
    (old : list Byte.byte) (value : string + list Byte.byte)
    (overwrite : bool) (w w' : sworld) (r : Written) :
  target_is this p cwd (EFile old) w →
  SyncFs.writeToFsObj this true value overwrite w = (Return r, w') →
  target_is this p cwd (EFile (old ++ SyncFs.written_value value)) w' ∧
  buffer r = SyncFs.written_value value.
Proof.
  intros Ht H.
  pose proof (target_is_keeps this p cwd (EFile old)) as K.
  pose proof (target_is_keeps this p cwd (EFile (old ++ SyncFs.written_value value)))
    as K'.
  unfold SyncFs.writeToFsObj in H. cbv zeta in H.
  apply bind_return in H as (t0 & w1 & Hrun1 & H).
  pose proof (preserves_run _ _ _ _ _ (keeps_type _ K this) Hrun1 Ht) as H1.
  apply bind_return in H as (pt & w2 & Hrun2 & H).
  pose proof (preserves_run _ _ _ _ _ (keeps_parent_type _ K this) Hrun2 H1)
    as H2.
  apply bind_return in H as (u & w3 & Hrun3 & H).
  assert (H3 : target_is this p cwd (EFile old) w3).
  { eapply (preserves_run (keeps_state (target_is this p cwd (EFile old))));
      [| exact Hrun3 | exact H2]. keeps K. }
  apply bind_return in H as (t & w4 & Hrun4 & H).
  pose proof (preserves_run _ _ _ _ _ (keeps_type _ K this) Hrun4 H3) as H4.
  apply bind_return in H as (refused & w5 & Hrun5 & H).
  assert (H5 : target_is this p cwd (EFile old) w5).
  { eapply (preserves_run (keeps_state (target_is this p cwd (EFile old))));
      [| exact Hrun5 | exact H4]. keeps K. }
  destruct refused; [discriminate |].
  apply bind_return in H as (m & w6 & Hself & H).
  apply self_return in Hself as [Hm ->].
  assert (Hpath : path m = p).
  { destruct H5 as (_ & _ & _ & n & Hn & Hp). congruence. }
  rewrite Hpath in H.
  apply bind_return in H as ([] & w7 & Hwrite & H).
  pose proof (appendFile_target _ _ _ _ _ _ _ H5 Hwrite) as H7.
  apply bind_return in H as (base & w8 & Hbase & H).
  pose proof (preserves_run _ _ _ _ _ (keeps_size_of _ K' this) Hbase H7) as H8.
  injection H as <- <-. by split.
Qed.

(** Appending to a node whose target is a regular file: an append that
    returns has left in the file what it held followed by the bytes the
    value was turned into (the text of a string, the JSON text of a
    buffer), and hands these bytes back as its buffer. *)
Theorem append_appends (this : nat) (p cwd : string) (old : list Byte.byte)
    (value : string + list Byte.byte) (overwrite : bool) (w w' : sworld)
    (r : Written) :
  target_is this p cwd (EFile old) w →
  SyncFs.appendFunc this value overwrite w = (Return r, w') →
  let bytes :=
    match value with
    | inl text => list_byte_of_string text
    | inr b => list_byte_of_string (Js.stringify_buffer b)
    end in
  target_is this p cwd (EFile (old ++ bytes)) w' ∧ buffer r = bytes.
Proof.
  intros Ht H. cbv zeta.
  change (match value with
          | inl text => list_byte_of_string text
          | inr b => list_byte_of_string (Js.stringify_buffer b)
          end) with (SyncFs.written_value value).
  pose proof (target_is_keeps this p cwd (EFile old)) as K.
  unfold SyncFs.appendFunc in H.
  apply bind_return in H as (s & w1 & Hrun1 & H).
  pose proof (preserves_run _ _ _ _ _ (sk_getCachedStat _ K this 100) Hrun1 Ht)
    as H1.
  apply bind_return in H as (r' & w2 & Hrun2 & H).
  destruct (appendToFsObj_appends _ _ _ _ _ _ _ _ _ H1 Hrun2) as [H2 Hbuf].
  apply bind_return in H as ([] & w3 & Hrun3 & H).
  injection H as -> ->. split; [| exact Hbuf].
  eapply (preserves_run
            (keeps_state
               (target_is this p cwd (EFile (old ++ SyncFs.written_value value)))));
    [| exact Hrun3 | exact H2].
  destruct (SyncFs.has_size r).
  - apply (preserves_bind _ (sk_trans _ (target_is_keeps this p cwd _)));
      [| intros []]; by apply target_is_update.
  - apply (preserves_ret _ (sk_refl _ (target_is_keeps this p cwd _))).
Qed.

Lemma append_appends_witness :
  let w := sync_node_at example_os 1000 "docs/notes.txt" in
  let old := list_byte_of_string "old" in
  let json := list_byte_of_string (Js.stringify_buffer [Byte.x61]) in
  target_is 0 "docs/notes.txt" "/home/user" (EFile old) w ∧
  SyncFs.appendFunc 0 (inr [Byte.x61]) false w =
    (Return {| size := Js.Num 32; buffer := json |},
     snd (SyncFs.appendFunc 0 (inr [Byte.x61]) false w)) ∧
  length json = 29%nat ∧
  target_is 0 "docs/notes.txt" "/home/user" (EFile (old ++ json))
    (snd (SyncFs.appendFunc 0 (inr [Byte.x61]) false w)) ∧
  buffer {| size := Js.Num 32; buffer := json |} = json.
Proof.
  cbv zeta.
  assert (H1 : target_is 0 "docs/notes.txt" "/home/user"
                 (EFile (list_byte_of_string "old"))
                 (sync_node_at example_os 1000 "docs/notes.txt")).
  { split; [reflexivity |]. split; [reflexivity |].
    split; [vm_compute; reflexivity |]. by eexists. }
  assert (H2 : SyncFs.appendFunc 0 (inr [Byte.x61]) false
    (sync_node_at example_os 1000 "docs/notes.txt") =
    (Return {| size := Js.Num 32;
               buffer := list_byte_of_string (Js.stringify_buffer [Byte.x61]) |},
     snd (SyncFs.appendFunc 0 (inr [Byte.x61]) false
            (sync_node_at example_os 1000 "docs/notes.txt"))))
    by (vm_compute; reflexivity).
  split; [exact H1 |]. split; [exact H2 |].
  split; [vm_compute; reflexivity |].
  exact (append_appends 0 "docs/notes.txt" "/home/user"
           (list_byte_of_string "old") (inr [Byte.x61]) false
           (sync_node_at example_os 1000 "docs/notes.txt") _ _ H1 H2).
Defined.

(** ** Reads of a node that holds nothing yet, synchronous variant *)

Lemma getCachedStat_missing (this : nat) (maxAge : Z) (w : sworld) (n : FsObj) :
  objs w !! this = Some n → hidden_stat n = None →
  os_faults (s_sys w) = [] →
  Os.entry (s_sys w) (Os.key (s_sys w) (path n)) = None →
  Os.missing (s_sys w) (Os.key (s_sys w) (path n)) = os_error "ENOENT" →
  SyncFs.getCachedStat this maxAge w = (Return None, w).
Proof.
  intros Hn Hstat Hf He Hm.
  unfold SyncFs.getCachedStat, bind. rewrite (sync_self_run this w n Hn), Hstat.
  cbn [SyncFs.as_cached Ttl.cacheOrGenerate].
  unfold Ttl.regenerate, SyncFs.generating.
  rewrite stat_no_fault by exact Hf. rewrite He, Hm.
  cbn [Ttl.data]. change (SyncFs.is_enoent (os_error "ENOENT")) with true.
  cbv iota. unfold ret. by destruct w.
Qed.

(** A stat read of a target below an entry that is no directory: the error
    of the system is stored and handed back. *)
Lemma getCachedStat_blocked (this : nat) (maxAge : Z) (w : sworld) (n : FsObj) :
  objs w !! this = Some n → hidden_stat n = None →
  os_faults (s_sys w) = [] →
  Os.entry (s_sys w) (Os.key (s_sys w) (path n)) = None →
  Os.missing (s_sys w) (Os.key (s_sys w) (path n)) = os_error "ENOTDIR" →
  SyncFs.getCachedStat this maxAge w =
    (Return (Some (Ttl.p_error (os_error "ENOTDIR"))),
     SyncFs.set_objs w
       (<[this := SyncFs.set_hidden_stat
                    (Some {| Ttl.data := Ttl.p_error (os_error "ENOTDIR");
                             Ttl.time := Some (Js.Num (clock w)) |}) n]>
          (objs w))).
Proof.
  intros Hn Hstat Hf He Hm.
  unfold SyncFs.getCachedStat, SyncFs.update, SyncFs.self, bind.
  rewrite Hn, Hstat.
  cbn [SyncFs.as_cached Ttl.cacheOrGenerate].
  unfold Ttl.regenerate, SyncFs.generating.
  rewrite stat_no_fault by exact Hf. rewrite He, Hm.
  cbn [Ttl.data]. change (SyncFs.is_enoent (os_error "ENOTDIR")) with false.
  cbv iota. destruct w as [o c l k].
  cbn [objs s_sys clock SyncFs.set_sys SyncFs.set_objs] in *.
  rewrite Hn. reflexivity.
Qed.



(** [read()] on a node that holds no stat and whose path has no dot
    segment, no fault being scheduled. When the target is a directory, and
    when it is missing and the lookup fails with [ENOENT], the call throws
    "Invalid fs object target to read method". When the target lies below
    an entry that is no directory, so that the lookup fails with
    [ENOTDIR], the node stores that error and the call throws a
    [TypeError], the stored error having no [isDirectory]. Every file is
    left as it was. *)
Theorem read_rejects_missing_and_folder (this : nat) (w : sworld) (n : FsObj) :
  objs w !! this = Some n → hidden_stat n = None →
  os_faults (s_sys w) = [] →
  dot_free (path n) = true →
  let o := s_sys w in
  let k := Os.key o (path n) in
  (Os.entry o k = Some EDir ∨
   (Os.entry o k = None ∧ Os.missing o k = os_error "ENOENT") →
   fst (SyncFs.readFunc this w) =
     Throw (plain_error "Invalid fs object target to read method")) ∧
  (Os.entry o k = None ∧ Os.missing o k = os_error "ENOTDIR" →
   fst (SyncFs.readFunc this w) = Throw (plain_error "TypeError")) ∧
  (Os.entry o k = Some EDir ∨ Os.entry o k = None →
   os_files (s_sys (snd (SyncFs.readFunc this w))) = os_files o).
Proof.
  intros Hn Hstat Hf _. cbv zeta.
  assert (Hlen : (this < length (objs w))%nat) by (by eapply lookup_lt_Some).
  assert (Hdir :
    Os.entry (s_sys w) (Os.key (s_sys w) (path n)) = Some EDir →
    ∃ w', SyncFs.readFunc this w =
            (Throw (plain_error "Invalid fs object target to read method"), w')
          ∧ os_files (s_sys w') = os_files (s_sys w)).
  { intros He. unfold SyncFs.readFunc, SyncFs.stat. unfold bind at 1.
    rewrite (getCachedStat_fresh this 33 w n EDir Hn Hstat Hf He).
    by eexists. }
  assert (Hgone :
    Os.entry (s_sys w) (Os.key (s_sys w) (path n)) = None →
    Os.missing (s_sys w) (Os.key (s_sys w) (path n)) = os_error "ENOENT" →
    ∃ w', SyncFs.readFunc this w =
            (Throw (plain_error "Invalid fs object target to read method"), w')
          ∧ os_files (s_sys w') = os_files (s_sys w)).
  { intros He Hm. unfold SyncFs.readFunc, SyncFs.stat. unfold bind at 1.
    rewrite (getCachedStat_missing this 33 w n Hn Hstat Hf He Hm).
    by exists w. }
  assert (Hblocked :
    Os.entry (s_sys w) (Os.key (s_sys w) (path n)) = None →
    Os.missing (s_sys w) (Os.key (s_sys w) (path n)) = os_error "ENOTDIR" →
    ∃ w', SyncFs.readFunc this w = (Throw (plain_error "TypeError"), w')
          ∧ os_files (s_sys w') = os_files (s_sys w)).
  { intros He Hm. unfold SyncFs.readFunc, SyncFs.stat. unfold bind at 1.
    rewrite (getCachedStat_blocked this 33 w n Hn Hstat Hf He Hm).
    by eexists. }
  split; [| split].
  - intros [He | [He Hm]].
    + destruct (Hdir He) as (w' & -> & _). reflexivity.
    + destruct (Hgone He Hm) as (w' & -> & _). reflexivity.
  - intros [He Hm]. destruct (Hblocked He Hm) as (w' & -> & _). reflexivity.
  - intros [He | He].
    + destruct (Hdir He) as (w' & -> & Hfiles). exact Hfiles.
    + destruct (missing_cases (s_sys w) (Os.key (s_sys w) (path n)))
        as [Hm | Hm].
      * destruct (Hgone He Hm) as (w' & -> & Hfiles). exact Hfiles.
      * destruct (Hblocked He Hm) as (w' & -> & Hfiles). exact Hfiles.
Qed.

(** On the example file system: [missing.txt] is missing from the working
    directory, [/tmp/d] is a directory, and [/tmp/d/a/x] lies below the
    file [/tmp/d/a]. *)
Lemma read_rejects_missing_and_folder_witness :
  let w := sync_node_at example_os 1000 "/tmp/d/a/x" in
  let n := {| path := "/tmp/d/a/x"; hidden_stat := None; hidden_data := None;
              hidden_children := None |} in
  (objs w !! 0%nat = Some n ∧
   hidden_stat n = None ∧
   os_faults (s_sys w) = [] ∧
   dot_free (path n) = true) ∧
  (Os.entry (s_sys w) (Os.key (s_sys w) (path n)) = None ∧
   Os.missing (s_sys w) (Os.key (s_sys w) (path n)) = os_error "ENOTDIR") ∧
  fst (SyncFs.readFunc 0 w) = Throw (plain_error "TypeError") ∧
  fst (SyncFs.readFunc 0 (sync_node_at example_os 1000 "missing.txt")) =
    Throw (plain_error "Invalid fs object target to read method") ∧
  fst (SyncFs.readFunc 0 (sync_node_at example_os 1000 "/tmp/d")) =
    Throw (plain_error "Invalid fs object target to read method").
Proof.
  cbv zeta.
  assert (Hb :
    Os.entry (s_sys (sync_node_at example_os 1000 "/tmp/d/a/x"))
      (Os.key (s_sys (sync_node_at example_os 1000 "/tmp/d/a/x"))
         (path {| path := "/tmp/d/a/x"; hidden_stat := None;
                  hidden_data := None; hidden_children := None |})) = None ∧
    Os.missing (s_sys (sync_node_at example_os 1000 "/tmp/d/a/x"))
      (Os.key (s_sys (sync_node_at example_os 1000 "/tmp/d/a/x"))
         (path {| path := "/tmp/d/a/x"; hidden_stat := None;
                  hidden_data := None; hidden_children := None |}))
      = os_error "ENOTDIR")
    by (split; vm_compute; reflexivity).
  split; [by repeat split |]. split; [exact Hb |].
  split.
  - exact (proj1 (proj2 (read_rejects_missing_and_folder 0
             (sync_node_at example_os 1000 "/tmp/d/a/x")
             {| path := "/tmp/d/a/x"; hidden_stat := None; hidden_data := None;
                hidden_children := None |} eq_refl eq_refl eq_refl eq_refl)) Hb).
  - split; vm_compute; reflexivity.
Defined.

(** ** Directory creation, synchronous variant *)

(** A [mkdirSync] that returns has made a directory at the path. *)
Lemma mkdir_return (p : string) (w w' : sworld) :
  SyncFs.sys_call (Os.mkdir p) w = (Return tt, w') →
  os_faults (s_sys w) = [] →
  Os.entry (s_sys w') (Os.key (s_sys w') p) = Some EDir ∧
  os_faults (s_sys w') = [] ∧ os_cwd (s_sys w') = os_cwd (s_sys w).
Proof.
  unfold SyncFs.sys_call, Os.mkdir. intros H Hf.
  rewrite syscall_no_fault in H by exact Hf. cbv zeta in H.
  destruct (Os.entry (s_sys w) (Os.key (s_sys w) p)); [discriminate |].
  destruct (Os.parent_fault _ _); [discriminate |].
  injection H as <-. cbn [s_sys SyncFs.set_sys].
  split; [| by split].
  change (Os.key (Os.set_files (s_sys w) _) p) with (Os.key (s_sys w) p).
  unfold Os.entry. destruct (String.eqb (Os.key (s_sys w) p) "/"); [done |].
  cbn [os_files Os.set_files]. apply lookup_insert_eq.
Qed.

(** A lookup gives again what it has just given. *)
Lemma fromFs_again (args : list string) (w w' : sworld) (h : hit) :
  SyncFs.fromFs args w = (Return h, w') →
  SyncFs.fromFs args w' = (Return h, w') ∧ s_sys w' = s_sys w.
Proof.
  unfold SyncFs.fromFs. destruct (_ || _); [discriminate |].
  destruct (cache w !! SyncFs.fsPath args) as [l|] eqn:Hc.
  - intros [= <- <-]. by rewrite Hc.
  - destruct (inherited (SyncFs.fsPath args)) eqn:Hin.
    + intros [= <- <-]. by rewrite Hc.
    + destruct (SyncFs.createFsObj _); [| discriminate].
      intros [= <- <-]. cbn [cache s_sys]. by rewrite lookup_insert_eq.
Qed.

(** [mkdir(name)] that returns, no fault being scheduled, has made the
    directory [name] under the node's path, and hands back the node that
    [fromFs(path, name)] gives from then on. *)
Theorem mkdirFunc_creates (this : nat) (name : string) (w w' : sworld)
    (h : hit) :
  SyncFs.mkdirFunc this name w = (Return h, w') →
  os_faults (s_sys w) = [] →
  ∃ n, objs w !! this = Some n ∧
       Os.entry (s_sys w') (Os.key (s_sys w') (path n +:+ "/" +:+ name))
         = Some EDir ∧
       SyncFs.fromFs [path n; name] w' = (Return h, w').
Proof.
  unfold SyncFs.mkdirFunc. intros H Hf.
  destruct (_ || _); [discriminate |].
  apply bind_return in H as (t & w1 & Ht & H).
  destruct (type_return _ _ _ _ Ht) as [n Hn].
  pose proof (preserves_run _ _ _ _ _ (type_kept this) Ht)
    as ((_ & Hf1) & _ & Hk1).
  destruct (Hk1 this n Hn) as (n1 & Hn1 & Hp1 & _).
  apply bind_return in H as (m & w2 & Hself & H).
  apply self_return in Hself as [Hm ->].
  assert (m = n1) as -> by congruence.
  destruct t, (Str.is_empty (path n1));
    try (unfold SyncFs.refuse_create in H;
         apply bind_return in H as (? & ? & _ & H); discriminate).
  apply bind_return in H as ([] & w3 & Hmk & H).
  destruct (mkdir_return _ _ _ Hmk (Hf1 Hf)) as (He & _ & _).
  apply bind_return in H as ([] & w4 & Hup & H).
  apply update_return in Hup as (m4 & _ & _ & Hs4 & _).
  destruct (fromFs_again _ _ _ _ H) as [Hagain Hs5].
  exists n. split; [exact Hn |]. rewrite <- Hp1.
  split; [| exact Hagain]. by rewrite Hs5, Hs4.
Qed.

Lemma mkdirFunc_creates_witness :
  SyncFs.mkdirFunc 0 "sub" (sync_node_at example_os 1000 "/tmp/d") =
    (Return (Node 1),
     snd (SyncFs.mkdirFunc 0 "sub" (sync_node_at example_os 1000 "/tmp/d"))) ∧
  os_faults (s_sys (sync_node_at example_os 1000 "/tmp/d")) = [] ∧
  ∃ n, objs (sync_node_at example_os 1000 "/tmp/d") !! 0%nat = Some n ∧
       Os.entry
         (s_sys (snd (SyncFs.mkdirFunc 0 "sub"
                        (sync_node_at example_os 1000 "/tmp/d"))))
         (Os.key
            (s_sys (snd (SyncFs.mkdirFunc 0 "sub"
                           (sync_node_at example_os 1000 "/tmp/d"))))
            (path n +:+ "/" +:+ "sub")) = Some EDir ∧
       SyncFs.fromFs [path n; "sub"]
         (snd (SyncFs.mkdirFunc 0 "sub" (sync_node_at example_os 1000 "/tmp/d")))
       = (Return (Node 1),
          snd (SyncFs.mkdirFunc 0 "sub" (sync_node_at example_os 1000 "/tmp/d"))).
Proof.
  assert (H1 : SyncFs.mkdirFunc 0 "sub" (sync_node_at example_os 1000 "/tmp/d") =
    (Return (Node 1),
     snd (SyncFs.mkdirFunc 0 "sub" (sync_node_at example_os 1000 "/tmp/d"))))
    by (vm_compute; reflexivity).
  split; [exact H1 |]. split; [reflexivity |].
  exact (mkdirFunc_creates 0 "sub" (sync_node_at example_os 1000 "/tmp/d")
           _ (Node 1) H1 eq_refl).
Defined.

(** ** Overwriting, asynchronous variant *)

(** [overwrite(data)] on a node whose target is missing, no fault being
    scheduled, throws "Rewrite target does not exist" in both editions and
    leaves the world as it was: nothing is created. *)
Theorem overwrite_missing_target (ed : Edition) (this : nat)
    (data : string + list Byte.byte) (w : world) (n : AsyncFsObj) :
  heap w !! this = Some n → os_faults (sys w) = [] →
  Os.entry (sys w) (Os.key (sys w) (_path n)) = None →
  AsyncFsObj.overwrite ed this data w =
    (Throw (plain_error "Rewrite target does not exist"), w).
Proof.
  intros Hn Hf He. unfold AsyncFsObj.overwrite. unfold bind at 1.
  assert (Hstat : AsyncFsObj.stat this w = (Return None, w))
    by (by rewrite (async_stat_no_fault this w n Hn Hf), He).
  destruct ed.
  - unfold AsyncFsObj.exists_, bind. by rewrite Hstat.
  - unfold AsyncFsObj.file, AsyncFsObj.type, bind. by rewrite Hstat.
Qed.

Lemma overwrite_missing_target_witness :
  heap (async_node_at example_os "missing.txt") !! 0%nat
    = Some (AsyncFsObj.constructor "missing.txt") ∧
  os_faults (sys (async_node_at example_os "missing.txt")) = [] ∧
  Os.entry (sys (async_node_at example_os "missing.txt"))
    (Os.key (sys (async_node_at example_os "missing.txt"))
       (_path (AsyncFsObj.constructor "missing.txt"))) = None ∧
  AsyncFsObj.overwrite Plain 0 (inl "new")
    (async_node_at example_os "missing.txt") =
    (Throw (plain_error "Rewrite target does not exist"),
     async_node_at example_os "missing.txt").
Proof.
  assert (H3 : Os.entry (sys (async_node_at example_os "missing.txt"))
    (Os.key (sys (async_node_at example_os "missing.txt"))
       (_path (AsyncFsObj.constructor "missing.txt"))) = None)
    by (vm_compute; reflexivity).
  split; [reflexivity |]. split; [reflexivity |]. split; [exact H3 |].
  exact (overwrite_missing_target Plain 0 (inl "new")
           (async_node_at example_os "missing.txt")
           (AsyncFsObj.constructor "missing.txt") eq_refl eq_refl H3).
Defined.

(** ** The parent of a node below a directory, synchronous variant *)

Lemma split_app_sep (c : ascii) (a b : string) :
  Str.split c (a +:+ String c b) = Str.split c a ++ Str.split c b.
Proof.
  induction a as [|x a IH].
  - change (EmptyString +:+ String c b) with (String c b).
    cbn [Str.split app]. by rewrite Ascii.eqb_refl.
  - change (String x a +:+ String c b) with (String x (a +:+ String c b)).
    cbn [Str.split]. rewrite IH.
    destruct (Ascii.eqb x c); [reflexivity |].
    pose proof (split_not_nil c a) as Hne.
    by destruct (Str.split c a).
Qed.

Lemma join_split (c : ascii) (s : string) :
  Str.join (String c EmptyString) (Str.split c s) = s.
Proof.
  induction s as [|x s IH]; [reflexivity |].
  cbn [Str.split]. pose proof (split_not_nil c s) as Hne.
  destruct (Ascii.eqb_spec x c) as [-> | Hxc].
  - destruct (Str.split c s) as [|h t] eqn:Hsplit; [done |].
    rewrite <- IH. by destruct t.
  - destruct (Str.split c s) as [|h t] eqn:Hsplit; [done |].
    rewrite <- IH. by destruct t.
Qed.

(** The [parent] getter of a node whose path is [dir/name], [name] holding
    no slash and [dir] not being empty, is the lookup [fromFs(dir)]: the
    path less its last segment. *)
Theorem parent_of_nested_node (this : nat) (w : sworld) (n : FsObj)
    (dir name : string) :
  objs w !! this = Some n →
  path n = dir +:+ "/" +:+ name →
  dir ≠ EmptyString → Str.includes name "/" = false →
  SyncFs.parent this w = SyncFs.fromFs [dir] w.
Proof.
  intros Hn Hpath Hdir Hname. unfold SyncFs.parent, bind.
  rewrite (sync_self_run this w n Hn), Hpath.
  change (dir +:+ "/" +:+ name) with (dir +:+ String "/" name).
  rewrite split_app_sep, (split_no_sep "/" name Hname).
  rewrite length_app. cbn [length].
  replace (length (Str.split "/" dir) + 1 - 1)%nat
    with (length (Str.split "/" dir)) by lia.
  rewrite take_app_length. rewrite (join_split "/" dir).
  by destruct dir.
Qed.

Lemma parent_of_nested_node_witness :
  objs (sync_node_at example_os 1000 "docs/notes.txt") !! 0%nat
    = Some {| path := "docs/notes.txt"; hidden_stat := None;
              hidden_data := None; hidden_children := None |} ∧
  path {| path := "docs/notes.txt"; hidden_stat := None;
          hidden_data := None; hidden_children := None |}
    = "docs" +:+ "/" +:+ "notes.txt" ∧
  "docs" ≠ EmptyString ∧ Str.includes "notes.txt" "/" = false ∧
  SyncFs.parent 0 (sync_node_at example_os 1000 "docs/notes.txt") =
    SyncFs.fromFs ["docs"] (sync_node_at example_os 1000 "docs/notes.txt").
Proof.
  assert (H3 : "docs" ≠ EmptyString) by discriminate.
  split; [reflexivity |]. split; [reflexivity |]. split; [exact H3 |].
  split; [reflexivity |].
  exact (parent_of_nested_node 0 (sync_node_at example_os 1000 "docs/notes.txt")
           {| path := "docs/notes.txt"; hidden_stat := None;
              hidden_data := None; hidden_children := None |}
           "docs" "notes.txt" eq_refl eq_refl H3 eq_refl).
Defined.
